(** * The chunked upload pipeline of [source/uploader.ts]

    A shallow embedding of the [Uploader] class: the strategy selection of
    the constructor, the progress aggregator, the per-part executor, the
    retry governor, the part scheduler and the completion and cleanup
    coordinator, followed by the properties of the pipeline.

    Conventions of the embedding.
    - A JavaScript [number] that holds a byte count, a part number or a
      counter is a [Z]: sums, differences and products of integers are
      exact in a double as long as they stay below [2 ^ 53]. A number that
      comes out of a division is a double: a [spec_float] of the standard
      library, with the operations of binary64 (53 bits of precision,
      rounding to nearest, ties to even; NaN and the infinities included).
    - [Record<number, T>] objects are [gmap Z T]; [Object.keys] of such an
      object lists its keys in ascending order (part numbers start at 1,
      so every key is a non-negative integer).
    - The event loop is explicit: the state carries the queue of pending
      promise reactions, the armed timers and the pending remote calls, and
      one [Event] is one callback run by the platform, or one call made by
      the owner of the uploader between two callbacks. The callbacks of the
      caller are opaque: a call of one is logged as an effect. *)

From Stdlib Require Import ZArith QArith Qround Qpower String Ascii List.
From Stdlib Require Import Lia Lqa SpecFloat.
From stdpp Require Import base gmap list strings sorting.

Local Open Scope Z_scope.

(** ** JavaScript primitives used by the class *)

Module JS.

(** The double nearest to an integer: the integer itself below [2 ^ 53]. *)
Definition number (z : Z) : spec_float := binary_normalize 53 1024 z 0 false.

(** [a / b], [a * b] and [a <= b] on doubles. *)
Definition div (a b : spec_float) : spec_float := SFdiv 53 1024 a b.
Definition mul (a b : spec_float) : spec_float := SFmul 53 1024 a b.
Definition leb (a b : spec_float) : bool := SFleb a b.

(** The exact value of a finite double. *)
Definition value (x : spec_float) : Q :=
  match x with
  | S754_finite s m e =>
      ((if s then -1 else 1) * inject_Z (Zpos m) * 2 ^ e)%Q
  | _ => 0%Q
  end.

(** [Math.floor], [Math.ceil] and [Math.round] (half-way cases go up),
    through the rounding [k] of the exact value: an infinity, a NaN, a zero
    and a double without fractional bits are returned as they are, and a
    result of zero keeps the sign of the argument. *)
Definition integral (k : Q -> Z) (x : spec_float) : spec_float :=
  match x with
  | S754_finite s m e =>
      if 0 <=? e then x
      else
        let n := k (value x) in
        if n =? 0 then S754_zero s else number n
  | _ => x
  end.
Definition floor : spec_float -> spec_float := integral Qfloor.
Definition ceil : spec_float -> spec_float := integral Qceiling.
Definition round : spec_float -> spec_float :=
  integral (fun q => Qfloor (q + (1 # 2))%Q).

(** Truthiness of a string and of a number. *)
Definition truthy_string (s : string) : bool :=
  match s with EmptyString => false | String _ _ => true end.
Definition truthy_number (n : Z) : bool := negb (n =? 0).

(** [o || d] for an optional string and for an optional number. *)
Definition or_string (o : option string) (d : string) : string :=
  match o with
  | Some s => if truthy_string s then s else d
  | None => d
  end.
Definition or_number (o : option Z) (d : Z) : Z :=
  match o with
  | Some n => if truthy_number n then n else d
  | None => d
  end.

(** The double-quote character, and [replaceAll] of it by the empty
    string. *)
Definition dquote : ascii := ascii_of_nat 34.
Fixpoint replaceAll_dquote (s : string) : string :=
  match s with
  | EmptyString => EmptyString
  | String c r =>
      if Ascii.eqb c dquote then replaceAll_dquote r
      else String c (replaceAll_dquote r)
  end.

(** An array index: an integer from 0 to [2 ^ 32 - 2]. *)
Definition is_index (k : Z) : bool := (0 <=? k) && (k <? 4294967295).

(** [Object.keys(o)]: the keys that are array indices in ascending order,
    then the other keys in the order in which they were created, which
    [created] lists. *)
Definition keys {A} (o : gmap Z A) (created : list Z) : list Z :=
  merge_sort Z.le
    (filter (fun k => is_index k = true) (map fst (map_to_list o)))
  ++ created.

End JS.

(** ** Data model *)

(** [MultiPartUploadPart]: one entry of the [urls] array of the upload
    metadata. *)
Record MultiPartUploadPart := {
  part_number : Z;
  signed_url : string;
}.

(** An element of [uploadedParts]. *)
Record UploadedPart := {
  e_tag : string;
  uploaded_part_number : Z;
}.

(** The second response of the preflight call: either the multi-part shape
    ([urls] and [upload_id]) or the single-part shape ([url], [headers]). *)
Inductive UploadMetadata :=
| MultiPartMetadata (urls : list MultiPartUploadPart) (upload_id : string)
| SinglePartMetadata (url : string) (headers : list (string * string)).

(** The errors created by the class; [RemoteCallFailed] stands for whatever
    [session.call] rejects with. *)
Inductive UploadError :=
| SystemIsOffline
| UploadChunkError
| UploadChunkTimeout
| UploadCanceled
| FailedChunkUpload
| UploadAbortedByClient
| FailedToUploadFile (status : Z)
| RemoteCallFailed.

(** [error.errorCode]; only the abort error carries one. *)
Definition errorCode (e : UploadError) : option string :=
  match e with
  | UploadAbortedByClient => Some "UPLOAD_ABORTED"%string
  | _ => None
  end.

(** The operations handed to [session.call]. *)
Inductive Operation :=
| CreateFileComponent (id name file_type : string) (size : Z)
| GetUploadMetadata (file_name : string) (file_size : Z)
    (component_id : string) (parts : option spec_float)
| CompleteMultipartUpload (upload_id : string) (parts : list (string * Z))
    (component_id : string)
| CreateComponentLocation (id component_id resource_identifier
    location_id : string).

(** The messages the class logs at warning or error level. *)
Inductive LogMessage :=
| XhrOptionDeprecated
| PartBackingOff (part_number : Z) (milliseconds : Z)
| PartGivingUp (part_number : Z).

(** What the uploader does to the outside world, in the order it does it. *)
Inductive Effect :=
| LoggerWarn (m : LogMessage)
| LoggerError (m : LogMessage)
| SessionCall (operations : list Operation)
| SessionDelete (entity_type : string) (key : string)
| Publish (component_id location_id : string)
| OnProgress (percentage : spec_float)
| OnAborted
| OnError (e : UploadError)
| OnComplete (component_id : string)
| XhrOpen (conn : nat) (url : string)
| XhrSend (conn : nat) (slice_start slice_end : Z)
| XhrAbort (conn : nat)
| SingleOpen (url : string)
| SingleSetHeader (key value : string)
| SingleSend
| SingleAbort
| SetTimeout (milliseconds : Z).

(** The four event types the progress listener tells apart, and the one it
    is registered for without naming it. *)
Inductive EventType :=
  type_progress | type_error | type_abort | type_uploaded | type_loadend.

(** ** Sorting of the uploaded parts

    [uploadedParts.sort((a, b) => a.part_number - b.part_number)]: a stable
    sort by part number. *)

Fixpoint insert_part (x : UploadedPart) (l : list UploadedPart) :=
  match l with
  | [] => [x]
  | y :: r =>
      if uploaded_part_number x <=? uploaded_part_number y
      then x :: l
      else y :: insert_part x r
  end.

Definition sort_parts (l : list UploadedPart) : list UploadedPart :=
  foldr insert_part [] l.

(** ** The state of an upload

    The fields of the class, followed by the part of the platform the class
    talks to: its requests, the pending promise reactions, the timers, the
    remote calls in flight, and the connectivity flag. *)

(** An [XMLHttpRequest] made by [uploadFileChunk], with the promise that
    [uploadFileChunk] returned for it. *)
Record Conn := {
  c_part : MultiPartUploadPart;
  c_retry : Z;        (* [retry] of the [uploadNextChunk] call that made it *)
  c_settled : bool;   (* the promise has been resolved or rejected *)
  c_done : bool;      (* the request is over: it sends no further event *)
  c_listening : bool; (* its [abortXHR] listens to the window offline event *)
}.

(** The request of a single-part upload and the promise of [uploadFile]. *)
Record SingleXhr := {
  sx_sent : bool;
  sx_done : bool;
  sx_settled : bool;
}.

(** A promise reaction waiting in the microtask queue. The chain
    [uploadFileChunk(..).then(..).catch(..)] inside [uploadChunk], followed by
    [.then(..).catch(..)] in [uploadNextChunk], is one reaction here: the
    hops in between run nothing of the class. A chunk reaction holds what
    the handlers of [uploadNextChunk] have captured: [part] and [retry]. *)
Inductive Reaction :=
| ChunkFulfilled (part : MultiPartUploadPart) (retry : Z) (status : Z)
| ChunkRejected (part : MultiPartUploadPart) (retry : Z) (e : UploadError)
| FileFulfilled
| FileRejected (e : UploadError).

(** A timer armed by [wait(2 ** retry * 100)] and what its callback holds. *)
Record Timer := {
  t_part : MultiPartUploadPart;
  t_retry : Z;
  t_delay : Z;
  t_armed : bool;
}.

(** What awaits the answer of a remote call. *)
Inductive Continuation :=
| AfterPreflight                       (* [start], after [uploadPreflight] *)
| AfterComplete (caught : bool)        (* [completeUpload]; [caught] when
                                          called from [singlePartUpload] *)
| AfterCleanupFatal (e : UploadError)  (* [cleanup().then(handleError,
                                          handleError)] *)
| AfterCleanupAbort                    (* [onabort] of the single request *)
| AfterCleanupError.                   (* [onerror] of the single request *)

Record RemoteCall := {
  r_then : Continuation;
  r_pending : bool;
}.

(** The fields the constructor assigns and nothing changes afterwards. The
    four callbacks are opaque: only their presence matters. *)
Record Plan := {
  onProgress : bool;
  onAborted : bool;
  onError : bool;
  onComplete : bool;
  fileType : string;
  fileName : string;
  fileSize : Z;
  numParts : option spec_float;
  chunkSize : Z;
  maxConcurrentConnections : Z;
}.

(** What the class imports from modules outside [uploader.ts]: the chunk
    size policy, the two string helpers of the constructor, the identifier
    generator (its successive results) and the id of the server location. *)
Record Imports := {
  getChunkSize : Z -> Z;
  normalizeString : string -> string;
  splitFileExtension : string -> string * string;
  uuidV4 : nat -> string;
  SERVER_LOCATION_ID : string;
}.

Record Uploader := {
  componentId : string;
    (* [this.componentId] *)
  imports : Imports;
    (* the imported modules *)
  plan : Plan;
    (* the fields assigned once, by the constructor *)
  xhr : option SingleXhr;
    (* [this.xhr], the connection of a single-part upload *)
  activeConnections : gmap Z nat;
    (* key [part_number - 1], value: index into [conns] *)
  keyOrder : list Z;
    (* the keys of [activeConnections] that are not array indices, in the
       order of their creation *)
  parts : list MultiPartUploadPart;
    (* the backlog as a stack: last array element first *)
  uploadedParts : list UploadedPart;
    (* completed parts, in array order *)
  uploadId : string;
    (* [this.uploadId] *)
  uploadedSize : Z;
    (* [this.uploadedSize] *)
  progressCache : gmap Z Z;
    (* [this.progressCache] *)
  conns : list Conn;
    (* the requests made by [uploadFileChunk], oldest first *)
  reactions : list Reaction;
    (* promise reactions not yet run, oldest first *)
  timers : list Timer;
    (* the timers armed by [wait] *)
  calls : list RemoteCall;
    (* the remote calls issued, with what awaits them *)
  online : bool;
    (* [window.navigator.onLine] *)
  uuids : nat;
    (* how many times [uuidV4] has been called *)
  peak : nat;
    (* ghost: the largest size [activeConnections] has had *)
  log : list Effect;
    (* the effects so far, oldest first *)
}.

(** Assignment to one field. *)
Definition set_xhr (v : option SingleXhr) (s : Uploader) : Uploader :=
  Build_Uploader (componentId s) (imports s) (plan s) v (activeConnections s)
    (keyOrder s) (parts s) (uploadedParts s) (uploadId s) (uploadedSize s)
    (progressCache s) (conns s) (reactions s) (timers s) (calls s) (online s)
    (uuids s) (peak s) (log s).
Definition set_activeConnections (v : gmap Z nat) (s : Uploader) : Uploader :=
  Build_Uploader (componentId s) (imports s) (plan s) (xhr s) v (keyOrder s)
    (parts s) (uploadedParts s) (uploadId s) (uploadedSize s)
    (progressCache s) (conns s) (reactions s) (timers s) (calls s) (online s)
    (uuids s) (peak s) (log s).
Definition set_keyOrder (v : list Z) (s : Uploader) : Uploader :=
  Build_Uploader (componentId s) (imports s) (plan s) (xhr s)
    (activeConnections s) v (parts s) (uploadedParts s) (uploadId s)
    (uploadedSize s) (progressCache s) (conns s) (reactions s) (timers s)
    (calls s) (online s) (uuids s) (peak s) (log s).
Definition set_parts (v : list MultiPartUploadPart) (s : Uploader)
    : Uploader :=
  Build_Uploader (componentId s) (imports s) (plan s) (xhr s)
    (activeConnections s) (keyOrder s) v (uploadedParts s) (uploadId s)
    (uploadedSize s) (progressCache s) (conns s) (reactions s) (timers s)
    (calls s) (online s) (uuids s) (peak s) (log s).
Definition set_uploadedParts (v : list UploadedPart) (s : Uploader)
    : Uploader :=
  Build_Uploader (componentId s) (imports s) (plan s) (xhr s)
    (activeConnections s) (keyOrder s) (parts s) v (uploadId s)
    (uploadedSize s) (progressCache s) (conns s) (reactions s) (timers s)
    (calls s) (online s) (uuids s) (peak s) (log s).
Definition set_uploadId (v : string) (s : Uploader) : Uploader :=
  Build_Uploader (componentId s) (imports s) (plan s) (xhr s)
    (activeConnections s) (keyOrder s) (parts s) (uploadedParts s) v
    (uploadedSize s) (progressCache s) (conns s) (reactions s) (timers s)
    (calls s) (online s) (uuids s) (peak s) (log s).
Definition set_uploadedSize (v : Z) (s : Uploader) : Uploader :=
  Build_Uploader (componentId s) (imports s) (plan s) (xhr s)
    (activeConnections s) (keyOrder s) (parts s) (uploadedParts s)
    (uploadId s) v (progressCache s) (conns s) (reactions s) (timers s)
    (calls s) (online s) (uuids s) (peak s) (log s).
Definition set_progressCache (v : gmap Z Z) (s : Uploader) : Uploader :=
  Build_Uploader (componentId s) (imports s) (plan s) (xhr s)
    (activeConnections s) (keyOrder s) (parts s) (uploadedParts s)
    (uploadId s) (uploadedSize s) v (conns s) (reactions s) (timers s)
    (calls s) (online s) (uuids s) (peak s) (log s).
Definition set_conns (v : list Conn) (s : Uploader) : Uploader :=
  Build_Uploader (componentId s) (imports s) (plan s) (xhr s)
    (activeConnections s) (keyOrder s) (parts s) (uploadedParts s)
    (uploadId s) (uploadedSize s) (progressCache s) v (reactions s) (timers s)
    (calls s) (online s) (uuids s) (peak s) (log s).
Definition set_reactions (v : list Reaction) (s : Uploader) : Uploader :=
  Build_Uploader (componentId s) (imports s) (plan s) (xhr s)
    (activeConnections s) (keyOrder s) (parts s) (uploadedParts s)
    (uploadId s) (uploadedSize s) (progressCache s) (conns s) v (timers s)
    (calls s) (online s) (uuids s) (peak s) (log s).
Definition set_timers (v : list Timer) (s : Uploader) : Uploader :=
  Build_Uploader (componentId s) (imports s) (plan s) (xhr s)
    (activeConnections s) (keyOrder s) (parts s) (uploadedParts s)
    (uploadId s) (uploadedSize s) (progressCache s) (conns s) (reactions s) v
    (calls s) (online s) (uuids s) (peak s) (log s).
Definition set_calls (v : list RemoteCall) (s : Uploader) : Uploader :=
  Build_Uploader (componentId s) (imports s) (plan s) (xhr s)
    (activeConnections s) (keyOrder s) (parts s) (uploadedParts s)
    (uploadId s) (uploadedSize s) (progressCache s) (conns s) (reactions s)
    (timers s) v (online s) (uuids s) (peak s) (log s).
Definition set_online (v : bool) (s : Uploader) : Uploader :=
  Build_Uploader (componentId s) (imports s) (plan s) (xhr s)
    (activeConnections s) (keyOrder s) (parts s) (uploadedParts s)
    (uploadId s) (uploadedSize s) (progressCache s) (conns s) (reactions s)
    (timers s) (calls s) v (uuids s) (peak s) (log s).
Definition set_uuids (v : nat) (s : Uploader) : Uploader :=
  Build_Uploader (componentId s) (imports s) (plan s) (xhr s)
    (activeConnections s) (keyOrder s) (parts s) (uploadedParts s)
    (uploadId s) (uploadedSize s) (progressCache s) (conns s) (reactions s)
    (timers s) (calls s) (online s) v (peak s) (log s).
Definition set_peak (v : nat) (s : Uploader) : Uploader :=
  Build_Uploader (componentId s) (imports s) (plan s) (xhr s)
    (activeConnections s) (keyOrder s) (parts s) (uploadedParts s)
    (uploadId s) (uploadedSize s) (progressCache s) (conns s) (reactions s)
    (timers s) (calls s) (online s) (uuids s) v (log s).
Definition set_log (v : list Effect) (s : Uploader) : Uploader :=
  Build_Uploader (componentId s) (imports s) (plan s) (xhr s)
    (activeConnections s) (keyOrder s) (parts s) (uploadedParts s)
    (uploadId s) (uploadedSize s) (progressCache s) (conns s) (reactions s)
    (timers s) (calls s) (online s) (uuids s) (peak s) v.

(** What the caller passes in: the [Blob] (a [File] has a name) and the
    options. [data] keeps the four properties the class reads. *)
Record Blob := {
  blob_name : option string;
  blob_size : Z;
}.

Record Data := {
  data_id : option string;
  data_name : option string;
  data_file_type : option string;
  data_size : option Z;
}.

Record UploaderOptions := {
  opt_name : option string;
  opt_data : option Data;
  opt_xhr : bool;
  opt_onProgress : bool;
  opt_onAborted : bool;
  opt_onError : bool;
  opt_onComplete : bool;
}.

(** The transfer strategy a plan asks the server for: [numParts] is [null]
    for a single-part upload. *)
Inductive Strategy := Single | Multipart.

Definition strategy (p : Plan) : Strategy :=
  match numParts p with None => Single | Some _ => Multipart end.

(** ** Small state transformers *)

Definition emit (e : Effect) (s : Uploader) : Uploader :=
  set_log (log s ++ [e]) s.

(** [if (this.cb) { this.cb(..) }]. *)
Definition notify (cb : bool) (e : Effect) (s : Uploader) : Uploader :=
  if cb then emit e s else s.

Definition enqueue (r : Reaction) (s : Uploader) : Uploader :=
  set_reactions (reactions s ++ [r]) s.

Definition add_call (k : Continuation) (s : Uploader) : Uploader :=
  set_calls (calls s ++ [{| r_then := k; r_pending := true |}]) s.

Definition upd_conn (cid : nat) (f : Conn -> Conn) (s : Uploader) : Uploader :=
  set_conns (alter f cid (conns s)) s.

Definition settled (c : Conn) : Conn :=
  {| c_part := c_part c; c_retry := c_retry c; c_settled := true;
     c_done := c_done c; c_listening := c_listening c |}.
Definition finished (c : Conn) : Conn :=
  {| c_part := c_part c; c_retry := c_retry c; c_settled := c_settled c;
     c_done := true; c_listening := c_listening c |}.
Definition listening (b : bool) (c : Conn) : Conn :=
  {| c_part := c_part c; c_retry := c_retry c; c_settled := c_settled c;
     c_done := c_done c; c_listening := b |}.

(** [resolve(status)] and [reject(error)] of the promise made by
    [uploadFileChunk]: only the first settlement counts, and it queues the
    reaction attached by [uploadChunk]. *)
Definition resolve (cid : nat) (status : Z) (s : Uploader) : Uploader :=
  match conns s !! cid with
  | Some c =>
      if c_settled c then s
      else
        enqueue (ChunkFulfilled (c_part c) (c_retry c) status)
          (upd_conn cid settled s)
  | None => s
  end.

Definition reject (cid : nat) (e : UploadError) (s : Uploader) : Uploader :=
  match conns s !! cid with
  | Some c =>
      if c_settled c then s
      else
        enqueue (ChunkRejected (c_part c) (c_retry c) e)
          (upd_conn cid settled s)
  | None => s
  end.

(** [this.activeConnections[key] = xhr], and [delete]. A key that is not an
    array index is created behind the keys there are, unless the object has
    it already; deleting it gives up its place. *)
Definition register (key : Z) (cid : nat) (s : Uploader) : Uploader :=
  let created :=
    if JS.is_index key then keyOrder s
    else
      match activeConnections s !! key with
      | Some _ => keyOrder s
      | None => keyOrder s ++ [key]
      end in
  let m := <[key := cid]> (activeConnections s) in
  set_peak (Nat.max (peak s) (size m))
    (set_keyOrder created (set_activeConnections m s)).

Definition unregister (key : Z) (s : Uploader) : Uploader :=
  set_keyOrder (filter (fun k => k <> key) (keyOrder s))
    (set_activeConnections (delete key (activeConnections s)) s).

(** ** Progress aggregator *)

(** The sum of the cached byte counts. *)
Definition inProgress (cache : gmap Z Z) : Z :=
  map_fold (fun _ loaded memo => memo + loaded) 0 cache.

Definition percentage (committed : Z) (cache : gmap Z Z) (total : Z)
    : spec_float :=
  let sent := Z.min (committed + inProgress cache) total in
  JS.round (JS.mul (JS.div (JS.number sent) (JS.number total)) (JS.number 100)).

Definition handleChunkProgress (partNumber : Z) (type : EventType)
    (loaded : Z) (s : Uploader) : Uploader :=
  let cache :=
    match type with
    | type_progress | type_error | type_abort =>
        <[partNumber := loaded]> (progressCache s)
    | _ => progressCache s
    end in
  let committed :=
    match type with
    | type_uploaded => uploadedSize s + default 0 (cache !! partNumber)
    | _ => uploadedSize s
    end in
  let cache :=
    match type with
    | type_uploaded => delete partNumber cache
    | _ => cache
    end in
  let s := set_progressCache cache (set_uploadedSize committed s) in
  notify (onProgress (plan s))
    (OnProgress (percentage committed cache (fileSize (plan s)))) s.

Definition handleSinglePartProgress (lengthComputable : bool)
    (loaded total : Z) (s : Uploader) : Uploader :=
  let progress :=
    if lengthComputable
    then
      JS.floor
        (JS.mul (JS.div (JS.number loaded) (JS.number total)) (JS.number 100))
    else JS.number 0 in
  notify (onProgress (plan s)) (OnProgress progress) s.

(** ** The pipeline *)

(** *** Completion and cleanup coordinator *)

(** [cleanup()]: the delete is issued at once; [k] waits for its answer. *)
Definition cleanup (k : Continuation) (s : Uploader) : Uploader :=
  add_call k (emit (SessionDelete "FileComponent" (componentId s)) s).

(** [completeUpload()] up to its [await]: the sort is in place. *)
Definition completeUpload (caught : bool) (s : Uploader) : Uploader :=
  let sorted := sort_parts (uploadedParts s) in
  let commit :=
    match uploadedParts s with
    | [] => []
    | _ :: _ =>
        [CompleteMultipartUpload (uploadId s)
           (map (fun item => (e_tag item, uploaded_part_number item)) sorted)
           (componentId s)]
    end in
  let location :=
    CreateComponentLocation (uuidV4 (imports s) (uuids s)) (componentId s)
      (componentId s) (SERVER_LOCATION_ID (imports s)) in
  let s :=
    match uploadedParts s with
    | [] => s
    | _ :: _ => set_uploadedParts sorted s
    end in
  add_call (AfterComplete caught)
    (emit (SessionCall (commit ++ [location])) (set_uuids (S (uuids s)) s)).

(** [completeUpload()] after the call has answered. *)
Definition completeUpload_resume (hub_connected : bool) (s : Uploader)
    : Uploader :=
  let s :=
    if hub_connected
    then emit (Publish (componentId s) (SERVER_LOCATION_ID (imports s))) s
    else s in
  notify (onComplete (plan s)) (OnComplete (componentId s)) s.

(** *** Per-part executor *)

(** [throwXHRError(error, part, abortFx)]. *)
Definition throwXHRError (e : UploadError) (cid : nat) (abortFx : bool)
    (s : Uploader) : Uploader :=
  match conns s !! cid with
  | Some c =>
      let s := unregister (part_number (c_part c) - 1) s in
      let s := reject cid e s in
      if abortFx then upd_conn cid (listening false) s else s
  | None => s
  end.

(** [xhr.onreadystatechange] at [readyState] 4, with the status and the
    [ETag] response header ([None] when absent). *)
Definition onreadystatechange (cid : nat) (status : Z)
    (eTag : option string) (s : Uploader) : Uploader :=
  match conns s !! cid with
  | Some c =>
      if status =? 200 then
        match eTag with
        | Some t =>
            if JS.truthy_string t then
              let uploadedPart :=
                {| uploaded_part_number := part_number (c_part c);
                   e_tag := JS.replaceAll_dquote t |} in
              let s := set_uploadedParts (uploadedParts s ++ [uploadedPart]) s in
              let s := resolve cid status s in
              let s := unregister (part_number (c_part c) - 1) s in
              upd_conn cid (listening false) s
            else s
        | None => s
        end
      else s
  | None => s
  end.

(** [xhr.abort()] on a request of the registry. A request that is over
    sends nothing; otherwise the abort event reaches the progress listener
    (with [loaded] 0) and then [onabort], and the loadend event reaches the
    progress listener, all before [abort()] returns. *)
Definition xhr_abort (cid : nat) (s : Uploader) : Uploader :=
  let s := emit (XhrAbort cid) s in
  match conns s !! cid with
  | Some c =>
      if c_done c then s
      else
        let key := part_number (c_part c) - 1 in
        let s := upd_conn cid finished s in
        let s := handleChunkProgress key type_abort 0 s in
        let s := throwXHRError UploadCanceled cid false s in
        handleChunkProgress key type_loadend 0 s
  | None => s
  end.

(** [this.xhr.abort()] on the single request: [onabort] calls [onAborted]
    and starts the cleanup. *)
Definition single_abort (s : Uploader) : Uploader :=
  let s := emit SingleAbort s in
  match xhr s with
  | Some x =>
      if sx_sent x && negb (sx_done x) then
        let s :=
          set_xhr (Some {| sx_sent := true; sx_done := true;
                           sx_settled := sx_settled x |}) s in
        let s := notify (onAborted (plan s)) OnAborted s in
        cleanup AfterCleanupAbort s
      else s
  | None => s
  end.

(** [abort()]. The keys are read once; each request is then looked up
    again (the lookup cannot fail, see [abort_lookup_total]). *)
Definition abort_connection (s : Uploader) (id : Z) : Uploader :=
  match activeConnections s !! id with
  | Some cid => xhr_abort cid s
  | None => s
  end.

Definition abort (s : Uploader) : Uploader :=
  let s := match xhr s with Some _ => single_abort s | None => s end in
  foldl abort_connection s (JS.keys (activeConnections s) (keyOrder s)).

(** *** Part scheduler *)

(** [uploadNextChunk(retry)], by recursion on the backlog it pops from. The
    promise executors of [uploadChunk] and [uploadFileChunk] run inside the
    call: the offline check, the registration and [onUploadChunkStart],
    which re-enters the scheduler before the request is opened and sent. A
    promise rejected by the offline check gets its reaction queued when
    the handlers are attached, after the executor has returned. *)
Fixpoint uploadNextChunk_on (backlog : list MultiPartUploadPart)
    (retry : Z) (s : Uploader) : Uploader :=
  let active := Z.of_nat (size (activeConnections s)) in
  if maxConcurrentConnections (plan s) <=? active then s
  else
    match backlog with
    | [] => if active =? 0 then completeUpload false s else s
    | part :: rest =>
        let s := set_parts rest s in
        let sentSize := (part_number part - 1) * chunkSize (plan s) in
        let sliceEnd := sentSize + chunkSize (plan s) in
        let cid := length (conns s) in
        let offline := negb (online s) in
        let s :=
          set_conns
            (conns s ++ [{| c_part := part; c_retry := retry;
                            c_settled := offline; c_done := false;
                            c_listening := false |}]) s in
        let s := register (part_number part - 1) cid s in
        let s := uploadNextChunk_on rest 0 s in
        let s := emit (XhrOpen cid (signed_url part)) s in
        let s := upd_conn cid (listening true) s in
        let s := emit (XhrSend cid sentSize sliceEnd) s in
        if offline then enqueue (ChunkRejected part retry SystemIsOffline) s
        else s
    end.

Definition uploadNextChunk (retry : Z) (s : Uploader) : Uploader :=
  uploadNextChunk_on (parts s) retry s.

(** *** Retry governor *)

(** The [catch] handler of [uploadNextChunk]. *)
Definition onChunkFailure (part : MultiPartUploadPart) (retry : Z)
    (e : UploadError) (s : Uploader) : Uploader :=
  if retry <=? 6 then
    let retry := retry + 1 in
    let delay := 2 ^ retry * 100 in
    let s := emit (LoggerWarn (PartBackingOff (part_number part) delay)) s in
    let s := emit (SetTimeout delay) s in
    set_timers
      (timers s ++ [{| t_part := part; t_retry := retry; t_delay := delay;
                       t_armed := true |}]) s
  else
    let s := emit (LoggerError (PartGivingUp (part_number part))) s in
    let s := abort s in
    cleanup (AfterCleanupFatal e) s.

(** The callback of [wait(..).then]. *)
Definition onTimer (tid : nat) (s : Uploader) : Uploader :=
  match timers s !! tid with
  | Some t =>
      if t_armed t then
        let s :=
          set_timers
            (<[tid := {| t_part := t_part t; t_retry := t_retry t;
                         t_delay := t_delay t; t_armed := false |}]>
               (timers s)) s in
        let s := set_parts (t_part t :: parts s) s in
        uploadNextChunk (t_retry t) s
      else s
  | None => s
  end.

(** *** Single-transfer executor *)

Definition single_settle (r : Reaction) (s : Uploader) : Uploader :=
  match xhr s with
  | Some x =>
      if sx_settled x then s
      else
        enqueue r
          (set_xhr (Some {| sx_sent := sx_sent x; sx_done := sx_done x;
                            sx_settled := true |}) s)
  | None => s
  end.

(** The body of the promise of [uploadFile]: the request is the one the
    caller supplied, or a new one; every header but the content length is
    copied. *)
Definition uploadFile (url : string) (headers : list (string * string))
    (s : Uploader) : Uploader :=
  let s :=
    set_xhr (Some {| sx_sent := true; sx_done := false;
                     sx_settled := false |}) s in
  let s := emit (SingleOpen url) s in
  let s :=
    foldl
      (fun s kv =>
         if decide (kv.1 = "Content-Length"%string) then s
         else emit (SingleSetHeader kv.1 kv.2) s)
      s headers in
  emit SingleSend s.

Definition singlePartUpload (url : string) (headers : list (string * string))
    (s : Uploader) : Uploader :=
  uploadFile url headers s.

(** [xhr.onload] of the single request. *)
Definition single_onload (status : Z) (s : Uploader) : Uploader :=
  let s :=
    if 400 <=? status
    then single_settle (FileRejected (FailedToUploadFile status)) s
    else s in
  single_settle FileFulfilled s.

(** *** Preflight coordinator *)

Definition uploadPreflight (s : Uploader) : Uploader :=
  let p := plan s in
  add_call AfterPreflight
    (emit
       (SessionCall
          [CreateFileComponent (componentId s) (fileName p) (fileType p)
             (fileSize p);
           GetUploadMetadata (fileName p ++ fileType p) (fileSize p)
             (componentId s) (numParts p)])
       s).

(** [start()] after [uploadPreflight] has answered. Without metadata
    [start] throws, which only its caller sees. *)
Definition start_resume (uploadMetadata : option UploadMetadata)
    (s : Uploader) : Uploader :=
  match uploadMetadata with
  | None => s
  | Some (MultiPartMetadata urls upload_id) =>
      uploadNextChunk 0 (set_uploadId upload_id (set_parts (rev urls) s))
  | Some (SinglePartMetadata url headers) => singlePartUpload url headers s
  end.

(** *** The event loop *)

(** One callback run by the platform, or one call made by the owner of the
    uploader. *)
Inductive Event :=
| Tick                         (* the oldest promise reaction runs *)
| Start                        (* [start()] *)
| Abort                        (* [abort()], or the abort signal fires *)
| PreflightResponse (call : nat) (uploadMetadata : option UploadMetadata)
| CompleteResponse (call : nat) (hub_connected : bool)
| DeleteResponse (call : nat)
| CallFailed (call : nat)
| UploadProgress (conn : nat) (loaded : Z)
| ReadyStateDone (conn : nat) (status : Z) (eTag : option string)
| NetworkError (conn : nat) (loaded : Z)
    (* the error event with its [loaded], which browsers set to 0 *)
| RequestTimedOut (conn : nat)
| LoadEnd (conn : nat)
| WindowOffline (conn : nat)   (* the offline event reaches [abortXHR] *)
| Connectivity (up : bool)
| TimerFired (timer : nat)
| SingleProgress (lengthComputable : bool) (loaded total : Z)
| SingleLoad (status : Z)
| SingleNetworkError.

(** The reaction at the head of the microtask queue. *)
Definition tick (s : Uploader) : Uploader :=
  match reactions s with
  | [] => s
  | r :: queue =>
      let s := set_reactions queue s in
      match r with
      | ChunkFulfilled part retry status =>
          if status =? 200 then uploadNextChunk 0 s
          else enqueue (ChunkRejected part retry FailedChunkUpload) s
      | ChunkRejected part retry e => onChunkFailure part retry e s
      | FileFulfilled => completeUpload true s
      | FileRejected e => notify (onError (plan s)) (OnError e) s
      end
  end.

(** A request can still send events. *)
Definition live (cid : nat) (s : Uploader) : option Conn :=
  match conns s !! cid with
  | Some c => if c_done c then None else Some c
  | None => None
  end.

Definition single_live (s : Uploader) : bool :=
  match xhr s with
  | Some x => sx_sent x && negb (sx_done x)
  | None => false
  end.

Definition single_finish (s : Uploader) : Uploader :=
  match xhr s with
  | Some x =>
      set_xhr (Some {| sx_sent := sx_sent x; sx_done := true;
                       sx_settled := sx_settled x |}) s
  | None => s
  end.

(** The answer to the remote call number [i], if it is awaited. *)
Definition answer (i : nat) (s : Uploader) : option (Continuation * Uploader) :=
  match calls s !! i with
  | Some r =>
      if r_pending r then
        Some (r_then r,
              set_calls
                (<[i := {| r_then := r_then r; r_pending := false |}]>
                   (calls s)) s)
      else None
  | None => None
  end.

(** A task: it starts only once the microtask queue is empty. *)
Definition task (ev : Event) (s : Uploader) : Uploader :=
  match ev with
  | Tick => s
  | Start => uploadPreflight s
  | Abort => abort s
  | PreflightResponse i uploadMetadata =>
      match answer i s with
      | Some (AfterPreflight, s) => start_resume uploadMetadata s
      | _ => s
      end
  | CompleteResponse i hub_connected =>
      match answer i s with
      | Some (AfterComplete _, s) => completeUpload_resume hub_connected s
      | _ => s
      end
  | DeleteResponse i =>
      match answer i s with
      | Some (AfterCleanupFatal e, s) =>
          notify (onError (plan s)) (OnError e) s
      | Some (AfterCleanupAbort, s) =>
          single_settle (FileRejected UploadAbortedByClient) s
      | Some (AfterCleanupError, s) =>
          single_settle (FileRejected (FailedToUploadFile 0)) s
      | _ => s
      end
  | CallFailed i =>
      match answer i s with
      | Some (AfterComplete true, s) =>
          notify (onError (plan s)) (OnError RemoteCallFailed) s
      | Some (AfterCleanupFatal e, s) =>
          notify (onError (plan s)) (OnError e) s
      | Some (_, s) => s
      | None => s
      end
  | UploadProgress cid loaded =>
      match live cid s with
      | Some c =>
          handleChunkProgress (part_number (c_part c) - 1) type_progress
            loaded s
      | None => s
      end
  | ReadyStateDone cid status eTag =>
      match live cid s with
      | Some c => onreadystatechange cid status eTag (upd_conn cid finished s)
      | None => s
      end
  | NetworkError cid loaded =>
      match live cid s with
      | Some c =>
          let s := upd_conn cid finished s in
          let s :=
            handleChunkProgress (part_number (c_part c) - 1) type_error
              loaded s in
          throwXHRError UploadChunkError cid true s
      | None => s
      end
  | RequestTimedOut cid =>
      match live cid s with
      | Some c =>
          throwXHRError UploadChunkTimeout cid true (upd_conn cid finished s)
      | None => s
      end
  | LoadEnd cid =>
      match conns s !! cid with
      | Some c =>
          if c_done c then
            handleChunkProgress (part_number (c_part c) - 1) type_loadend 0 s
          else s
      | None => s
      end
  | WindowOffline cid =>
      match conns s !! cid with
      | Some c => if c_listening c then xhr_abort cid s else s
      | None => s
      end
  | Connectivity up => set_online up s
  | TimerFired tid => onTimer tid s
  | SingleProgress lengthComputable loaded total =>
      if single_live s
      then handleSinglePartProgress lengthComputable loaded total s
      else s
  | SingleLoad status =>
      if single_live s then single_onload status (single_finish s) else s
  | SingleNetworkError =>
      if single_live s then cleanup AfterCleanupError (single_finish s)
      else s
  end.

Definition step (s : Uploader) (ev : Event) : Uploader :=
  match ev with
  | Tick => tick s
  | _ => match reactions s with [] => task ev s | _ :: _ => s end
  end.

Definition run (s : Uploader) (evs : list Event) : Uploader :=
  foldl step s evs.

(** *** Strategy selector *)

Definition no_data : Data :=
  {| data_id := None; data_name := None; data_file_type := None;
     data_size := None |}.

(** The constructor; [None] when it throws [CreateComponentError]. The
    uploader is born with connectivity up; a [Connectivity] event changes
    that, before [start()] or after. *)
Definition Uploader_constructor (m : Imports) (file : Blob)
    (options : UploaderOptions) : option Uploader :=
  let componentName :=
    match opt_name options with Some n => Some n | None => blob_name file end in
  let normalizedFileName :=
    match componentName with
    | Some n =>
        if JS.truthy_string n then Some (normalizeString m n) else None
    | None => None
    end in
  match normalizedFileName with
  | None => None
  | Some normalized =>
      if negb (JS.truthy_string normalized) then None
      else
        let fileNameParts := splitFileExtension m normalized in
        let data := default no_data (opt_data options) in
        let fileType := JS.or_string (data_file_type data) fileNameParts.2 in
        let fileName := JS.or_string (data_name data) fileNameParts.1 in
        let fileSize := JS.or_number (data_size data) (blob_size file) in
        let fresh :=
          match data_id data with
          | Some i => negb (JS.truthy_string i)
          | None => true
          end in
        let componentId := JS.or_string (data_id data) (uuidV4 m 0) in
        let chunkSize := getChunkSize m fileSize in
        let numParts :=
          JS.ceil (JS.div (JS.number fileSize) (JS.number chunkSize)) in
        let numParts :=
          if JS.leb numParts (JS.number 2) then None else Some numParts in
        let numParts := if opt_xhr options then None else numParts in
        Some
          {| componentId := componentId;
           imports := m;
             plan :=
               {| onProgress := opt_onProgress options;
                  onAborted := opt_onAborted options;
                  onError := opt_onError options;
                  onComplete := opt_onComplete options;
                  fileType := fileType;
                  fileName := fileName;
                  fileSize := fileSize;
                  numParts := numParts;
                  chunkSize := chunkSize;
                  maxConcurrentConnections := 6 |};
             xhr :=
               if opt_xhr options
               then Some {| sx_sent := false; sx_done := false;
                            sx_settled := false |}
               else None;
             activeConnections := ∅;
             keyOrder := [];
             parts := [];
             uploadedParts := [];
             uploadId := EmptyString;
             uploadedSize := 0;
             progressCache := ∅;
             conns := [];
             reactions := [];
             timers := [];
             calls := [];
             online := true;
             uuids := if fresh then 1%nat else 0%nat;
             peak := 0%nat;
             log :=
               if opt_xhr options then [LoggerWarn XhrOptionDeprecated]
               else [] |}
  end.

#[global] Instance spec_float_eq_dec : EqDecision spec_float.
Proof. solve_decision. Defined.
#[global] Instance UploadError_eq_dec : EqDecision UploadError.
Proof. solve_decision. Defined.
#[global] Instance LogMessage_eq_dec : EqDecision LogMessage.
Proof. solve_decision. Defined.
#[global] Instance Operation_eq_dec : EqDecision Operation.
Proof. solve_decision. Defined.
#[global] Instance Effect_eq_dec : EqDecision Effect.
Proof. solve_decision. Defined.

(** * Specification

    The predicates in which the properties of the pipeline are stated. *)

(** ** The concurrency ceiling *)

(** The ceiling of the plan is [ceiling]; the registry, and the largest size
    it has had, are within it. *)
Definition within_ceiling (ceiling : Z) (s : Uploader) : Prop :=
  maxConcurrentConnections (plan s) = ceiling
  /\ Z.of_nat (size (activeConnections s)) <= ceiling
  /\ Z.of_nat (peak s) <= ceiling.

(** ** One destination id *)

(** The operation, and the effect, name no component but [dest]. *)
Definition operation_uses (dest : string) (o : Operation) : Prop :=
  match o with
  | CreateFileComponent id _ _ _ => id = dest
  | GetUploadMetadata _ _ component_id _ => component_id = dest
  | CompleteMultipartUpload _ _ component_id => component_id = dest
  | CreateComponentLocation _ component_id resource_identifier _ =>
      component_id = dest /\ resource_identifier = dest
  end.

Definition effect_uses (dest : string) (e : Effect) : Prop :=
  match e with
  | SessionCall operations => Forall (operation_uses dest) operations
  | SessionDelete _ key => key = dest
  | Publish component_id _ => component_id = dest
  | OnComplete component_id => component_id = dest
  | _ => True
  end.

(** The uploader holds [dest] and has named no other component so far. *)
Definition one_id (dest : string) (s : Uploader) : Prop :=
  componentId s = dest /\ Forall (effect_uses dest) (log s).

(** ** Reading the log *)

(** The percentages passed to [onProgress], oldest first. *)
Definition reports (l : list Effect) : list spec_float :=
  omap (fun e => match e with OnProgress p => Some p | _ => None end) l.

(** The errors passed to [onError], oldest first. *)
Definition errors (l : list Effect) : list UploadError :=
  omap (fun e => match e with OnError x => Some x | _ => None end) l.

(** The keys of the deletes issued, oldest first. *)
Definition deletes (l : list Effect) : list string :=
  omap (fun e => match e with SessionDelete _ key => Some key | _ => None end) l.

(** The manifests of the commit operations issued, oldest first. *)
Definition manifests (l : list Effect) : list (list (string * Z)) :=
  omap
    (fun o =>
       match o with
       | CompleteMultipartUpload _ manifest _ => Some manifest
       | _ => None
       end)
    (mjoin (omap (fun e => match e with SessionCall ops => Some ops | _ => None end) l)).

(** The ids passed to [onComplete], oldest first. *)
Definition completions (l : list Effect) : list string :=
  omap (fun e => match e with OnComplete id => Some id | _ => None end) l.

(** The requests sent, oldest first. *)
Definition sends (l : list Effect) : list nat :=
  omap (fun e => match e with XhrSend conn _ _ => Some conn | _ => None end) l.

(** How often [onAborted] has been called. *)
Definition aborted_calls (l : list Effect) : nat :=
  length (filter (fun e => e = OnAborted) l).

(** The requests [abort()] has been called on, oldest first. *)
Definition aborts (l : list Effect) : list nat :=
  omap (fun e => match e with XhrAbort conn => Some conn | _ => None end) l.

(** ** The registry of active connections *)

(** Every entry of the registry points to a request that exists, under the
    key [part_number - 1] of the part the request carries. *)
Definition registered (s : Uploader) (key : Z) (cid : nat) : Prop :=
  (fun c => part_number (c_part c) - 1) <$> conns s !! cid = Some key.

(** [keyOrder] lists the keys of the registry that are not array indices,
    once each, and nothing else. *)
Definition ordered_keys (s : Uploader) : Prop :=
  NoDup (keyOrder s)
  /\ Forall
       (fun k => JS.is_index k = false /\ is_Some (activeConnections s !! k))
       (keyOrder s)
  /\ map_Forall (fun k _ => JS.is_index k = true \/ k ∈ keyOrder s)
       (activeConnections s).

Definition registry_ok (s : Uploader) : Prop :=
  map_Forall (registered s) (activeConnections s) /\ ordered_keys s.

(** [abort()] has been called on the request, and the request is over. *)
Definition cancelled (cid : nat) (s : Uploader) : Prop :=
  cid ∈ aborts (log s) /\ c_done <$> conns s !! cid = Some true.

(** [s'] has issued no delete, reported no error and started no remote call
    that [s] had not, and holds the same single request. *)
Definition silent (s s' : Uploader) : Prop :=
  deletes (log s') = deletes (log s)
  /\ errors (log s') = errors (log s)
  /\ calls s' = calls s
  /\ xhr s' = xhr s
  /\ componentId s' = componentId s
  /\ plan s' = plan s.

#[global] Instance registered_dec s key cid : Decision (registered s key cid).
Proof. unfold registered. apply _. Defined.

#[global] Instance ordered_keys_dec s : Decision (ordered_keys s).
Proof. unfold ordered_keys. apply _. Defined.
#[global] Instance registry_ok_dec s : Decision (registry_ok s).
Proof. unfold registry_ok. apply _. Defined.

(** ** Where the parts are

    At any moment a part sits in the backlog, travels on a request that is
    not over, waits in a queued failure or behind a retry timer, or is
    recorded in [uploadedParts]. *)

Fixpoint tally {A} (w : A -> bool) (l : list A) : nat :=
  match l with
  | [] => 0
  | x :: r => (if w x then 1 else 0) + tally w r
  end.

Definition holds (k : Z) (p : MultiPartUploadPart) : bool :=
  part_number p =? k.

Definition in_flight (k : Z) (c : Conn) : bool :=
  negb (c_done c) && holds k (c_part c).

Definition in_queue (k : Z) (r : Reaction) : bool :=
  match r with
  | ChunkRejected p _ _ => holds k p
  | ChunkFulfilled p _ status => negb (status =? 200) && holds k p
  | _ => false
  end.

Definition in_backoff (k : Z) (t : Timer) : bool :=
  t_armed t && holds k (t_part t).

Definition recorded (k : Z) (u : UploadedPart) : bool :=
  uploaded_part_number u =? k.

(** The places that hold part number [k], counted. *)
Definition tokens (k : Z) (s : Uploader) : nat :=
  (tally (holds k) (parts s) + tally (in_flight k) (conns s)
   + tally (in_queue k) (reactions s) + tally (in_backoff k) (timers s)
   + tally (recorded k) (uploadedParts s))%nat.

(** Connectivity is up and part number [k] is in at most [n] places. *)
Definition accounted (k : Z) (n : nat) (s : Uploader) : Prop :=
  online s = true /\ (tokens k s <= n)%nat.

(** The events of a session once its parts are known: anything but a loss
    of connectivity and a second answer to the preflight call. *)
Definition calm (ev : Event) : bool :=
  match ev with
  | Connectivity false => false
  | PreflightResponse _ _ => false
  | _ => true
  end.

(** Request [cid] exists and carries [part] with attempt count [retry]. *)
Definition carries (cid : nat) (part : MultiPartUploadPart) (retry : Z)
    (s : Uploader) : Prop :=
  exists c, conns s !! cid = Some c /\ c_part c = part /\ c_retry c = retry.

(** The part is recorded, with this very fingerprint. *)
Definition kept (x : UploadedPart) (s : Uploader) : Prop :=
  x ∈ uploadedParts s.

(** ** Doubles against the rationals

    What the proofs say of a double is said on its exact value, a rational:
    where the value lies on a grid of powers of two, and what it means to
    be rounded to nearest. *)

(** [2 ^ e] as a rational, for any integer [e]. *)
Definition pow2 (e : Z) : Q := (2 ^ e)%Q.

(** [x] lies in the interval of the grid [2 ^ e] that starts at [m], at the
    place [l] says: on its lower end, or inside it, below, on or above its
    middle. *)
Definition locates (m e : Z) (l : location) (x : Q) : Prop :=
  match l with
  | loc_Exact => (x == inject_Z m * pow2 e)%Q
  | loc_Inexact c =>
      (inject_Z m * pow2 e < x /\ x < (inject_Z m + 1) * pow2 e)%Q
      /\ (x ?= (inject_Z m + (1 # 2)) * pow2 e)%Q = c
  end.

(** [v] is [x] rounded to the grid [2 ^ g]: no point of the grid lies
    strictly between them, they are at most half a step apart, and the step
    is at most [x * 2 ^ -52]. *)
Definition nearest (g : Z) (x v : Q) : Prop :=
  (forall k, inject_Z k * pow2 g <= x -> inject_Z k * pow2 g <= v)%Q
  /\ (forall k, x <= inject_Z k * pow2 g -> v <= inject_Z k * pow2 g)%Q
  /\ (v - (1 # 2) * pow2 g <= x /\ x <= v + (1 # 2) * pow2 g)%Q
  /\ (pow2 (g + 52) <= x)%Q.

(** The float is positive and normal, and its value is [x] rounded. *)
Definition rounded (x : Q) (f : spec_float) : Prop :=
  exists m e g,
    f = S754_finite false m e
    /\ Zdigits2 (Zpos m) = 53
    /\ nearest g x (inject_Z (Zpos m) * pow2 e).

(** ** A session to run the pipeline on

    A file of 20971520 bytes under a policy of 5242880-byte chunks, with
    every callback supplied; the server answers the preflight with four
    signed URLs. *)

Definition demo_uuids (n : nat) : string :=
  match n with
  | O => "d1aa2e42-2af2-4f0a-9c27-0d1e1b4d7a10"
  | S O => "d1aa2e42-2af2-4f0a-9c27-0d1e1b4d7a11"
  | _ => "d1aa2e42-2af2-4f0a-9c27-0d1e1b4d7a12"
  end.

Definition demo_imports : Imports :=
  {| getChunkSize := fun _ => 5242880;
     normalizeString := fun name => name;
     splitFileExtension := fun name => (name, ".data"%string);
     uuidV4 := demo_uuids;
     SERVER_LOCATION_ID := "3a372bde-05bc-11e4-8908-20c9d081909b" |}.

Definition demo_file : Blob :=
  {| blob_name := Some "20mb_empty_file"%string; blob_size := 20971520 |}.

Definition demo_options : UploaderOptions :=
  {| opt_name := None; opt_data := None; opt_xhr := false;
     opt_onProgress := true; opt_onAborted := true; opt_onError := true;
     opt_onComplete := true |}.

(** What the constructor returns for them. *)
Definition demo : Uploader :=
  {| componentId := "d1aa2e42-2af2-4f0a-9c27-0d1e1b4d7a10";
     imports := demo_imports;
     plan :=
       {| onProgress := true; onAborted := true; onError := true;
          onComplete := true; fileType := ".data";
          fileName := "20mb_empty_file"; fileSize := 20971520;
          numParts := Some (JS.number 4); chunkSize := 5242880;
          maxConcurrentConnections := 6 |};
     xhr := None;
     activeConnections := ∅;
     keyOrder := [];
     parts := [];
     uploadedParts := [];
     uploadId := EmptyString;
     uploadedSize := 0;
     progressCache := ∅;
     conns := [];
     reactions := [];
     timers := [];
     calls := [];
     online := true;
     uuids := 1;
     peak := 0;
     log := [] |}.

Definition demo_part (n : Z) : MultiPartUploadPart :=
  {| part_number := n; signed_url := "http://ftrack.test/file-url" |}.

Definition demo_urls : list MultiPartUploadPart :=
  [demo_part 1; demo_part 2; demo_part 3; demo_part 4].

(** [start()] and the answer of the preflight call: the four parts are
    dispatched, part 4 on request 0 down to part 1 on request 3. *)
Definition demo_start : list Event :=
  [Start; PreflightResponse 0 (Some (MultiPartMetadata demo_urls "upload-id"))].

(** A quoted fingerprint, as the storage returns it. *)
Definition demo_etag : string :=
  String JS.dquote ("9b2cf535f27731c974343645a3985328" ++ String JS.dquote EmptyString).

(** ** A single-part session

    A file of 1048576 bytes under the same policy: one part, hence a
    single-part plan; the server answers the preflight with one URL. *)

Definition small_file : Blob :=
  {| blob_name := Some "1mb_file"%string; blob_size := 1048576 |}.

Definition small : Uploader :=
  {| componentId := "d1aa2e42-2af2-4f0a-9c27-0d1e1b4d7a10";
     imports := demo_imports;
     plan :=
       {| onProgress := true; onAborted := true; onError := true;
          onComplete := true; fileType := ".data";
          fileName := "1mb_file"; fileSize := 1048576;
          numParts := None; chunkSize := 5242880;
          maxConcurrentConnections := 6 |};
     xhr := None;
     activeConnections := ∅;
     keyOrder := [];
     parts := [];
     uploadedParts := [];
     uploadId := EmptyString;
     uploadedSize := 0;
     progressCache := ∅;
     conns := [];
     reactions := [];
     timers := [];
     calls := [];
     online := true;
     uuids := 1;
     peak := 0;
     log := [] |}.

Definition small_start : list Event :=
  [Start;
   PreflightResponse 0
     (Some
        (SinglePartMetadata "http://ftrack.test/file-url"
           [("Content-Type", "application/octet-stream")%string]))].

(** ** Failures and retries *)

(** A network error on request [conn], the reaction that arms the retry
    timer, the end of the request, and the timer [timer] firing. *)
Definition fail_and_retry (conn timer : nat) : list Event :=
  [NetworkError conn 0; Tick; LoadEnd conn; TimerFired timer].

(** Parts 1 and 2 fail [rounds] times each, turn by turn. Part 1 starts on
    request 3 and part 2 on request 2; the retries of round [r] run on
    requests [2 r + 4] and [2 r + 5], armed by timers [2 r] and [2 r + 1]. *)
Definition two_parts_failing (rounds : nat) : list Event :=
  flat_map
    (fun r =>
       fail_and_retry (match r with O => 3 | _ => 2 * r + 2 end) (2 * r)
       ++ fail_and_retry (match r with O => 2 | _ => 2 * r + 3 end) (2 * r + 1))
    (seq 0 rounds).

(** Part 1 fails [rounds] times in a row: it starts on request 3, and its
    retry number [r] runs on request [r + 4], armed by timer [r]. *)
Definition part_1_failing (rounds : nat) : list Event :=
  flat_map (fun r => fail_and_retry (r + 3) r) (seq 0 rounds).

(** * Proofs *)

(** ** Proof support *)

(** Peels one state transformer after the other off the goal, splitting on
    the tests of the code; [t] closes what it is left with. *)
Ltac descend t :=
  repeat first
    [ assumption
    | progress cbv zeta
    | progress t
    | match goal with
      | |- context [match ?x with _ => _ end] => destruct x eqn:?
      end ].

Arguments percentage : simpl never.
Arguments inProgress : simpl never.

(** ** Binary64 arithmetic *)


Lemma pow2_pos e : (0 < pow2 e)%Q.
Proof. by apply Qpower_0_lt. Qed.

Lemma pow2_add a b : (pow2 (a + b) == pow2 a * pow2 b)%Q.
Proof. by apply Qpower_plus. Qed.

Lemma pow2_succ e : (pow2 (e + 1) == 2 * pow2 e)%Q.
Proof. rewrite pow2_add. unfold pow2 at 2. simpl. lra. Qed.

Lemma pow2_le a b : a <= b -> (pow2 a <= pow2 b)%Q.
Proof. intros. by apply Qpower_le_compat_l. Qed.

Lemma pow2_lt a b : a < b -> (pow2 a < pow2 b)%Q.
Proof. intros. by apply Qpower_lt_compat_l. Qed.

Lemma pow2_lt_inv a b : (pow2 a < pow2 b)%Q -> a < b.
Proof. intros. by apply (Qpower_lt_compat_l_inv 2). Qed.

Lemma pow2_le_inv a b : (pow2 a <= pow2 b)%Q -> a <= b.
Proof. intros. by apply (Qpower_le_compat_l_inv 2). Qed.

Lemma pow2_Z n : 0 <= n -> (pow2 n == inject_Z (2 ^ n))%Q.
Proof. intros. unfold pow2. by rewrite Zpower_Qpower. Qed.

(** The number of binary digits. *)
Lemma digits2_pos_bounds p :
  2 ^ (Zpos (digits2_pos p) - 1) <= Zpos p < 2 ^ Zpos (digits2_pos p).
Proof.
  induction p as [p IH|p IH|]; cbn [digits2_pos]; [| |by cbn].
  all: rewrite Pos2Z.inj_succ;
    replace (Z.succ (Z.pos (digits2_pos p)) - 1) with
      (Z.succ (Z.pos (digits2_pos p) - 1)) by lia;
    rewrite !Z.pow_succ_r by lia; lia.
Qed.

Lemma Zdigits2_bounds m :
  0 < m -> 2 ^ (Zdigits2 m - 1) <= m < 2 ^ Zdigits2 m.
Proof. destruct m; [lia | intros _; apply digits2_pos_bounds | lia]. Qed.

Lemma Zdigits2_pos m : 0 < m -> 0 < Zdigits2 m.
Proof. destruct m; cbn; lia. Qed.

(** The digits are fixed by the two bounds. *)
Lemma Zdigits2_unique m d :
  0 < m -> 2 ^ (d - 1) <= m < 2 ^ d -> Zdigits2 m = d.
Proof.
  intros Hm [Hlo Hhi]. pose proof (Zdigits2_bounds m Hm) as [Hlo' Hhi'].
  pose proof (Zdigits2_pos m Hm).
  assert (0 < d).
  { destruct (Z_lt_le_dec 0 d) as [|Hd]; [done|].
    apply Zle_lt_or_eq in Hd as [Hd | ->]; [|cbn in Hhi; lia].
    rewrite Z.pow_neg_r in Hhi by done. lia. }
  assert (d - 1 < Zdigits2 m)
    by (apply (Z.pow_lt_mono_r_iff 2); lia).
  assert (Zdigits2 m - 1 < d)
    by (apply (Z.pow_lt_mono_r_iff 2); lia).
  lia.
Qed.

(** ** Rounding to nearest, ties to even *)


Lemma Qcompare_Lt x y : (x ?= y)%Q = Lt <-> (x < y)%Q.
Proof. symmetry. apply Qlt_alt. Qed.
Lemma Qcompare_Eq x y : (x ?= y)%Q = Eq <-> (x == y)%Q.
Proof. symmetry. apply Qeq_alt. Qed.
Lemma Qcompare_Gt x y : (x ?= y)%Q = Gt <-> (y < x)%Q.
Proof. symmetry. apply Qgt_alt. Qed.

Lemma inject_Z_double p : (inject_Z (Zpos p~0) == 2 * inject_Z (Zpos p))%Q.
Proof. change (Zpos p~0) with (2 * Zpos p). by rewrite inject_Z_mult. Qed.

Lemma inject_Z_double_1 p : (inject_Z (Zpos p~1) == 2 * inject_Z (Zpos p) + 1)%Q.
Proof.
  change (Zpos p~1) with (2 * Zpos p + 1).
  by rewrite inject_Z_plus, inject_Z_mult.
Qed.

Ltac place :=
  cbn [shr_1 shr_m shr_r shr_s loc_of_shr_record orb] in *;
  unfold locates in *;
  rewrite ?Qcompare_Lt, ?Qcompare_Eq, ?Qcompare_Gt in *;
  repeat match goal with H : _ /\ _ |- _ => destruct H end;
  change (inject_Z 0) with 0%Q in *; change (inject_Z 1) with 1%Q in *;
  repeat match goal with
    | H : context [inject_Z ?z] |- _ => generalize dependent (inject_Z z); intros
    | |- context [inject_Z ?z] => generalize dependent (inject_Z z); intros
    end;
  repeat match goal with
    | H : context [pow2 ?z] |- _ => generalize dependent (pow2 z); intros
    | |- context [pow2 ?z] => generalize dependent (pow2 z); intros
    end;
  repeat split; try nra.

(** One shift to the right keeps the place of [x], on the coarser grid. *)
Lemma shr_1_locates m r s e x :
  0 <= m ->
  locates m e
    (loc_of_shr_record {| shr_m := m; shr_r := r; shr_s := s |}) x ->
  let mrs := shr_1 {| shr_m := m; shr_r := r; shr_s := s |} in
  shr_m mrs = m `div` 2
  /\ locates (shr_m mrs) (e + 1) (loc_of_shr_record mrs) x.
Proof.
  intros Hm Hx.
  pose proof (pow2_pos e) as Hu. pose proof (pow2_succ e) as Hs.
  destruct m as [|[p|p|]|p]; [| | | |lia].
  - (* 0 *)
    split; [done|]. destruct r, s; place.
  - (* 2 p + 1 *)
    split; [cbn [shr_1 shr_m]; rewrite Pos2Z.inj_xI;
            apply Z.div_unique with 1; lia|].
    pose proof (inject_Z_double_1 p) as Hp. destruct r, s; place.
  - (* 2 p *)
    split; [cbn [shr_1 shr_m]; rewrite Pos2Z.inj_xO;
            apply Z.div_unique with 0; lia|].
    pose proof (inject_Z_double p) as Hp. destruct r, s; place.
  - (* 1 *)
    split; [done|]. destruct r, s; place.
Qed.

(** And so do [n] shifts. *)
Lemma iter_shr_locates n :
  forall mrs e x,
    0 <= shr_m mrs ->
    locates (shr_m mrs) e (loc_of_shr_record mrs) x ->
    let mrs' := SpecFloat.iter_pos shr_1 n mrs in
    shr_m mrs' = shr_m mrs `div` 2 ^ Zpos n
    /\ locates (shr_m mrs') (e + Zpos n) (loc_of_shr_record mrs') x.
Proof.
  assert (forall mrs e x,
            0 <= shr_m mrs ->
            locates (shr_m mrs) e (loc_of_shr_record mrs) x ->
            shr_m (shr_1 mrs) = shr_m mrs `div` 2 ^ 1
            /\ locates (shr_m (shr_1 mrs)) (e + 1)
                 (loc_of_shr_record (shr_1 mrs)) x) as Hone.
  { intros [m r s] e x Hm Hx. by apply shr_1_locates. }
  induction n as [n IH|n IH|]; intros mrs e x Hm Hx; cbn [SpecFloat.iter_pos].
  - destruct (Hone _ _ _ Hm Hx) as [E1 H1].
    assert (0 <= shr_m (shr_1 mrs)) as Hm1
      by (rewrite E1; apply Z.div_pos; lia).
    destruct (IH _ _ _ Hm1 H1) as [E2 H2].
    assert (0 <= shr_m (SpecFloat.iter_pos shr_1 n (shr_1 mrs))) as Hm2
      by (rewrite E2; apply Z.div_pos; lia).
    destruct (IH _ _ _ Hm2 H2) as [E3 H3].
    split.
    + rewrite E3, E2, E1, !Z.div_div, <- !Z.pow_add_r by lia.
      f_equal. f_equal. lia.
    + replace (e + Z.pos n~1) with (e + 1 + Z.pos n + Z.pos n) by lia. done.
  - destruct (IH _ _ _ Hm Hx) as [E2 H2].
    assert (0 <= shr_m (SpecFloat.iter_pos shr_1 n mrs)) as Hm2
      by (rewrite E2; apply Z.div_pos; lia).
    destruct (IH _ _ _ Hm2 H2) as [E3 H3].
    split.
    + rewrite E3, E2, !Z.div_div, <- !Z.pow_add_r by lia.
      f_equal. f_equal. lia.
    + replace (e + Z.pos n~0) with (e + Z.pos n + Z.pos n) by lia. done.
  - by apply Hone.
Qed.

Lemma loc_of_shr_record_of_loc m l :
  loc_of_shr_record (shr_record_of_loc m l) = l
  /\ shr_m (shr_record_of_loc m l) = m.
Proof. by destruct l as [|[]]. Qed.

(** [shr]: the mantissa is shifted when [n] is positive, and [x] keeps its
    place. *)
Lemma shr_locates m l e n x :
  0 <= m ->
  locates m e l x ->
  let '(mrs, e') := shr (shr_record_of_loc m l) e n in
  e' = e + Z.max n 0
  /\ shr_m mrs = m `div` 2 ^ Z.max n 0
  /\ locates (shr_m mrs) e' (loc_of_shr_record mrs) x.
Proof.
  intros Hm Hx.
  destruct (loc_of_shr_record_of_loc m l) as [Hl Hm'].
  destruct n as [|n|n]; cbn [shr].
  - rewrite Hl, Hm', Z.add_0_r, Z.div_1_r. done.
  - rewrite Z.max_l by lia.
    pose proof (iter_shr_locates n (shr_record_of_loc m l) e x) as H.
    rewrite Hl, Hm' in H. destruct (H Hm Hx) as [? ?]. done.
  - rewrite Hl, Hm', Z.max_r, Z.add_0_r, Z.div_1_r by lia. done.
Qed.



Lemma inject_Z_le_mult k m u :
  (0 < u)%Q -> (inject_Z k * u < (inject_Z m + 1) * u)%Q -> k <= m.
Proof.
  intros Hu H. apply Qmult_lt_r in H; [|done].
  assert (inject_Z k < inject_Z (m + 1))%Q as H'
    by (rewrite inject_Z_plus; exact H).
  rewrite <- Zlt_Qlt in H'. lia.
Qed.

Lemma inject_Z_lt_mult k m u :
  (0 < u)%Q -> (inject_Z m * u < inject_Z k * u)%Q -> m + 1 <= k.
Proof.
  intros Hu H. apply Qmult_lt_r in H; [|done].
  rewrite <- Zlt_Qlt in H. lia.
Qed.

Lemma round_nearest_even_nearest m l g x :
  2 ^ 52 <= m ->
  locates m g l x ->
  let m' := round_nearest_even m l in
  m <= m' <= m + 1
  /\ nearest g x (inject_Z m' * pow2 g).
Proof.
  intros Hm Hx.
  pose proof (pow2_pos g) as Hu.
  assert (pow2 (g + 52) == pow2 g * inject_Z (2 ^ 52))%Q as H52
    by (rewrite pow2_add, (pow2_Z 52) by lia; done).
  assert (inject_Z (2 ^ 52) <= inject_Z m)%Q as Hm' by (by rewrite <- Zle_Qle).
  assert (forall k : Z, k <= m -> (inject_Z k <= inject_Z m)%Q) as Hle
    by (intros; by rewrite <- Zle_Qle).
  assert (forall k : Z, m + 1 <= k -> (inject_Z m + 1 <= inject_Z k)%Q) as Hge.
  { intros k Hk. rewrite Zle_Qle, inject_Z_plus in Hk. exact Hk. }
  assert (inject_Z (m + 1) == inject_Z m + 1)%Q as H1
    by (by rewrite inject_Z_plus).
  assert (m <= round_nearest_even m l <= m + 1) as Hr.
  { destruct l as [|[]]; cbn; try lia. destruct (Z.even m); lia. }
  split; [exact Hr|].
  assert (forall k, (inject_Z k * pow2 g <= x)%Q ->
                    (x < (inject_Z m + 1) * pow2 g)%Q -> k <= m) as Hbelow.
  { intros k ? ?. apply (inject_Z_le_mult k m (pow2 g)); [done|]. lra. }
  assert (forall k, (x <= inject_Z k * pow2 g)%Q ->
                    (inject_Z m * pow2 g < x)%Q -> m + 1 <= k) as Habove.
  { intros k ? ?. apply (inject_Z_lt_mult k m (pow2 g)); [done|]. lra. }
  unfold nearest. rewrite H52.
  destruct l as [|[]]; cbn [round_nearest_even]; unfold locates in Hx;
    rewrite ?Qcompare_Lt, ?Qcompare_Eq, ?Qcompare_Gt in Hx.
  - (* exact *)
    repeat split; try (intros k Hk); try nra.
  - (* on the middle *)
    destruct Hx as [[Hx1 Hx2] Hx3].
    destruct (Z.even m); rewrite ?H1; repeat split; try (intros k Hk).
    all: try (specialize (Hbelow k Hk Hx2); specialize (Hle k Hbelow)).
    all: try (specialize (Habove k Hk Hx1); specialize (Hge k Habove)).
    all: nra.
  - (* below the middle *)
    destruct Hx as [[Hx1 Hx2] Hx3].
    repeat split; try (intros k Hk).
    all: try (specialize (Hbelow k Hk Hx2); specialize (Hle k Hbelow)).
    all: try (specialize (Habove k Hk Hx1); specialize (Hge k Habove)).
    all: nra.
  - (* above the middle *)
    destruct Hx as [[Hx1 Hx2] Hx3].
    rewrite ?H1; repeat split; try (intros k Hk).
    all: try (specialize (Hbelow k Hk Hx2); specialize (Hle k Hbelow)).
    all: try (specialize (Habove k Hk Hx1); specialize (Hge k Habove)).
    all: nra.
Qed.

Lemma nearest_value g x v v' :
  (v == v')%Q -> nearest g x v -> nearest g x v'.
Proof.
  intros Hv (H1 & H2 & [H3 H4] & H5).
  repeat split; try (intros k Hk); rewrite <- ?Hv; auto.
Qed.

Lemma fexp_normal z : -1021 <= z -> fexp 53 1024 z = z - 53.
Proof. intros. unfold fexp, emin. lia. Qed.

(** The rounding step of every operation: a mantissa of at least 53 digits
    at exponent [e], with the place of the exact result [x] behind it, is
    rounded to the nearest float, ties to even. *)
Lemma binary_round_aux_rounded m e l x :
  53 <= Zdigits2 m ->
  0 < m ->
  locates m e l x ->
  -1021 <= Zdigits2 m + e <= 1023 ->
  rounded x (binary_round_aux 53 1024 false m e l).
Proof.
  intros Hd Hm Hx Hrange.
  pose proof (Zdigits2_bounds m Hm) as [Hlo Hhi].
  set (d := Zdigits2 m) in *. set (g := d + e - 53).
  unfold binary_round_aux, shr_fexp.
  fold d. rewrite (fexp_normal (d + e)) by lia.
  (* the first shift, by [d - 53] *)
  pose proof (shr_locates m l e (d + e - 53 - e) x ltac:(lia) Hx) as H1.
  destruct (shr (shr_record_of_loc m l) e (d + e - 53 - e)) as [mrs1 e1].
  destruct H1 as (-> & Hm1 & Hx1).
  replace (Z.max (d + e - 53 - e) 0) with (d - 53) in * by lia.
  replace (e + (d - 53)) with g in * by (unfold g; lia).
  assert (2 ^ 52 <= shr_m mrs1 < 2 ^ 53) as [Hlo1 Hhi1].
  { rewrite Hm1. split.
    - apply Z.div_le_lower_bound; [lia|].
      rewrite <- Z.pow_add_r by lia. replace (d - 53 + 52) with (d - 1) by lia.
      done.
    - apply Z.div_lt_upper_bound; [lia|].
      rewrite <- Z.pow_add_r by lia. replace (d - 53 + 53) with d by lia.
      done. }
  (* the rounding *)
  destruct (round_nearest_even_nearest _ _ _ _ Hlo1 Hx1) as [Hr Hn].
  set (m2 := round_nearest_even (shr_m mrs1) (loc_of_shr_record mrs1)) in *.
  (* the second shift, after a carry *)
  destruct (Z_lt_le_dec m2 (2 ^ 53)) as [Hlt|Hge].
  - assert (Zdigits2 m2 = 53) as Hd2
      by (apply Zdigits2_unique; [lia | split; [|done]]; cbn; lia).
    rewrite Hd2, (fexp_normal (53 + g)) by (unfold g; lia).
    replace (53 + g - 53 - g) with 0 by lia. cbn [shr shr_record_of_loc shr_m].
    destruct m2 as [|p|p] eqn:E; [lia| |lia].
    replace (g <=? 1024 - 53) with true
      by (symmetry; apply Z.leb_le; unfold g; lia).
    exists p, g, g. repeat split; try done; apply Hn.
  - assert (m2 = 2 ^ 53) as -> by lia.
    change (Zdigits2 (2 ^ 53)) with 54.
    rewrite (fexp_normal (54 + g)) by (unfold g; lia).
    replace (54 + g - 53 - g) with 1 by lia.
    change (2 ^ 53) with 9007199254740992 at 1.
    cbn [shr shr_record_of_loc SpecFloat.iter_pos shr_1 shr_m orb].
    replace (g + 1 <=? 1024 - 53) with true
      by (symmetry; apply Z.leb_le; unfold g; lia).
    exists 4503599627370496%positive, (g + 1), g.
    split; [done|]. split; [done|].
    apply (nearest_value _ _ (inject_Z (2 ^ 53) * pow2 g)); [|done].
    rewrite pow2_succ. change (2 ^ 53) with (2 * 4503599627370496).
    rewrite inject_Z_mult. ring.
Qed.

(** *** Integers as doubles *)

Lemma Pos_iter_xO p k :
  Zpos (Pos.iter xO p k) = Zpos p * 2 ^ Zpos k
  /\ digits2_pos (Pos.iter xO p k) = (digits2_pos p + k)%positive.
Proof.
  induction k as [|k IH] using Pos.peano_ind.
  - cbn. split; [lia|]. by rewrite Pos.add_1_r.
  - rewrite Pos.iter_succ. destruct IH as [IH1 IH2]. split.
    + rewrite Pos2Z.inj_xO, IH1, Pos2Z.inj_succ, Z.pow_succ_r by lia. lia.
    + cbn [digits2_pos]. rewrite IH2. lia.
Qed.

(** Two normal doubles of the same value are the same. *)
Lemma normal_unique m1 e1 m2 e2 :
  Zdigits2 (Zpos m1) = 53 -> Zdigits2 (Zpos m2) = 53 ->
  (inject_Z (Zpos m1) * pow2 e1 == inject_Z (Zpos m2) * pow2 e2)%Q ->
  m1 = m2 /\ e1 = e2.
Proof.
  assert (forall m1 e1 m2 e2,
            Zdigits2 (Zpos m1) = 53 -> Zdigits2 (Zpos m2) = 53 ->
            e1 <= e2 ->
            (inject_Z (Zpos m1) * pow2 e1 == inject_Z (Zpos m2) * pow2 e2)%Q ->
            m1 = m2 /\ e1 = e2) as Hle.
  { clear. intros m1 e1 m2 e2 H1 H2 He Hv.
    pose proof (Zdigits2_bounds (Zpos m1) ltac:(lia)) as B1.
    pose proof (Zdigits2_bounds (Zpos m2) ltac:(lia)) as B2.
    rewrite H1 in B1. rewrite H2 in B2.
    replace e2 with (e1 + (e2 - e1)) in Hv by lia.
    rewrite pow2_add, (pow2_Z (e2 - e1)) in Hv by lia.
    pose proof (pow2_pos e1).
    assert (inject_Z (Zpos m1) == inject_Z (Zpos m2 * 2 ^ (e2 - e1)))%Q as Hm.
    { rewrite inject_Z_mult. apply (Qmult_inj_r _ _ (pow2 e1)); [lra|].
      rewrite Hv. ring. }
    rewrite inject_Z_injective in Hm.
    destruct (Z.eq_dec e1 e2) as [->|Hne].
    - rewrite Z.sub_diag in Hm. split; [lia | done].
    - assert (2 ^ 1 <= 2 ^ (e2 - e1)) by (apply Z.pow_le_mono_r; lia).
      change (2 ^ 1) with 2 in *. change (2 ^ (53 - 1)) with (2 ^ 52) in *.
      assert (2 ^ 53 = 2 * 2 ^ 52) by done. nia. }
  intros H1 H2 Hv. destruct (Z_le_gt_dec e1 e2).
  - by apply Hle.
  - destruct (Hle m2 e2 m1 e1) as [-> ->]; [done | done | lia | | done].
    by symmetry.
Qed.

(** An integer lies on every grid of non-positive exponent. *)
Lemma grid_point g z :
  g <= 0 -> (inject_Z (z * 2 ^ (- g)) * pow2 g == inject_Z z)%Q.
Proof.
  intros Hg. rewrite inject_Z_mult, <- (pow2_Z (- g)) by lia.
  rewrite <- Qmult_assoc, <- pow2_add.
  replace (- g + g) with 0 by lia. unfold pow2. simpl. ring.
Qed.

(** What is known of a positive normal double from its value. *)
Lemma normal_exponent m e lo hi :
  Zdigits2 (Zpos m) = 53 ->
  (pow2 lo <= inject_Z (Zpos m) * pow2 e)%Q ->
  (inject_Z (Zpos m) * pow2 e < pow2 hi)%Q ->
  lo - 53 < e < hi - 52.
Proof.
  intros Hd Hlo Hhi.
  pose proof (Zdigits2_bounds (Zpos m) ltac:(lia)) as [B1 B2].
  rewrite Hd in B1, B2. change (2 ^ (53 - 1)) with (2 ^ 52) in B1.
  rewrite Zle_Qle, <- (pow2_Z 52) in B1 by lia.
  rewrite Zlt_Qlt, <- (pow2_Z 53) in B2 by lia.
  pose proof (pow2_pos e).
  split.
  - assert (pow2 lo < pow2 (53 + e))%Q as H1 by (rewrite pow2_add; nra).
    apply pow2_lt_inv in H1. lia.
  - assert (pow2 (52 + e) < pow2 hi)%Q as H1 by (rewrite pow2_add; nra).
    apply pow2_lt_inv in H1. lia.
Qed.

(** A value rounded from an integer below [2 ^ 53] is that integer. *)
Lemma nearest_integer g z v :
  (inject_Z z < pow2 53)%Q -> nearest g (inject_Z z) v -> (v == inject_Z z)%Q.
Proof.
  intros Hz (H1 & H2 & _ & H3).
  assert (g <= 0).
  { assert (pow2 (g + 52) < pow2 53)%Q as H by lra.
    apply pow2_lt_inv in H. lia. }
  pose proof (grid_point g z ltac:(done)) as Hk.
  specialize (H1 (z * 2 ^ (- g))). specialize (H2 (z * 2 ^ (- g))).
  rewrite Hk in H1, H2. apply Qle_antisym; [apply H2 | apply H1]; lra.
Qed.

Lemma number_rounded z :
  0 < z < 2 ^ 53 -> rounded (inject_Z z) (JS.number z).
Proof.
  intros [Hz1 Hz2]. destruct z as [|p|p]; [lia| |lia].
  unfold JS.number, binary_normalize, binary_round.
  pose proof (digits2_pos_bounds p) as [B1 B2].
  set (d := Zpos (digits2_pos p)) in *.
  assert (1 <= d <= 53) as Hd.
  { split; [lia|]. destruct (Z_le_gt_dec d 53); [done|].
    assert (2 ^ 53 <= 2 ^ (d - 1)) by (apply Z.pow_le_mono_r; lia). lia. }
  rewrite Z.add_0_r, (fexp_normal d) by lia.
  unfold shl_align. rewrite Z.sub_0_r.
  destruct (d - 53) as [|k|k] eqn:Ek; [| lia |].
  - apply binary_round_aux_rounded.
    + cbn [Zdigits2]. lia.
    + lia.
    + unfold locates. unfold pow2. simpl. ring.
    + cbn [Zdigits2]. lia.
  - destruct (Pos_iter_xO p k) as [E1 E2].
    apply binary_round_aux_rounded.
    + cbn [Zdigits2]. rewrite E2. lia.
    + lia.
    + unfold locates. rewrite E1, inject_Z_mult, <- (pow2_Z (Zpos k)) by lia.
      rewrite <- Qmult_assoc, <- pow2_add.
      replace (Z.pos k + Z.neg k) with 0 by lia. unfold pow2 at 1. simpl. ring.
    + cbn [Zdigits2]. rewrite E2. lia.
Qed.

(** Below [2 ^ 53] the conversion is exact. *)
Lemma number_exact z :
  0 < z < 2 ^ 53 ->
  exists m e,
    JS.number z = S754_finite false m e
    /\ Zdigits2 (Zpos m) = 53
    /\ (inject_Z (Zpos m) * pow2 e == inject_Z z)%Q
    /\ -52 <= e <= 0.
Proof.
  intros Hz. destruct (number_rounded z Hz) as (m & e & g & -> & Hd & Hn).
  assert (inject_Z z < pow2 53)%Q as Hlt.
  { rewrite (pow2_Z 53) by lia. rewrite <- Zlt_Qlt. lia. }
  pose proof (nearest_integer _ _ _ Hlt Hn) as Hv.
  exists m, e. repeat split; try done.
  all: assert (pow2 0 <= inject_Z (Zpos m) * pow2 e)%Q as Hlo
    by (rewrite Hv; change (pow2 0) with (inject_Z 1); rewrite <- Zle_Qle; lia).
  all: rewrite <- Hv in Hlt;
    pose proof (normal_exponent _ _ _ _ Hd Hlo Hlt); lia.
Qed.

(** *** Division *)

(** The place of the exact quotient behind the integer quotient. *)
Lemma new_location_locates n q r e' :
  0 < n -> 0 <= r < n ->
  locates q e' (new_location n r)
    ((inject_Z q + inject_Z r / inject_Z n) * pow2 e')%Q.
Proof.
  intros Hn Hr. pose proof (pow2_pos e') as Hu.
  assert (0 < inject_Z n)%Q as Hn'
    by (change 0%Q with (inject_Z 0); by rewrite <- Zlt_Qlt).
  set (f := (inject_Z r / inject_Z n)%Q).
  assert (0 <= f /\ f < 1)%Q as [Hf0 Hf1].
  { unfold f. split.
    - apply Qle_shift_div_l; [done|]. rewrite Qmult_0_l.
      change 0%Q with (inject_Z 0). rewrite <- Zle_Qle. lia.
    - apply Qlt_shift_div_r; [done|]. rewrite Qmult_1_l.
      rewrite <- Zlt_Qlt. lia. }
  (* the fraction against one half *)
  assert ((2 * r < n -> (f < 1 # 2)%Q)
          /\ (2 * r = n -> (f == 1 # 2)%Q)
          /\ (n < 2 * r -> ((1 # 2) < f)%Q)) as (Hlt & Heq & Hgt).
  { unfold f. repeat split; intros H.
    - apply Qlt_shift_div_r; [done|].
      rewrite Zlt_Qlt, inject_Z_mult in H. change (inject_Z 2) with 2%Q in H.
      lra.
    - rewrite <- H, inject_Z_mult. change (inject_Z 2) with 2%Q. field.
      rewrite Zlt_Qlt in Hn. destruct Hr as [_ Hr]. rewrite Zlt_Qlt in Hr.
      rewrite <- H, inject_Z_mult in Hn. change (inject_Z 2) with 2%Q in Hn.
      change (inject_Z 0) with 0%Q in Hn. lra.
    - apply Qlt_shift_div_l; [done|].
      rewrite Zlt_Qlt, inject_Z_mult in H. change (inject_Z 2) with 2%Q in H.
      lra. }
  assert (r = 0 -> (f == 0)%Q) as Hzero.
  { intros ->. unfold f. change (inject_Z 0) with 0%Q. field. lra. }
  assert (r <> 0 -> (0 < f)%Q) as Hpos.
  { intros Hne. unfold f. apply Qlt_shift_div_l; [done|]. rewrite Qmult_0_l.
    change 0%Q with (inject_Z 0). rewrite <- Zlt_Qlt. lia. }
  unfold new_location, new_location_even, new_location_odd.
  destruct (Z.even n) eqn:Heven; destruct (Z.eqb_spec r 0) as [Hr0|Hr0].
  - unfold locates. rewrite (Hzero Hr0). ring.
  - unfold locates. specialize (Hpos Hr0).
    destruct (Z.compare_spec (2 * r) n) as [E|E|E];
      rewrite ?Qcompare_Lt, ?Qcompare_Eq, ?Qcompare_Gt;
      [specialize (Heq E) | specialize (Hlt E) | specialize (Hgt E)];
      repeat split; nra.
  - unfold locates. rewrite (Hzero Hr0). ring.
  - unfold locates. specialize (Hpos Hr0).
    assert (2 * r <> n).
    { intros <-. rewrite Z.even_mul in Heven. done. }
    destruct (Z.compare_spec (2 * r + 1) n) as [E|E|E];
      rewrite ?Qcompare_Lt, ?Qcompare_Eq, ?Qcompare_Gt;
      [specialize (Hlt ltac:(lia)) | specialize (Hlt ltac:(lia))
       | specialize (Hgt ltac:(lia))];
      repeat split; nra.
Qed.

Lemma locates_value m e l x x' :
  (x == x')%Q -> locates m e l x -> locates m e l x'.
Proof.
  intros Hx. unfold locates. destruct l as [|c].
  - intros H. by rewrite <- Hx.
  - intros [[H1 H2] H3]. split; [split; by rewrite <- Hx|].
    rewrite <- H3. by apply Qcompare_comp.
Qed.

Lemma Zdigits2_range q lo hi :
  0 <= lo -> 2 ^ lo <= q < 2 ^ hi -> lo < Zdigits2 q <= hi.
Proof.
  intros Hlo [H1 H2].
  assert (0 < q) as Hq by (pose proof (Z.pow_pos_nonneg 2 lo); lia).
  pose proof (Zdigits2_bounds q Hq) as [B1 B2].
  pose proof (Zdigits2_pos q Hq).
  split.
  - apply (Z.pow_lt_mono_r_iff 2); lia.
  - assert (Zdigits2 q - 1 < hi); [|lia].
    apply (Z.pow_lt_mono_r_iff 2); try lia.
    destruct (Z_lt_le_dec hi 0); [|done].
    rewrite (Z.pow_neg_r 2 hi) in H2 by done. lia.
Qed.

(** The quotient of two integers below [2 ^ 53] is the exact quotient,
    rounded. *)
Lemma div_rounded a b :
  0 < a < 2 ^ 53 -> 0 < b < 2 ^ 53 ->
  rounded (inject_Z a / inject_Z b) (JS.div (JS.number a) (JS.number b)).
Proof.
  intros Ha Hb.
  destruct (number_exact a Ha) as (ma & ea & -> & Hda & Hva & Hea).
  destruct (number_exact b Hb) as (mb & eb & -> & Hdb & Hvb & Heb).
  pose proof (Zdigits2_bounds (Zpos ma) ltac:(lia)) as [A1 A2].
  pose proof (Zdigits2_bounds (Zpos mb) ltac:(lia)) as [B1 B2].
  rewrite Hda in A1, A2. rewrite Hdb in B1, B2.
  change (2 ^ (53 - 1)) with (2 ^ 52) in *.
  unfold JS.div, SFdiv, SFdiv_core_binary. rewrite Hda, Hdb.
  rewrite (fexp_normal (53 + ea - (53 + eb))) by lia.
  rewrite Z.min_l by lia.
  replace (ea - eb - (53 + ea - (53 + eb) - 53)) with 53 by lia.
  cbv iota. rewrite Z.shiftl_mul_pow2 by lia.
  set (e' := 53 + ea - (53 + eb) - 53).
  pose proof (Z_div_mod (Zpos ma * 2 ^ 53) (Zpos mb) ltac:(lia)) as Hqr.
  destruct (Z.div_eucl (Zpos ma * 2 ^ 53) (Zpos mb)) as [q r].
  destruct Hqr as [Hqr Hr].
  assert (2 ^ 52 <= q < 2 ^ 54) as Hq by (change (2 ^ 54) with (4 * 2 ^ 52);
    change (2 ^ 53) with (2 * 2 ^ 52) in *; nia).
  pose proof (Zdigits2_range q 52 54 ltac:(lia) Hq) as Hdq.
  apply binary_round_aux_rounded; [lia | lia | | unfold e'; lia].
  eapply locates_value; [|apply (new_location_locates (Zpos mb) q r e'); lia].
  (* the exact quotient *)
  assert (0 < inject_Z (Zpos mb))%Q as HB
    by (change 0%Q with (inject_Z 0); by rewrite <- Zlt_Qlt).
  pose proof (pow2_pos eb) as Hub. pose proof (pow2_pos e') as Hu.
  assert (pow2 ea == pow2 e' * pow2 53 * pow2 eb)%Q as Hpow.
  { rewrite <- !pow2_add. apply Qpower_comp; [done|]. unfold e'. lia. }
  rewrite (pow2_Z 53) in Hpow by lia.
  rewrite <- Hva, <- Hvb, Hpow.
  apply (f_equal inject_Z) in Hqr.
  rewrite inject_Z_plus, !inject_Z_mult in Hqr.
  assert (inject_Z (Zpos ma) * inject_Z (2 ^ 53)
          == inject_Z (Zpos mb) * inject_Z q + inject_Z r)%Q as Hqr'
    by (by rewrite Hqr).
  set (A := inject_Z (Zpos ma)) in *. set (B := inject_Z (Zpos mb)) in *.
  set (T := inject_Z (2 ^ 53)) in *.
  transitivity ((B * inject_Z q + inject_Z r) / B * pow2 e')%Q;
    [field; lra|].
  rewrite <- Hqr'. field. split; lra.
Qed.

(** *** Multiplication *)

Lemma mul_rounded mx ex my ey :
  Zdigits2 (Zpos mx) = 53 -> Zdigits2 (Zpos my) = 53 ->
  -1126 <= ex + ey <= 917 ->
  rounded
    ((inject_Z (Zpos mx) * pow2 ex) * (inject_Z (Zpos my) * pow2 ey))%Q
    (JS.mul (S754_finite false mx ex) (S754_finite false my ey)).
Proof.
  intros Hdx Hdy He.
  pose proof (Zdigits2_bounds (Zpos mx) ltac:(lia)) as [A1 A2].
  pose proof (Zdigits2_bounds (Zpos my) ltac:(lia)) as [B1 B2].
  rewrite Hdx in A1, A2. rewrite Hdy in B1, B2.
  change (2 ^ (53 - 1)) with (2 ^ 52) in *.
  unfold JS.mul, SFmul. cbn [xorb].
  assert (2 ^ 104 <= Zpos (mx * my) < 2 ^ 106) as Hm.
  { rewrite Pos2Z.inj_mul.
    change (2 ^ 104) with (2 ^ 52 * 2 ^ 52).
    change (2 ^ 106) with (2 ^ 53 * 2 ^ 53). nia. }
  pose proof (Zdigits2_range _ 104 106 ltac:(lia) Hm) as Hd.
  apply binary_round_aux_rounded; [lia | lia | | lia].
  unfold locates. rewrite Pos2Z.inj_mul, inject_Z_mult, pow2_add. ring.
Qed.

(** *** Rounding to an integer *)

Lemma value_finite m e :
  (JS.value (S754_finite false m e) == inject_Z (Zpos m) * pow2 e)%Q.
Proof. unfold JS.value, pow2. ring. Qed.

(** [Math.floor], [Math.ceil] and [Math.round] of a positive normal double
    below [2 ^ 53]. *)
Lemma integral_number (k : Q -> Z) m e :
  Proper (Qeq ==> eq) k ->
  (forall z, k (inject_Z z) = z) ->
  Zdigits2 (Zpos m) = 53 ->
  (inject_Z (Zpos m) * pow2 e < pow2 53)%Q ->
  JS.integral k (S754_finite false m e)
  = JS.number (k (inject_Z (Zpos m) * pow2 e)%Q).
Proof.
  intros Hk Hz Hd Hlt. unfold JS.integral.
  rewrite (Hk _ _ (value_finite m e)).
  destruct (Z.leb_spec 0 e) as [He|He].
  - assert (pow2 52 <= inject_Z (Zpos m) * pow2 e)%Q as Hlo.
    { pose proof (Zdigits2_bounds (Zpos m) ltac:(lia)) as [B1 _].
      rewrite Hd in B1. change (2 ^ (53 - 1)) with (2 ^ 52) in B1.
      rewrite Zle_Qle, <- (pow2_Z 52) in B1 by lia.
      assert (pow2 0 <= pow2 e)%Q by (by apply pow2_le).
      change (pow2 0) with 1%Q in *.
      pose proof (pow2_pos 52). nra. }
    pose proof (normal_exponent _ _ _ _ Hd Hlo Hlt).
    assert (e = 0) as -> by lia.
    assert (inject_Z (Zpos m) * pow2 0 == inject_Z (Zpos m))%Q as Hv
      by (change (pow2 0) with 1%Q; ring).
    rewrite (Hk _ _ Hv), Hz.
    assert (0 < Zpos m < 2 ^ 53) as Hm.
    { split; [lia|]. rewrite Hv, (pow2_Z 53), <- Zlt_Qlt in Hlt by lia. done. }
    destruct (number_exact _ Hm) as (m' & e' & -> & Hd' & Hv' & _).
    rewrite <- Hv in Hv'.
    by destruct (normal_unique _ _ _ _ Hd' Hd Hv') as [-> ->].
  - by destruct (Z.eqb_spec (k (inject_Z (Zpos m) * pow2 e)%Q) 0) as [->|].
Qed.

#[global] Instance Qfloor_proper : Proper (Qeq ==> eq) Qfloor.
Proof. intros x y H. by apply Qfloor_comp. Qed.
#[global] Instance Qceiling_proper : Proper (Qeq ==> eq) Qceiling.
Proof. intros x y H. by apply Qceiling_comp. Qed.
#[global] Instance Qround_proper :
  Proper (Qeq ==> eq) (fun q => Qfloor (q + (1 # 2))%Q).
Proof. intros x y H. apply Qfloor_comp. by rewrite H. Qed.

Lemma Qround_Z z : Qfloor (inject_Z z + (1 # 2))%Q = z.
Proof.
  pose proof (Qfloor_le (inject_Z z + (1 # 2))%Q) as H1.
  pose proof (Qlt_floor (inject_Z z + (1 # 2))%Q) as H2.
  set (n := Qfloor _) in *.
  assert (inject_Z n < inject_Z (z + 1))%Q as H3
    by (rewrite inject_Z_plus; change (inject_Z 1) with 1%Q; lra).
  assert (inject_Z z < inject_Z (n + 1))%Q as H4 by lra.
  rewrite <- Zlt_Qlt in H3, H4. lia.
Qed.

(** *** The two computations of the uploader *)

Lemma nearest_step g x v :
  nearest g x v -> (pow2 g * inject_Z (2 ^ 52) <= x)%Q.
Proof.
  intros (_ & _ & _ & H). rewrite pow2_add, (pow2_Z 52) in H by lia. done.
Qed.

Lemma nearest_le g x v (z : Z) :
  (x < pow2 53)%Q -> nearest g x v ->
  (x <= inject_Z z)%Q -> (v <= inject_Z z)%Q.
Proof.
  intros Hlt Hn Hz. pose proof Hn as (_ & H2 & _ & H3).
  assert (g <= 0).
  { assert (pow2 (g + 52) < pow2 53)%Q as H by lra.
    apply pow2_lt_inv in H. lia. }
  specialize (H2 (z * 2 ^ (- g))). rewrite grid_point in H2 by done. auto.
Qed.

Lemma nearest_ge g x v (z : Z) :
  (x < pow2 53)%Q -> nearest g x v ->
  (inject_Z z <= x)%Q -> (inject_Z z <= v)%Q.
Proof.
  intros Hlt Hn Hz. pose proof Hn as (H1 & _ & _ & H3).
  assert (g <= 0).
  { assert (pow2 (g + 52) < pow2 53)%Q as H by lra.
    apply pow2_lt_inv in H. lia. }
  specialize (H1 (z * 2 ^ (- g))). rewrite grid_point in H1 by done. auto.
Qed.

Lemma number_0 : JS.number 0 = S754_zero false.
Proof. reflexivity. Qed.

(** [Math.ceil(a / b)] on two integers below [2 ^ 53]: the rounding of the
    quotient does not reach the integer below it. *)
Lemma ceil_div a b :
  0 <= a < 2 ^ 53 -> 0 < b < 2 ^ 53 ->
  JS.ceil (JS.div (JS.number a) (JS.number b)) = JS.number (- ((- a) `div` b)).
Proof.
  intros [Ha0 Ha] Hb.
  apply Zle_lt_or_eq in Ha0 as [Ha0 | <-].
  2: { destruct (number_exact b Hb) as (mb & eb & -> & _). done. }
  set (n := - ((- a) `div` b)).
  assert ((n - 1) * b + 1 <= a <= n * b) as Hn.
  { pose proof (Z.div_mod (- a) b ltac:(lia)).
    pose proof (Z.mod_pos_bound (- a) b ltac:(lia)). subst n. nia. }
  destruct (div_rounded a b (conj Ha0 Ha) Hb) as (m & e & g & -> & Hd & Hnear).
  set (x := (inject_Z a / inject_Z b)%Q) in *.
  set (v := (inject_Z (Zpos m) * pow2 e)%Q) in *.
  (* the exact quotient *)
  assert (0 < inject_Z b)%Q as Hb'
    by (change 0%Q with (inject_Z 0); rewrite <- Zlt_Qlt; lia).
  assert (x * inject_Z b == inject_Z a)%Q as Hx by (unfold x; field; lra).
  assert (inject_Z a <= inject_Z (2 ^ 53) - 1)%Q as Ha'.
  { assert (a <= 2 ^ 53 - 1) as H by lia.
    rewrite Zle_Qle in H. unfold Z.sub in H. rewrite inject_Z_plus in H.
    exact H. }
  assert (1 <= inject_Z b)%Q as Hb1
    by (change 1%Q with (inject_Z 1); rewrite <- Zle_Qle; lia).
  assert ((inject_Z n - 1) * inject_Z b + 1 <= inject_Z a
          /\ inject_Z a <= inject_Z n * inject_Z b)%Q as [Hn1 Hn2].
  { destruct Hn as [H1 H2]. rewrite Zle_Qle in H1, H2.
    rewrite inject_Z_plus, !inject_Z_mult in H1. unfold Z.sub in H1.
    rewrite inject_Z_plus in H1. rewrite inject_Z_mult in H2.
    split; [exact H1 | exact H2]. }
  assert (0 < inject_Z a)%Q as Ha0'
    by (change 0%Q with (inject_Z 0); rewrite <- Zlt_Qlt; lia).
  assert (0 < x)%Q as Hx0
    by (unfold x; apply Qlt_shift_div_l; [done | lra]).
  assert (0 <= x * (inject_Z b - 1))%Q as Hxb
    by (apply Qmult_le_0_compat; lra).
  assert (x <= inject_Z a)%Q as Hxa by lra.
  assert (x < pow2 53)%Q as Hx53 by (rewrite (pow2_Z 53) by lia; lra).
  assert (x <= inject_Z n)%Q as Hxn.
  { apply (Qmult_le_r _ _ (inject_Z b)); [done | lra]. }
  (* the rounded quotient *)
  pose proof (nearest_le _ _ _ n Hx53 Hnear Hxn) as Hvn.
  assert (v < pow2 53)%Q as Hvlt.
  { pose proof (nearest_le _ _ _ 9007199254740991 Hx53 Hnear) as Hv53.
    rewrite (pow2_Z 53) by lia.
    assert (inject_Z 9007199254740991 == inject_Z (2 ^ 53) - 1)%Q as E by done.
    rewrite E in Hv53. specialize (Hv53 ltac:(lra)). lra. }
  pose proof (nearest_step _ _ _ Hnear) as Hstep.
  destruct Hnear as (_ & _ & [_ Hlow] & _).
  assert (inject_Z n - 1 < v)%Q as Hlow'.
  { pose proof (pow2_pos g) as Hg.
    change (2 ^ 52) with 4503599627370496 in Hstep.
    change (2 ^ 53) with 9007199254740992 in Ha'.
    set (T := inject_Z 4503599627370496) in *.
    assert (T == 4503599627370496)%Q as HT by done.
    assert (inject_Z 9007199254740992 == 9007199254740992)%Q as HT' by done.
    rewrite HT' in Ha'.
    (* half a step, times [b], is less than one *)
    rewrite HT in Hstep. clearbody T.
    assert (pow2 g * inject_Z b * 4503599627370496 <= inject_Z a)%Q as H1.
    { rewrite <- Hx. apply Qmult_le_compat_r with (z := inject_Z b) in Hstep;
        [|lra]. lra. }
    assert ((1 # 2) * pow2 g * inject_Z b < 1)%Q as H2 by lra.
    apply (Qmult_lt_r _ _ (inject_Z b)); [done|].
    assert (x * inject_Z b <= (v + (1 # 2) * pow2 g) * inject_Z b)%Q as H3
      by (apply Qmult_le_compat_r; lra).
    lra. }
  unfold JS.ceil.
  rewrite (integral_number Qceiling m e Qceiling_proper Qceiling_Z Hd Hvlt).
  fold v. f_equal.
  pose proof (Qle_ceiling v) as Hup. pose proof (Qceiling_lt v) as Hdown.
  set (c := Qceiling v) in *.
  assert (inject_Z (c - 1) < inject_Z n)%Q as H5 by lra.
  assert (inject_Z n < inject_Z (c + 1))%Q as H6
    by (rewrite inject_Z_plus; change (inject_Z 1) with 1%Q; lra).
  rewrite <- Zlt_Qlt in H5, H6. lia.
Qed.

Lemma nearest_exact g x x' v :
  (x == x')%Q -> nearest g x v -> nearest g x' v.
Proof.
  intros Hx (H1 & H2 & [H3 H4] & H5).
  repeat split; try (intros k Hk); rewrite <- ?Hx; auto;
    [apply H1 | apply H2]; by rewrite Hx.
Qed.

(** [Math.round((a / b) * 100)] on two integers with [0 <= a <= b] below
    [2 ^ 53]: an integer percentage, at most half a unit (and the two
    rounding errors) away from the exact one. *)
Lemma round_percent a b :
  0 <= a <= b -> 0 < b < 2 ^ 53 ->
  exists p,
    JS.round (JS.mul (JS.div (JS.number a) (JS.number b)) (JS.number 100))
    = JS.number p
    /\ 0 <= p <= 100
    /\ (100 * inject_Z a / inject_Z b - (1 # 2) - pow2 (-45) < inject_Z p
        /\ inject_Z p <= 100 * inject_Z a / inject_Z b + (1 # 2) + pow2 (-45))%Q.
Proof.
  intros [Ha0 Hab] Hb.
  assert (0 < inject_Z b)%Q as Hb'
    by (change 0%Q with (inject_Z 0); rewrite <- Zlt_Qlt; lia).
  apply Zle_lt_or_eq in Ha0 as [Ha0 | <-].
  2: { exists 0. destruct (number_exact b Hb) as (mb & eb & -> & _).
       split; [done|]. split; [lia|].
       change (inject_Z 0) with 0%Q.
       assert (100 * 0 / inject_Z b == 0)%Q as -> by (field; lra).
       split; vm_compute; done. }
  destruct (div_rounded a b ltac:(lia) Hb) as (my & ey & g1 & -> & Hdy & N1).
  set (x := (inject_Z a / inject_Z b)%Q) in *.
  set (vy := (inject_Z (Zpos my) * pow2 ey)%Q) in *.
  (* the exact quotient is in (0, 1] *)
  assert (x * inject_Z b == inject_Z a)%Q as Hx by (unfold x; field; lra).
  assert (0 < inject_Z a)%Q as Ha'
    by (change 0%Q with (inject_Z 0); rewrite <- Zlt_Qlt; lia).
  assert (inject_Z a <= inject_Z b)%Q as Hab' by (by rewrite <- Zle_Qle).
  assert (inject_Z b < 9007199254740992)%Q as Hb53.
  { destruct Hb as [_ Hb]. rewrite Zlt_Qlt in Hb. exact Hb. }
  assert (1 <= inject_Z a)%Q as Ha1
    by (change 1%Q with (inject_Z 1); rewrite <- Zle_Qle; lia).
  assert (0 < x)%Q as Hx0 by (unfold x; apply Qlt_shift_div_l; [done | lra]).
  assert (x <= 1)%Q as Hx1 by (unfold x; apply Qle_shift_div_r; [done | lra]).
  assert (pow2 (-53) < x)%Q as Hxlo.
  { unfold x. apply Qlt_shift_div_l; [done|].
    assert (pow2 (-53) * 9007199254740992 == 1)%Q as E by done.
    pose proof (pow2_pos (-53)). nra. }
  assert (x < pow2 53)%Q as Hx53.
  { assert (1 < pow2 53)%Q by done. lra. }
  (* the rounded quotient *)
  pose proof (nearest_le _ _ _ 1 Hx53 N1 Hx1) as Hvy1.
  change (inject_Z 1) with 1%Q in Hvy1.
  pose proof (nearest_step _ _ _ N1) as Hs1.
  change (inject_Z (2 ^ 52)) with 4503599627370496%Q in Hs1.
  assert (g1 <= -52) as Hg1.
  { destruct N1 as (_ & _ & _ & H).
    assert (pow2 (g1 + 52) <= pow2 0)%Q as H' by (change (pow2 0) with 1%Q; lra).
    apply pow2_le_inv in H'. lia. }
  assert (pow2 g1 <= pow2 (-52))%Q as Hp1 by (by apply pow2_le).
  assert (pow2 (-52) == 1 # 4503599627370496)%Q as E52 by done.
  assert (pow2 (-53) == 1 # 9007199254740992)%Q as E53 by done.
  assert (pow2 (-54) == 1 # 18014398509481984)%Q as E54 by done.
  pose proof (pow2_pos g1) as Hg1pos.
  destruct N1 as (_ & _ & [N1a N1b] & _).
  assert (pow2 (-54) <= vy)%Q as Hvylo by lra.
  assert (vy < pow2 1)%Q as Hvyhi by (change (pow2 1) with 2%Q; lra).
  pose proof (normal_exponent _ _ _ _ Hdy Hvylo Hvyhi) as Hey.
  (* times one hundred *)
  destruct (number_exact 100 ltac:(done)) as (mc & ec & -> & Hdc & Hvc & Hec).
  destruct (mul_rounded my ey mc ec Hdy Hdc ltac:(lia))
    as (mz & ez & g2 & -> & Hdz & N2).
  fold vy in N2.
  apply (nearest_exact _ _ (vy * 100)%Q) in N2;
    [|rewrite Hvc; change (inject_Z 100) with 100%Q; ring].
  set (vz := (inject_Z (Zpos mz) * pow2 ez)%Q) in *.
  assert (vy * 100 < pow2 53)%Q as Hx253.
  { assert (128 < pow2 53)%Q by done. lra. }
  pose proof (nearest_le _ _ _ 100 Hx253 N2) as Hvz100.
  change (inject_Z 100) with 100%Q in Hvz100. specialize (Hvz100 ltac:(lra)).
  assert (g2 <= -46) as Hg2.
  { destruct N2 as (_ & _ & _ & H).
    assert (pow2 (g2 + 52) < pow2 7)%Q as H'
      by (change (pow2 7) with 128%Q; lra).
    apply pow2_lt_inv in H'. lia. }
  assert (pow2 g2 <= pow2 (-46))%Q as Hp2 by (by apply pow2_le).
  assert (pow2 (-46) == 1 # 70368744177664)%Q as E46 by done.
  assert (pow2 (-45) == 1 # 35184372088832)%Q as E45 by done.
  pose proof (pow2_pos g2) as Hg2pos.
  assert (0 < vz)%Q as Hvz0.
  { unfold vz. pose proof (pow2_pos ez).
    assert (0 < inject_Z (Zpos mz))%Q by done. nra. }
  assert (vz < pow2 53)%Q as Hvz53.
  { assert (128 < pow2 53)%Q by done. lra. }
  destruct N2 as (_ & _ & [N2a N2b] & _).
  (* the integer nearest to it *)
  unfold JS.round.
  rewrite (integral_number _ mz ez Qround_proper Qround_Z Hdz Hvz53).
  fold vz. set (p := Qfloor (vz + (1 # 2))%Q).
  pose proof (Qfloor_le (vz + (1 # 2))%Q) as P1.
  pose proof (Qlt_floor (vz + (1 # 2))%Q) as P2.
  fold p in P1, P2. rewrite inject_Z_plus in P2.
  change (inject_Z 1) with 1%Q in P2.
  exists p. split; [done|].
  assert (100 * inject_Z a / inject_Z b == 100 * x)%Q as -> by (unfold x; field; lra).
  split; [|split; lra].
  assert (inject_Z (-1) < inject_Z p)%Q as H1
    by (change (inject_Z (-1)) with (-1)%Q; lra).
  assert (inject_Z p < inject_Z 101)%Q as H2
    by (change (inject_Z 101) with 101%Q; lra).
  rewrite <- Zlt_Qlt in H1, H2. lia.
Qed.

(** *** Comparison *)

(** Two positive doubles compare by exponent first, then by mantissa, when
    both are normal; this is the half the part count needs. *)
Lemma SFleb_above m1 e1 m2 e2 :
  e2 < e1 \/ (e1 = e2 /\ Z.pos m2 < Z.pos m1) ->
  SFleb (S754_finite false m1 e1) (S754_finite false m2 e2) = false.
Proof.
  intros H. unfold SFleb, SFcompare.
  destruct (Z.compare_spec e1 e2) as [He | ? | ?]; [|lia|done].
  assert (PosDef.Pos.compare_cont Eq m1 m2 = Gt) as ->; [|done].
  apply Pos.compare_gt_iff. lia.
Qed.

(** [numParts <= 2] on the double of an integer. *)
Lemma leb_number n :
  0 <= n < 2 ^ 53 -> JS.leb (JS.number n) (JS.number 2) = (n <=? 2).
Proof.
  intros Hn.
  destruct (Z.eq_dec n 0) as [-> | ?]; [by vm_compute|].
  destruct (Z.eq_dec n 1) as [-> | ?]; [by vm_compute|].
  destruct (Z.eq_dec n 2) as [-> | ?]; [by vm_compute|].
  destruct (number_exact n ltac:(lia)) as (m & e & -> & Hd & Hv & He).
  destruct (Z.leb_spec n 2); [lia|].
  assert (JS.number 2 = S754_finite false 4503599627370496 (-51)) as ->
    by (by vm_compute).
  apply SFleb_above.
  assert (pow2 1 <= inject_Z (Z.pos m) * pow2 e)%Q as Hlo.
  { rewrite Hv. assert (pow2 1 = inject_Z 2) as -> by (by vm_compute).
    rewrite <- Zle_Qle. lia. }
  assert (inject_Z (Z.pos m) * pow2 e < pow2 53)%Q as Hhi.
  { rewrite Hv, (pow2_Z 53) by lia. rewrite <- Zlt_Qlt. lia. }
  pose proof (normal_exponent m e 1 53 Hd Hlo Hhi) as Hr.
  destruct (Z.eq_dec e (-51)) as [-> | ?]; [right | lia].
  split; [done|].
  assert (pow2 (-51) = (1 # 2251799813685248)%Q) as E by (by vm_compute).
  rewrite E in Hv.
  assert (inject_Z (Z.pos m) == inject_Z (n * 2251799813685248))%Q as Hm.
  { rewrite inject_Z_mult, <- Hv. field. }
  apply (proj1 (inject_Z_injective _ _)) in Hm. lia.
Qed.

(** ** Arithmetic of the progress reports *)

(** The sum of the cache after one entry is written, and after one is
    deleted. *)
Lemma inProgress_insert k v cache :
  inProgress (<[k := v]> cache) = inProgress cache - default 0 (cache !! k) + v.
Proof.
  unfold inProgress.
  assert (forall (m : gmap Z Z) i x, m !! i = None ->
            map_fold (fun _ loaded memo => memo + loaded) 0 (<[i := x]> m)
            = map_fold (fun _ loaded memo => memo + loaded) 0 m + x) as Hins.
  { intros m i x Hi.
    rewrite (map_fold_insert_L (fun _ loaded memo => memo + loaded) 0 i x m);
      [done | intros; lia | done]. }
  destruct (cache !! k) as [old|] eqn:E; cbn.
  - rewrite <- (insert_delete_id cache k old E) at 2.
    rewrite <- (insert_delete_eq cache).
    rewrite !Hins by apply lookup_delete_eq. lia.
  - rewrite Hins by done. lia.
Qed.

Lemma inProgress_delete k cache :
  inProgress (delete k cache) = inProgress cache - default 0 (cache !! k).
Proof.
  destruct (cache !! k) as [old|] eqn:E; cbn.
  - rewrite <- (insert_delete_id cache k old E) at 2.
    rewrite inProgress_insert, lookup_delete_eq. cbn. lia.
  - rewrite delete_id by done. lia.
Qed.

(** A rational within [1/2 + 2 ^ -45] of [100 * a / b] is, for [b] below
    [2 ^ 44], an integer nearest to it. *)
Lemma nearest_percent a b p :
  0 < b < 2 ^ 44 ->
  (100 * inject_Z a / inject_Z b - (1 # 2) - pow2 (-45) < inject_Z p
   /\ inject_Z p <= 100 * inject_Z a / inject_Z b + (1 # 2) + pow2 (-45))%Q ->
  2 * b * p - b <= 200 * a <= 2 * b * p + b.
Proof.
  intros [Hb0 Hb] [Hlo Hhi].
  assert (0 < inject_Z b)%Q as Hb0'
    by (change 0%Q with (inject_Z 0); by rewrite <- Zlt_Qlt).
  assert (inject_Z b < inject_Z (2 ^ 44))%Q as Hb' by (by rewrite <- Zlt_Qlt).
  assert (inject_Z (2 ^ 44) = 17592186044416%Q) as E by (by vm_compute).
  rewrite E in Hb'. clear E.
  assert (pow2 (-45) = (1 # 35184372088832)%Q) as E by (by vm_compute).
  rewrite E in Hlo, Hhi. clear E.
  set (x := (100 * inject_Z a / inject_Z b)%Q) in *.
  assert (x * inject_Z b == 100 * inject_Z a)%Q as Hx
    by (unfold x; field; lra).
  clearbody x.
  assert (200 * a - b - 1 < 2 * b * p < 200 * a + b + 1); [|lia].
  rewrite !Zlt_Qlt.
  unfold Z.sub. rewrite !inject_Z_plus, !inject_Z_opp, !inject_Z_mult.
  change (inject_Z 200) with 200%Q. change (inject_Z 2) with 2%Q.
  change (inject_Z 1) with 1%Q.
  generalize dependent (inject_Z a). generalize dependent (inject_Z b).
  generalize dependent (inject_Z p). intros P B HB0 HB A Hx.
  split; nra.
Qed.


(** ** The concurrency ceiling *)

Section Ceiling.

Variable cap : Z.

Lemma within_ceiling_frame s s' :
  plan s' = plan s -> peak s' = peak s ->
  (size (activeConnections s') <= size (activeConnections s))%nat ->
  within_ceiling cap s -> within_ceiling cap s'.
Proof.
  unfold within_ceiling. intros -> -> ? (? & ? & ?). repeat split; lia.
Qed.

Create HintDb ceiling.

Ltac ceiling_frame :=
  match goal with
  | H : within_ceiling cap ?s |- within_ceiling cap _ =>
      apply (within_ceiling_frame s); [reflexivity | reflexivity | | exact H];
      cbn; try lia
  end.

Ltac ceiling := descend ltac:(eauto 12 with ceiling).

Lemma ceiling_emit e s :
  within_ceiling cap s -> within_ceiling cap (emit e s).
Proof. intros. ceiling_frame. Qed.
Lemma ceiling_enqueue r s :
  within_ceiling cap s -> within_ceiling cap (enqueue r s).
Proof. intros. ceiling_frame. Qed.
Lemma ceiling_add_call k s :
  within_ceiling cap s -> within_ceiling cap (add_call k s).
Proof. intros. ceiling_frame. Qed.
Lemma ceiling_upd_conn i f s :
  within_ceiling cap s -> within_ceiling cap (upd_conn i f s).
Proof. intros. ceiling_frame. Qed.
Lemma ceiling_set_xhr v s :
  within_ceiling cap s -> within_ceiling cap (set_xhr v s).
Proof. intros. ceiling_frame. Qed.
Lemma ceiling_set_parts v s :
  within_ceiling cap s -> within_ceiling cap (set_parts v s).
Proof. intros. ceiling_frame. Qed.
Lemma ceiling_set_uploadedParts v s :
  within_ceiling cap s -> within_ceiling cap (set_uploadedParts v s).
Proof. intros. ceiling_frame. Qed.
Lemma ceiling_set_uploadId v s :
  within_ceiling cap s -> within_ceiling cap (set_uploadId v s).
Proof. intros. ceiling_frame. Qed.
Lemma ceiling_set_uploadedSize v s :
  within_ceiling cap s -> within_ceiling cap (set_uploadedSize v s).
Proof. intros. ceiling_frame. Qed.
Lemma ceiling_set_progressCache v s :
  within_ceiling cap s -> within_ceiling cap (set_progressCache v s).
Proof. intros. ceiling_frame. Qed.
Lemma ceiling_set_conns v s :
  within_ceiling cap s -> within_ceiling cap (set_conns v s).
Proof. intros. ceiling_frame. Qed.
Lemma ceiling_set_reactions v s :
  within_ceiling cap s -> within_ceiling cap (set_reactions v s).
Proof. intros. ceiling_frame. Qed.
Lemma ceiling_set_timers v s :
  within_ceiling cap s -> within_ceiling cap (set_timers v s).
Proof. intros. ceiling_frame. Qed.
Lemma ceiling_set_calls v s :
  within_ceiling cap s -> within_ceiling cap (set_calls v s).
Proof. intros. ceiling_frame. Qed.
Lemma ceiling_set_online v s :
  within_ceiling cap s -> within_ceiling cap (set_online v s).
Proof. intros. ceiling_frame. Qed.
Lemma ceiling_set_uuids v s :
  within_ceiling cap s -> within_ceiling cap (set_uuids v s).
Proof. intros. ceiling_frame. Qed.
Hint Resolve ceiling_emit ceiling_enqueue ceiling_add_call ceiling_upd_conn
  ceiling_set_xhr ceiling_set_parts ceiling_set_uploadedParts
  ceiling_set_uploadId ceiling_set_uploadedSize
  ceiling_set_progressCache ceiling_set_conns ceiling_set_reactions
  ceiling_set_timers ceiling_set_calls ceiling_set_online
  ceiling_set_uuids
  : ceiling.

Lemma ceiling_unregister k s :
within_ceiling cap s -> within_ceiling cap (unregister k s).
Proof.
intros. ceiling_frame. apply map_subseteq_size, delete_subseteq.
Qed.
Hint Resolve ceiling_unregister : ceiling.

(** Registering is the one step that can grow the registry: it needs
  room. *)
Lemma ceiling_register k cid s :
within_ceiling cap s ->
Z.of_nat (size (activeConnections s)) < maxConcurrentConnections (plan s) ->
within_ceiling cap (register k cid s).
Proof.
unfold within_ceiling, register. cbn. intros (? & ? & ?) ?.
rewrite map_size_insert.
destruct (activeConnections s !! k); cbn; repeat split; lia.
Qed.

Lemma ceiling_notify b e s :
  within_ceiling cap s -> within_ceiling cap (notify b e s).
Proof. intros. unfold notify. ceiling. Qed.
Hint Resolve ceiling_notify : ceiling.
Lemma ceiling_resolve cid st s :
  within_ceiling cap s -> within_ceiling cap (resolve cid st s).
Proof. intros. unfold resolve. ceiling. Qed.
Hint Resolve ceiling_resolve : ceiling.
Lemma ceiling_reject cid e s :
  within_ceiling cap s -> within_ceiling cap (reject cid e s).
Proof. intros. unfold reject. ceiling. Qed.
Hint Resolve ceiling_reject : ceiling.
Lemma ceiling_handleChunkProgress pn ty l s :
  within_ceiling cap s -> within_ceiling cap (handleChunkProgress pn ty l s).
Proof. intros. unfold handleChunkProgress. ceiling. Qed.
Hint Resolve ceiling_handleChunkProgress : ceiling.
Lemma ceiling_handleSinglePartProgress c l t s :
  within_ceiling cap s -> within_ceiling cap (handleSinglePartProgress c l t s).
Proof. intros. unfold handleSinglePartProgress. ceiling. Qed.
Hint Resolve ceiling_handleSinglePartProgress : ceiling.
Lemma ceiling_cleanup k s :
  within_ceiling cap s -> within_ceiling cap (cleanup k s).
Proof. intros. unfold cleanup. ceiling. Qed.
Hint Resolve ceiling_cleanup : ceiling.
Lemma ceiling_completeUpload c s :
  within_ceiling cap s -> within_ceiling cap (completeUpload c s).
Proof. intros. unfold completeUpload. ceiling. Qed.
Hint Resolve ceiling_completeUpload : ceiling.
Lemma ceiling_completeUpload_resume h s :
  within_ceiling cap s -> within_ceiling cap (completeUpload_resume h s).
Proof. intros. unfold completeUpload_resume. ceiling. Qed.
Hint Resolve ceiling_completeUpload_resume : ceiling.
Lemma ceiling_throwXHRError e cid b s :
  within_ceiling cap s -> within_ceiling cap (throwXHRError e cid b s).
Proof. intros. unfold throwXHRError. ceiling. Qed.
Hint Resolve ceiling_throwXHRError : ceiling.
Lemma ceiling_onreadystatechange cid st t s :
  within_ceiling cap s -> within_ceiling cap (onreadystatechange cid st t s).
Proof. intros. unfold onreadystatechange. ceiling. Qed.
Hint Resolve ceiling_onreadystatechange : ceiling.
Lemma ceiling_xhr_abort cid s :
  within_ceiling cap s -> within_ceiling cap (xhr_abort cid s).
Proof. intros. unfold xhr_abort. ceiling. Qed.
Hint Resolve ceiling_xhr_abort : ceiling.
Lemma ceiling_single_abort s :
  within_ceiling cap s -> within_ceiling cap (single_abort s).
Proof. intros. unfold single_abort. ceiling. Qed.
Hint Resolve ceiling_single_abort : ceiling.
Lemma ceiling_abort_connection s id :
  within_ceiling cap s -> within_ceiling cap (abort_connection s id).
Proof. intros. unfold abort_connection. ceiling. Qed.
Hint Resolve ceiling_abort_connection : ceiling.
Lemma ceiling_abort_all l s :
  within_ceiling cap s -> within_ceiling cap (foldl abort_connection s l).
Proof.
  revert s. induction l as [|k l IH]; intros s H; cbn; [done|].
  by apply IH, ceiling_abort_connection.
Qed.
Hint Resolve ceiling_abort_all : ceiling.
Lemma ceiling_abort s : within_ceiling cap s -> within_ceiling cap (abort s).
Proof. intros H. unfold abort. apply ceiling_abort_all. ceiling. Qed.
Hint Resolve ceiling_abort : ceiling.
(** The drive step registers a request only after it has found the
    registry below the ceiling. *)
Lemma ceiling_uploadNextChunk_on backlog retry s :
  within_ceiling cap s -> within_ceiling cap (uploadNextChunk_on backlog retry s).
Proof.
  revert retry s.
  induction backlog as [|part rest IH]; intros retry s H; cbn.
  - ceiling.
  - destruct (Z.leb_spec (maxConcurrentConnections (plan s))
                (Z.of_nat (size (activeConnections s)))); [done|].
    assert (within_ceiling cap
              (uploadNextChunk_on rest 0
                 (register (part_number part - 1) (length (conns s))
                    (set_conns
                       (conns s ++
                        [{| c_part := part; c_retry := retry;
                            c_settled := negb (online s); c_done := false;
                            c_listening := false |}])
                       (set_parts rest s))))) as H'.
    { apply IH, ceiling_register; [ceiling | cbn; lia]. }
    ceiling.
Qed.
Hint Resolve ceiling_uploadNextChunk_on : ceiling.
Lemma ceiling_uploadNextChunk retry s :
  within_ceiling cap s -> within_ceiling cap (uploadNextChunk retry s).
Proof. intros. unfold uploadNextChunk. ceiling. Qed.
Hint Resolve ceiling_uploadNextChunk : ceiling.
Lemma ceiling_onChunkFailure part retry e s :
  within_ceiling cap s -> within_ceiling cap (onChunkFailure part retry e s).
Proof. intros. unfold onChunkFailure. ceiling. Qed.
Hint Resolve ceiling_onChunkFailure : ceiling.
Lemma ceiling_onTimer tid s :
  within_ceiling cap s -> within_ceiling cap (onTimer tid s).
Proof. intros. unfold onTimer. ceiling. Qed.
Hint Resolve ceiling_onTimer : ceiling.
Lemma ceiling_single_settle r s :
  within_ceiling cap s -> within_ceiling cap (single_settle r s).
Proof. intros. unfold single_settle. ceiling. Qed.
Hint Resolve ceiling_single_settle : ceiling.
Lemma ceiling_uploadFile url headers s :
  within_ceiling cap s -> within_ceiling cap (uploadFile url headers s).
Proof.
  intros H. unfold uploadFile. apply ceiling_emit.
  assert (within_ceiling cap
            (emit (SingleOpen url)
               (set_xhr (Some {| sx_sent := true; sx_done := false;
                                 sx_settled := false |}) s))) as H'
    by ceiling.
  revert H'.
  generalize (emit (SingleOpen url)
                (set_xhr (Some {| sx_sent := true; sx_done := false;
                                  sx_settled := false |}) s)).
  induction headers as [|kv l IH]; intros u Hu; cbn; [done|].
  apply IH. ceiling.
Qed.
Hint Resolve ceiling_uploadFile : ceiling.
Lemma ceiling_start_resume m s :
  within_ceiling cap s -> within_ceiling cap (start_resume m s).
Proof. intros. unfold start_resume, singlePartUpload. ceiling. Qed.
Hint Resolve ceiling_start_resume : ceiling.
Lemma ceiling_uploadPreflight s :
  within_ceiling cap s -> within_ceiling cap (uploadPreflight s).
Proof. intros. unfold uploadPreflight. ceiling. Qed.
Hint Resolve ceiling_uploadPreflight : ceiling.
Lemma ceiling_single_onload st s :
  within_ceiling cap s -> within_ceiling cap (single_onload st s).
Proof. intros. unfold single_onload. ceiling. Qed.
Hint Resolve ceiling_single_onload : ceiling.
Lemma ceiling_single_finish s :
  within_ceiling cap s -> within_ceiling cap (single_finish s).
Proof. intros. unfold single_finish. ceiling. Qed.
Hint Resolve ceiling_single_finish : ceiling.
Lemma ceiling_tick s :
  within_ceiling cap s -> within_ceiling cap (tick s).
Proof. intros. unfold tick. ceiling. Qed.
Hint Resolve ceiling_tick : ceiling.
Lemma ceiling_answer i s k s' :
  answer i s = Some (k, s') -> within_ceiling cap s -> within_ceiling cap s'.
Proof.
  unfold answer. intros E H.
  repeat case_match; simplify_eq. ceiling.
Qed.

Lemma ceiling_task ev s : within_ceiling cap s -> within_ceiling cap (task ev s).
Proof.
  intros H. destruct ev; cbn; try (by ceiling).
  all: destruct (answer call s) as [[k u]|] eqn:E; [|done];
    apply ceiling_answer in E; [|done]; ceiling.
Qed.

Lemma ceiling_step s ev : within_ceiling cap s -> within_ceiling cap (step s ev).
Proof.
  intros H. unfold step.
  destruct ev; try (apply ceiling_tick; done);
    (destruct (reactions s); [by apply ceiling_task | done]).
Qed.

Lemma ceiling_run evs s : within_ceiling cap s -> within_ceiling cap (run s evs).
Proof.
  revert s. induction evs as [|ev evs IH]; intros s H; cbn; [done|].
  by apply IH, ceiling_step.
Qed.

End Ceiling.


(** ** One destination id *)

Section OneId.

Variable dest : string.

Lemma one_id_componentId s : one_id dest s -> componentId s = dest.
Proof. by intros [? ?]. Qed.

Lemma one_id_frame s s' :
  componentId s' = componentId s -> log s' = log s ->
  one_id dest s -> one_id dest s'.
Proof. unfold one_id. by intros -> ->. Qed.

Create HintDb ids.

Ltac ids_frame :=
  match goal with
  | H : one_id dest ?s |- one_id dest _ =>
      apply (one_id_frame s); [reflexivity | reflexivity | exact H]
  end.

Lemma ids_emit e s :
  effect_uses dest e -> one_id dest s -> one_id dest (emit e s).
Proof.
  unfold one_id, emit. cbn. intros ? [? ?]. split; [done|].
  apply Forall_app. split; [done|]. by constructor.
Qed.
Hint Resolve ids_emit one_id_componentId : ids.
Hint Extern 1 (effect_uses _ _) => cbn; repeat constructor : ids.
Hint Extern 1 (operation_uses _ _) => cbn; repeat constructor : ids.

Ltac ids := descend ltac:(eauto 12 with ids).

Lemma ids_enqueue r s :
  one_id dest s -> one_id dest (enqueue r s).
Proof. intros. ids_frame. Qed.
Lemma ids_add_call k s :
  one_id dest s -> one_id dest (add_call k s).
Proof. intros. ids_frame. Qed.
Lemma ids_upd_conn i f s :
  one_id dest s -> one_id dest (upd_conn i f s).
Proof. intros. ids_frame. Qed.
Lemma ids_set_xhr v s :
  one_id dest s -> one_id dest (set_xhr v s).
Proof. intros. ids_frame. Qed.
Lemma ids_set_parts v s :
  one_id dest s -> one_id dest (set_parts v s).
Proof. intros. ids_frame. Qed.
Lemma ids_set_uploadedParts v s :
  one_id dest s -> one_id dest (set_uploadedParts v s).
Proof. intros. ids_frame. Qed.
Lemma ids_set_uploadId v s :
  one_id dest s -> one_id dest (set_uploadId v s).
Proof. intros. ids_frame. Qed.
Lemma ids_set_uploadedSize v s :
  one_id dest s -> one_id dest (set_uploadedSize v s).
Proof. intros. ids_frame. Qed.
Lemma ids_set_progressCache v s :
  one_id dest s -> one_id dest (set_progressCache v s).
Proof. intros. ids_frame. Qed.
Lemma ids_set_conns v s :
  one_id dest s -> one_id dest (set_conns v s).
Proof. intros. ids_frame. Qed.
Lemma ids_set_reactions v s :
  one_id dest s -> one_id dest (set_reactions v s).
Proof. intros. ids_frame. Qed.
Lemma ids_set_timers v s :
  one_id dest s -> one_id dest (set_timers v s).
Proof. intros. ids_frame. Qed.
Lemma ids_set_calls v s :
  one_id dest s -> one_id dest (set_calls v s).
Proof. intros. ids_frame. Qed.
Lemma ids_set_online v s :
  one_id dest s -> one_id dest (set_online v s).
Proof. intros. ids_frame. Qed.
Lemma ids_set_uuids v s :
  one_id dest s -> one_id dest (set_uuids v s).
Proof. intros. ids_frame. Qed.
Lemma ids_set_peak v s :
  one_id dest s -> one_id dest (set_peak v s).
Proof. intros. ids_frame. Qed.
Lemma ids_set_activeConnections v s :
  one_id dest s -> one_id dest (set_activeConnections v s).
Proof. intros. ids_frame. Qed.
Lemma ids_register k c s :
  one_id dest s -> one_id dest (register k c s).
Proof. intros. ids_frame. Qed.
Lemma ids_unregister k s :
  one_id dest s -> one_id dest (unregister k s).
Proof. intros. ids_frame. Qed.
Hint Resolve ids_enqueue ids_add_call ids_upd_conn ids_set_xhr ids_set_parts
  ids_set_uploadedParts ids_set_uploadId ids_set_uploadedSize
  ids_set_progressCache ids_set_conns ids_set_reactions
  ids_set_timers ids_set_calls ids_set_online ids_set_uuids
  ids_set_peak ids_set_activeConnections ids_register ids_unregister
  : ids.

Lemma ids_notify b e s :
  effect_uses dest e -> one_id dest s -> one_id dest (notify b e s).
Proof. intros. unfold notify. ids. Qed.
Hint Resolve ids_notify : ids.
Lemma ids_resolve cid st s :
  one_id dest s -> one_id dest (resolve cid st s).
Proof. intros. unfold resolve. ids. Qed.
Hint Resolve ids_resolve : ids.
Lemma ids_reject cid e s :
  one_id dest s -> one_id dest (reject cid e s).
Proof. intros. unfold reject. ids. Qed.
Hint Resolve ids_reject : ids.
Lemma ids_handleChunkProgress pn ty l s :
  one_id dest s -> one_id dest (handleChunkProgress pn ty l s).
Proof. intros. unfold handleChunkProgress. ids. Qed.
Hint Resolve ids_handleChunkProgress : ids.
Lemma ids_handleSinglePartProgress c l t s :
  one_id dest s -> one_id dest (handleSinglePartProgress c l t s).
Proof. intros. unfold handleSinglePartProgress. ids. Qed.
Hint Resolve ids_handleSinglePartProgress : ids.
Lemma ids_cleanup k s :
  one_id dest s -> one_id dest (cleanup k s).
Proof. intros. unfold cleanup. ids. Qed.
Hint Resolve ids_cleanup : ids.
Lemma ids_completeUpload c s :
  one_id dest s -> one_id dest (completeUpload c s).
Proof. intros. unfold completeUpload. ids. Qed.
Hint Resolve ids_completeUpload : ids.
Lemma ids_completeUpload_resume h s :
  one_id dest s -> one_id dest (completeUpload_resume h s).
Proof. intros. unfold completeUpload_resume. ids. Qed.
Hint Resolve ids_completeUpload_resume : ids.
Lemma ids_throwXHRError e cid b s :
  one_id dest s -> one_id dest (throwXHRError e cid b s).
Proof. intros. unfold throwXHRError. ids. Qed.
Hint Resolve ids_throwXHRError : ids.
Lemma ids_onreadystatechange cid st t s :
  one_id dest s -> one_id dest (onreadystatechange cid st t s).
Proof. intros. unfold onreadystatechange. ids. Qed.
Hint Resolve ids_onreadystatechange : ids.
Lemma ids_xhr_abort cid s :
  one_id dest s -> one_id dest (xhr_abort cid s).
Proof. intros. unfold xhr_abort. ids. Qed.
Hint Resolve ids_xhr_abort : ids.
Lemma ids_single_abort s :
  one_id dest s -> one_id dest (single_abort s).
Proof. intros. unfold single_abort. ids. Qed.
Hint Resolve ids_single_abort : ids.
Lemma ids_abort_connection s id :
  one_id dest s -> one_id dest (abort_connection s id).
Proof. intros. unfold abort_connection. ids. Qed.
Hint Resolve ids_abort_connection : ids.
Lemma ids_abort_all l s :
  one_id dest s -> one_id dest (foldl abort_connection s l).
Proof.
  revert s. induction l as [|k l IH]; intros s H; cbn; [done|].
  by apply IH, ids_abort_connection.
Qed.
Hint Resolve ids_abort_all : ids.
Lemma ids_abort s : one_id dest s -> one_id dest (abort s).
Proof. intros H. unfold abort. apply ids_abort_all. ids. Qed.
Hint Resolve ids_abort : ids.
Lemma ids_uploadNextChunk_on backlog retry s :
  one_id dest s -> one_id dest (uploadNextChunk_on backlog retry s).
Proof.
  revert retry s.
  induction backlog as [|part rest IH]; intros retry s H; cbn.
  - ids.
  - destruct (maxConcurrentConnections (plan s) <=?
              Z.of_nat (size (activeConnections s))); [done|].
    assert (one_id dest
              (uploadNextChunk_on rest 0
                 (register (part_number part - 1) (length (conns s))
                    (set_conns
                       (conns s ++
                        [{| c_part := part; c_retry := retry;
                            c_settled := negb (online s); c_done := false;
                            c_listening := false |}])
                       (set_parts rest s))))) as H'
      by (apply IH; ids).
    ids.
Qed.
Hint Resolve ids_uploadNextChunk_on : ids.
Lemma ids_uploadNextChunk retry s :
  one_id dest s -> one_id dest (uploadNextChunk retry s).
Proof. intros. unfold uploadNextChunk. ids. Qed.
Hint Resolve ids_uploadNextChunk : ids.
Lemma ids_onChunkFailure part retry e s :
  one_id dest s -> one_id dest (onChunkFailure part retry e s).
Proof. intros. unfold onChunkFailure. ids. Qed.
Hint Resolve ids_onChunkFailure : ids.
Lemma ids_onTimer tid s :
  one_id dest s -> one_id dest (onTimer tid s).
Proof. intros. unfold onTimer. ids. Qed.
Hint Resolve ids_onTimer : ids.
Lemma ids_single_settle r s :
  one_id dest s -> one_id dest (single_settle r s).
Proof. intros. unfold single_settle. ids. Qed.
Hint Resolve ids_single_settle : ids.
Lemma ids_uploadFile url headers s :
  one_id dest s -> one_id dest (uploadFile url headers s).
Proof.
  intros H. unfold uploadFile. apply ids_emit; [done|].
  assert (one_id dest
            (emit (SingleOpen url)
               (set_xhr (Some {| sx_sent := true; sx_done := false;
                                 sx_settled := false |}) s))) as H'
    by ids.
  revert H'.
  generalize (emit (SingleOpen url)
                (set_xhr (Some {| sx_sent := true; sx_done := false;
                                  sx_settled := false |}) s)).
  induction headers as [|kv l IH]; intros u Hu; cbn; [done|].
  apply IH. ids.
Qed.
Hint Resolve ids_uploadFile : ids.
Lemma ids_start_resume m s :
  one_id dest s -> one_id dest (start_resume m s).
Proof. intros. unfold start_resume, singlePartUpload. ids. Qed.
Hint Resolve ids_start_resume : ids.
Lemma ids_uploadPreflight s :
  one_id dest s -> one_id dest (uploadPreflight s).
Proof. intros. unfold uploadPreflight. ids. Qed.
Hint Resolve ids_uploadPreflight : ids.
Lemma ids_single_onload st s :
  one_id dest s -> one_id dest (single_onload st s).
Proof. intros. unfold single_onload. ids. Qed.
Hint Resolve ids_single_onload : ids.
Lemma ids_single_finish s :
  one_id dest s -> one_id dest (single_finish s).
Proof. intros. unfold single_finish. ids. Qed.
Hint Resolve ids_single_finish : ids.
Lemma ids_tick s :
  one_id dest s -> one_id dest (tick s).
Proof. intros. unfold tick. ids. Qed.
Hint Resolve ids_tick : ids.
Lemma ids_answer i s k s' :
  answer i s = Some (k, s') -> one_id dest s -> one_id dest s'.
Proof.
  unfold answer. intros E H.
  repeat case_match; simplify_eq. ids.
Qed.

Lemma ids_task ev s : one_id dest s -> one_id dest (task ev s).
Proof.
  intros H. destruct ev; cbn; try (by ids).
  all: destruct (answer call s) as [[k u]|] eqn:E; [|done];
    apply ids_answer in E; [|done]; ids.
Qed.

Lemma ids_step s ev : one_id dest s -> one_id dest (step s ev).
Proof.
  intros H. unfold step.
  destruct ev; try (apply ids_tick; done);
    (destruct (reactions s); [by apply ids_task | done]).
Qed.

Lemma ids_run evs s : one_id dest s -> one_id dest (run s evs).
Proof.
  revert s. induction evs as [|ev evs IH]; intros s H; cbn; [done|].
  by apply IH, ids_step.
Qed.

End OneId.


(** ** The registry of active connections *)

Section Registry.

Lemma registry_ok_frame s s' :
  activeConnections s' = activeConnections s ->
  keyOrder s' = keyOrder s ->
  conns s' = conns s ->
  registry_ok s -> registry_ok s'.
Proof. unfold registry_ok, ordered_keys, registered. by intros -> -> ->. Qed.

(** The order of the keys follows the registry. *)
Lemma ordered_keys_unregister k s :
  ordered_keys s -> ordered_keys (unregister k s).
Proof.
  unfold ordered_keys, unregister. cbn. intros (Hnd & Hall & Hmap).
  rewrite Forall_forall in Hall. split; [|split].
  - by apply NoDup_filter.
  - apply Forall_forall. intros x Hx.
    apply list_elem_of_filter in Hx as [Hne Hx].
    destruct (Hall x Hx) as [Hi Hs]. split; [done|].
    by rewrite lookup_delete_ne.
  - intros x v Hx. apply lookup_delete_Some in Hx as [Hne Hx].
    destruct (Hmap x v Hx) as [?|Hin]; [by left|right].
    by apply list_elem_of_filter.
Qed.

Lemma ordered_keys_register k cid s :
  ordered_keys s -> ordered_keys (register k cid s).
Proof.
  unfold ordered_keys, register. cbn. intros (Hnd & Hall & Hmap).
  rewrite Forall_forall in Hall.
  assert (forall x, is_Some (activeConnections s !! x) ->
                    is_Some (<[k := cid]> (activeConnections s) !! x)) as Hkeep.
  { intros x Hx. apply lookup_insert_is_Some'. by right. }
  destruct (JS.is_index k) eqn:Hk; [|destruct (activeConnections s !! k) eqn:E].
  - split; [done|]. split.
    + apply Forall_forall. intros x Hx. destruct (Hall x Hx). auto.
    + apply map_Forall_insert_2; [by left|done].
  - split; [done|]. split.
    + apply Forall_forall. intros x Hx. destruct (Hall x Hx). auto.
    + apply map_Forall_insert_2; [|done].
      destruct (Hmap k _ E) as [Hi|?]; [congruence | by right].
  - split; [|split].
    + apply NoDup_app. split; [done|]. split; [|apply NoDup_singleton].
      intros x Hx ->%list_elem_of_singleton.
      destruct (Hall k Hx) as [_ [v Hv]]. congruence.
    + apply Forall_app. split.
      * apply Forall_forall. intros x Hx. destruct (Hall x Hx). auto.
      * apply Forall_singleton. split; [done|]. by rewrite lookup_insert_eq.
    + apply map_Forall_insert_2.
      * right. apply elem_of_app. right. by apply list_elem_of_singleton.
      * intros x v Hx. destruct (Hmap x v Hx) as [?|?]; [by left|right].
        apply elem_of_app. by left.
Qed.

Create HintDb rok.

Ltac rok_frame :=
  match goal with
  | H : registry_ok ?s |- registry_ok _ =>
      apply (registry_ok_frame s);
        [reflexivity | reflexivity | reflexivity | exact H]
  end.

Ltac rok := descend ltac:(eauto 12 with rok).

Lemma rok_emit e s :
  registry_ok s -> registry_ok (emit e s).
Proof. intros. rok_frame. Qed.
Lemma rok_enqueue r s :
  registry_ok s -> registry_ok (enqueue r s).
Proof. intros. rok_frame. Qed.
Lemma rok_add_call k s :
  registry_ok s -> registry_ok (add_call k s).
Proof. intros. rok_frame. Qed.
Lemma rok_set_xhr v s :
  registry_ok s -> registry_ok (set_xhr v s).
Proof. intros. rok_frame. Qed.
Lemma rok_set_parts v s :
  registry_ok s -> registry_ok (set_parts v s).
Proof. intros. rok_frame. Qed.
Lemma rok_set_uploadedParts v s :
  registry_ok s -> registry_ok (set_uploadedParts v s).
Proof. intros. rok_frame. Qed.
Lemma rok_set_uploadId v s :
  registry_ok s -> registry_ok (set_uploadId v s).
Proof. intros. rok_frame. Qed.
Lemma rok_set_uploadedSize v s :
  registry_ok s -> registry_ok (set_uploadedSize v s).
Proof. intros. rok_frame. Qed.
Lemma rok_set_progressCache v s :
  registry_ok s -> registry_ok (set_progressCache v s).
Proof. intros. rok_frame. Qed.
Lemma rok_set_reactions v s :
  registry_ok s -> registry_ok (set_reactions v s).
Proof. intros. rok_frame. Qed.
Lemma rok_set_timers v s :
  registry_ok s -> registry_ok (set_timers v s).
Proof. intros. rok_frame. Qed.
Lemma rok_set_calls v s :
  registry_ok s -> registry_ok (set_calls v s).
Proof. intros. rok_frame. Qed.
Lemma rok_set_online v s :
  registry_ok s -> registry_ok (set_online v s).
Proof. intros. rok_frame. Qed.
Lemma rok_set_uuids v s :
  registry_ok s -> registry_ok (set_uuids v s).
Proof. intros. rok_frame. Qed.
Lemma rok_set_peak v s :
  registry_ok s -> registry_ok (set_peak v s).
Proof. intros. rok_frame. Qed.
Hint Resolve rok_emit rok_enqueue rok_add_call rok_set_xhr rok_set_parts
  rok_set_uploadedParts rok_set_uploadId rok_set_uploadedSize
  rok_set_progressCache rok_set_reactions rok_set_timers
  rok_set_calls rok_set_online rok_set_uuids rok_set_peak
  : rok.

Lemma rok_unregister k s : registry_ok s -> registry_ok (unregister k s).
Proof.
intros [H Ho]. split; [|by apply ordered_keys_unregister].
unfold unregister. cbn. by apply map_Forall_delete.
Qed.

(** A request keeps its part whatever happens to its flags. *)
Lemma rok_upd_conn i f s :
(forall c, c_part (f c) = c_part c) ->
registry_ok s -> registry_ok (upd_conn i f s).
Proof.
unfold registry_ok, registered, upd_conn. cbn. intros Hf [H Ho].
split; [|done]. intros key cid Hk.
specialize (H key cid Hk). cbn in H.
rewrite list_lookup_alter. destruct (decide (i = cid)) as [->|]; [|done].
destruct (conns s !! cid) as [c|]; [|done]. cbn in *. by rewrite Hf.
Qed.
Hint Resolve rok_unregister rok_upd_conn : rok.
Hint Extern 1 (forall c, c_part (_ c) = c_part c) => reflexivity : rok.

(** A dispatch appends the request and registers it under its key. *)
Lemma rok_dispatch part c s :
c_part c = part ->
registry_ok s ->
registry_ok
  (register (part_number part - 1) (length (conns s))
     (set_conns (conns s ++ [c]) s)).
Proof.
intros Hc [H Ho]. split.
2: { by apply ordered_keys_register, Ho. }
revert H. unfold registered, register. cbn. intros H.
apply map_Forall_insert_2.
- rewrite lookup_app_r, Nat.sub_diag by lia. cbn. by rewrite Hc.
- intros key cid Hk. specialize (H key cid Hk). cbn in H.
  destruct (conns s !! cid) as [c'|] eqn:E; [|done].
  by rewrite (lookup_app_l_Some _ _ _ _ E).
Qed.

Lemma rok_notify b e s :
  registry_ok s -> registry_ok (notify b e s).
Proof. intros. unfold notify. rok. Qed.
Hint Resolve rok_notify : rok.
Lemma rok_resolve cid st s :
  registry_ok s -> registry_ok (resolve cid st s).
Proof. intros. unfold resolve. rok. Qed.
Hint Resolve rok_resolve : rok.
Lemma rok_reject cid e s :
  registry_ok s -> registry_ok (reject cid e s).
Proof. intros. unfold reject. rok. Qed.
Hint Resolve rok_reject : rok.
Lemma rok_handleChunkProgress pn ty l s :
  registry_ok s -> registry_ok (handleChunkProgress pn ty l s).
Proof. intros. unfold handleChunkProgress. rok. Qed.
Hint Resolve rok_handleChunkProgress : rok.
Lemma rok_handleSinglePartProgress c l t s :
  registry_ok s -> registry_ok (handleSinglePartProgress c l t s).
Proof. intros. unfold handleSinglePartProgress. rok. Qed.
Hint Resolve rok_handleSinglePartProgress : rok.
Lemma rok_cleanup k s :
  registry_ok s -> registry_ok (cleanup k s).
Proof. intros. unfold cleanup. rok. Qed.
Hint Resolve rok_cleanup : rok.
Lemma rok_completeUpload c s :
  registry_ok s -> registry_ok (completeUpload c s).
Proof. intros. unfold completeUpload. rok. Qed.
Hint Resolve rok_completeUpload : rok.
Lemma rok_completeUpload_resume h s :
  registry_ok s -> registry_ok (completeUpload_resume h s).
Proof. intros. unfold completeUpload_resume. rok. Qed.
Hint Resolve rok_completeUpload_resume : rok.
Lemma rok_throwXHRError e cid b s :
  registry_ok s -> registry_ok (throwXHRError e cid b s).
Proof. intros. unfold throwXHRError. rok. Qed.
Hint Resolve rok_throwXHRError : rok.
Lemma rok_onreadystatechange cid st t s :
  registry_ok s -> registry_ok (onreadystatechange cid st t s).
Proof. intros. unfold onreadystatechange. rok. Qed.
Hint Resolve rok_onreadystatechange : rok.
Lemma rok_xhr_abort cid s :
  registry_ok s -> registry_ok (xhr_abort cid s).
Proof. intros. unfold xhr_abort. rok. Qed.
Hint Resolve rok_xhr_abort : rok.
Lemma rok_single_abort s :
  registry_ok s -> registry_ok (single_abort s).
Proof. intros. unfold single_abort. rok. Qed.
Hint Resolve rok_single_abort : rok.
Lemma rok_abort_connection s id :
  registry_ok s -> registry_ok (abort_connection s id).
Proof. intros. unfold abort_connection. rok. Qed.
Hint Resolve rok_abort_connection : rok.
Lemma rok_abort_all l s :
  registry_ok s -> registry_ok (foldl abort_connection s l).
Proof.
  revert s. induction l as [|k l IH]; intros s H; cbn; [done|].
  by apply IH, rok_abort_connection.
Qed.
Hint Resolve rok_abort_all : rok.
Lemma rok_abort s : registry_ok s -> registry_ok (abort s).
Proof. intros H. unfold abort. apply rok_abort_all. rok. Qed.
Hint Resolve rok_abort : rok.
Lemma rok_uploadNextChunk_on backlog retry s :
  registry_ok s -> registry_ok (uploadNextChunk_on backlog retry s).
Proof.
  revert retry s.
  induction backlog as [|part rest IH]; intros retry s H; cbn.
  - rok.
  - destruct (maxConcurrentConnections (plan s) <=?
              Z.of_nat (size (activeConnections s))); [done|].
    assert (registry_ok
              (uploadNextChunk_on rest 0
                 (register (part_number part - 1) (length (conns s))
                    (set_conns
                       (conns s ++
                        [{| c_part := part; c_retry := retry;
                            c_settled := negb (online s); c_done := false;
                            c_listening := false |}])
                       (set_parts rest s))))) as H'.
    { apply IH.
      by apply (rok_dispatch part _ (set_parts rest s)); [|rok]. }
    rok.
Qed.
Hint Resolve rok_uploadNextChunk_on : rok.
Lemma rok_uploadNextChunk retry s :
  registry_ok s -> registry_ok (uploadNextChunk retry s).
Proof. intros. unfold uploadNextChunk. rok. Qed.
Hint Resolve rok_uploadNextChunk : rok.
Lemma rok_onChunkFailure part retry e s :
  registry_ok s -> registry_ok (onChunkFailure part retry e s).
Proof. intros. unfold onChunkFailure. rok. Qed.
Hint Resolve rok_onChunkFailure : rok.
Lemma rok_onTimer tid s :
  registry_ok s -> registry_ok (onTimer tid s).
Proof. intros. unfold onTimer. rok. Qed.
Hint Resolve rok_onTimer : rok.
Lemma rok_single_settle r s :
  registry_ok s -> registry_ok (single_settle r s).
Proof. intros. unfold single_settle. rok. Qed.
Hint Resolve rok_single_settle : rok.
Lemma rok_uploadFile url headers s :
  registry_ok s -> registry_ok (uploadFile url headers s).
Proof.
  intros H. unfold uploadFile. apply rok_emit.
  assert (registry_ok
            (emit (SingleOpen url)
               (set_xhr (Some {| sx_sent := true; sx_done := false;
                                 sx_settled := false |}) s))) as H'
    by rok.
  revert H'.
  generalize (emit (SingleOpen url)
                (set_xhr (Some {| sx_sent := true; sx_done := false;
                                  sx_settled := false |}) s)).
  induction headers as [|kv l IH]; intros u Hu; cbn; [done|].
  apply IH. rok.
Qed.
Hint Resolve rok_uploadFile : rok.
Lemma rok_start_resume m s :
  registry_ok s -> registry_ok (start_resume m s).
Proof. intros. unfold start_resume, singlePartUpload. rok. Qed.
Hint Resolve rok_start_resume : rok.
Lemma rok_uploadPreflight s :
  registry_ok s -> registry_ok (uploadPreflight s).
Proof. intros. unfold uploadPreflight. rok. Qed.
Hint Resolve rok_uploadPreflight : rok.
Lemma rok_single_onload st s :
  registry_ok s -> registry_ok (single_onload st s).
Proof. intros. unfold single_onload. rok. Qed.
Hint Resolve rok_single_onload : rok.
Lemma rok_single_finish s :
  registry_ok s -> registry_ok (single_finish s).
Proof. intros. unfold single_finish. rok. Qed.
Hint Resolve rok_single_finish : rok.
Lemma rok_tick s :
  registry_ok s -> registry_ok (tick s).
Proof. intros. unfold tick. rok. Qed.
Hint Resolve rok_tick : rok.
Lemma rok_answer i s k s' :
  answer i s = Some (k, s') -> registry_ok s -> registry_ok s'.
Proof.
  unfold answer. intros E H.
  repeat case_match; simplify_eq. rok.
Qed.

Lemma rok_task ev s : registry_ok s -> registry_ok (task ev s).
Proof.
  intros H. destruct ev; cbn; try (by rok).
  all: destruct (answer call s) as [[k u]|] eqn:E; [|done];
    apply rok_answer in E; [|done]; rok.
Qed.

Lemma rok_step s ev : registry_ok s -> registry_ok (step s ev).
Proof.
  intros H. unfold step.
  destruct ev; try (apply rok_tick; done);
    (destruct (reactions s); [by apply rok_task | done]).
Qed.

Lemma rok_run evs s : registry_ok s -> registry_ok (run s evs).
Proof.
  revert s. induction evs as [|ev evs IH]; intros s H; cbn; [done|].
  by apply IH, rok_step.
Qed.

End Registry.


(** ** What [abort()] does to a multi-part session *)

Section AbortAll.

(** *** Cancelled requests stay cancelled *)

Lemma cancelled_frame cid s s' :
  log s' = log s -> conns s' = conns s -> cancelled cid s -> cancelled cid s'.
Proof. unfold cancelled. by intros -> ->. Qed.

Lemma cancelled_emit cid e s : cancelled cid s -> cancelled cid (emit e s).
Proof.
  unfold cancelled, emit, aborts. cbn. intros [? ?]. split; [|done].
  rewrite omap_app. apply elem_of_app. by left.
Qed.

Lemma cancelled_upd_conn cid i f s :
  (forall c, c_done c = true -> c_done (f c) = true) ->
  cancelled cid s -> cancelled cid (upd_conn i f s).
Proof.
  unfold cancelled, upd_conn. cbn. intros Hf [? H]. split; [done|].
  rewrite list_lookup_alter. destruct (decide (i = cid)) as [->|]; [|done].
  destruct (conns s !! cid) as [c|]; [|done]. cbn in *.
  f_equal. apply Hf. congruence.
Qed.

Create HintDb cancel.

Ltac cancelled_frame :=
  match goal with
  | H : cancelled ?cid ?s |- cancelled ?cid _ =>
      apply (cancelled_frame cid s); [reflexivity | reflexivity | exact H]
  end.

Lemma cancelled_enqueue cid r s : cancelled cid s -> cancelled cid (enqueue r s).
Proof. intros. cancelled_frame. Qed.
Lemma cancelled_unregister cid k s :
  cancelled cid s -> cancelled cid (unregister k s).
Proof. intros. cancelled_frame. Qed.
Lemma cancelled_set_progressCache cid v s :
  cancelled cid s -> cancelled cid (set_progressCache v s).
Proof. intros. cancelled_frame. Qed.
Lemma cancelled_set_uploadedSize cid v s :
  cancelled cid s -> cancelled cid (set_uploadedSize v s).
Proof. intros. cancelled_frame. Qed.
Hint Resolve cancelled_emit cancelled_upd_conn cancelled_enqueue
  cancelled_unregister cancelled_set_progressCache cancelled_set_uploadedSize
  : cancel.
Hint Extern 1 (forall c, c_done c = true -> c_done (_ c) = true) =>
  (intros ? ?; cbn; done) : cancel.

Ltac cancel := descend ltac:(eauto 12 with cancel).

Lemma cancelled_notify cid b e s : cancelled cid s -> cancelled cid (notify b e s).
Proof. intros. unfold notify. cancel. Qed.
Lemma cancelled_reject cid i e s : cancelled cid s -> cancelled cid (reject i e s).
Proof. intros. unfold reject. cancel. Qed.
Hint Resolve cancelled_notify cancelled_reject : cancel.
Lemma cancelled_handleChunkProgress cid pn ty l s :
  cancelled cid s -> cancelled cid (handleChunkProgress pn ty l s).
Proof. intros. unfold handleChunkProgress. cancel. Qed.
Lemma cancelled_throwXHRError cid e i b s :
  cancelled cid s -> cancelled cid (throwXHRError e i b s).
Proof. intros. unfold throwXHRError. cancel. Qed.
Hint Resolve cancelled_handleChunkProgress cancelled_throwXHRError : cancel.
Lemma cancelled_xhr_abort cid i s :
  cancelled cid s -> cancelled cid (xhr_abort i s).
Proof. intros. unfold xhr_abort. cancel. Qed.
Hint Resolve cancelled_xhr_abort : cancel.
Lemma cancelled_abort_connection cid s k :
  cancelled cid s -> cancelled cid (abort_connection s k).
Proof. intros. unfold abort_connection. cancel. Qed.

Lemma cancelled_abort_all cid l s :
  cancelled cid s -> cancelled cid (foldl abort_connection s l).
Proof.
  revert s. induction l as [|k l IH]; intros s H; cbn; [done|].
  by apply IH, cancelled_abort_connection.
Qed.

(** *** One call of [xhr.abort()] *)

(** The request is cancelled afterwards. *)
Lemma xhr_abort_cancels cid c s :
  conns s !! cid = Some c -> cancelled cid (xhr_abort cid s).
Proof.
  intros Hc.
  assert (cid ∈ aborts (log (emit (XhrAbort cid) s))) as Hlog.
  { unfold emit, aborts. cbn. rewrite omap_app. apply elem_of_app.
    right. cbn. apply list_elem_of_singleton. done. }
  unfold xhr_abort. cbv zeta.
  change (conns (emit (XhrAbort cid) s)) with (conns s). rewrite Hc.
  destruct (c_done c) eqn:Hd.
  - split; [done|]. cbn. by rewrite Hc, <- Hd.
  - assert (cancelled cid (upd_conn cid finished (emit (XhrAbort cid) s))).
    { split; [done|]. cbn. by rewrite list_lookup_alter_eq, Hc. }
    cancel.
Qed.

(** The registry loses at most the key of the part the request carries. *)
Lemma handleChunkProgress_registry pn ty l s :
  activeConnections (handleChunkProgress pn ty l s) = activeConnections s
  /\ conns (handleChunkProgress pn ty l s) = conns s.
Proof. unfold handleChunkProgress, notify. by repeat case_match. Qed.

Lemma reject_registry cid e s :
  activeConnections (reject cid e s) = activeConnections s.
Proof. unfold reject. by repeat case_match. Qed.

Lemma throwXHRError_registry e cid b c s key :
  conns s !! cid = Some c ->
  key <> part_number (c_part c) - 1 ->
  activeConnections (throwXHRError e cid b s) !! key =
  activeConnections s !! key.
Proof.
  intros Hc Hk. unfold throwXHRError. rewrite Hc.
  destruct b; cbn; rewrite reject_registry; cbn; by rewrite lookup_delete_ne.
Qed.

Lemma xhr_abort_registry cid c s key :
  conns s !! cid = Some c ->
  key <> part_number (c_part c) - 1 ->
  activeConnections (xhr_abort cid s) !! key = activeConnections s !! key.
Proof.
  intros Hc Hk. unfold xhr_abort. cbv zeta.
  change (conns (emit (XhrAbort cid) s)) with (conns s). rewrite Hc.
  destruct (c_done c); [done|].
  rewrite (proj1 (handleChunkProgress_registry _ _ _ _)).
  rewrite (throwXHRError_registry _ _ _ (finished c)); [| |done].
  - by rewrite (proj1 (handleChunkProgress_registry _ _ _ _)).
  - rewrite (proj2 (handleChunkProgress_registry _ _ _ _)). cbn.
    by rewrite list_lookup_alter_eq, Hc.
Qed.

(** *** The loop of [abort()] *)

(** Aborting the request of one key leaves the other keys alone. *)
Lemma abort_connection_registry s k key :
  registry_ok s ->
  key <> k ->
  activeConnections (abort_connection s k) !! key = activeConnections s !! key.
Proof.
  intros Hs Hne. unfold abort_connection.
  destruct (activeConnections s !! k) as [cid|] eqn:Hk; [|done].
  pose proof (proj1 Hs _ _ Hk) as Hr.
  apply fmap_Some in Hr as (c & Hc & Hkey).
  apply (xhr_abort_registry cid c); [done|]. by rewrite <- Hkey.
Qed.

(** Every lookup of the loop finds its request: the keys were read from the
    registry, and no request of a later key is removed by an earlier
    abort. *)
Lemma abort_lookup_total l1 key l2 s :
  NoDup (l1 ++ key :: l2) ->
  registry_ok s ->
  is_Some (activeConnections s !! key) ->
  is_Some (activeConnections (foldl abort_connection s l1) !! key).
Proof.
  revert s. induction l1 as [|k l1 IH]; intros s Hnd Hs Hkey; cbn; [done|].
  cbn in Hnd. apply NoDup_cons in Hnd as [Hk Hnd].
  apply IH; [done | by apply rok_abort_connection |].
  rewrite abort_connection_registry; [done..|].
  intros ->. apply Hk. apply elem_of_app. right. by left.
Qed.

Lemma abort_all_cancels l :
  NoDup l ->
  forall s,
    registry_ok s ->
    forall key cid,
      key ∈ l ->
      activeConnections s !! key = Some cid ->
      cancelled cid (foldl abort_connection s l).
Proof.
  induction 1 as [|k l Hk Hl IH]; intros s Hs key cid Hin Hreg.
  - by apply elem_of_nil in Hin.
  - cbn. apply elem_of_cons in Hin as [->|Hin].
    + apply cancelled_abort_all. unfold abort_connection. rewrite Hreg.
      pose proof (proj1 Hs _ _ Hreg) as Hr.
      apply fmap_Some in Hr as (c & Hc & _). by eapply xhr_abort_cancels.
    + apply (IH _ (rok_abort_connection _ _ Hs) key cid Hin).
      rewrite abort_connection_registry; [done..|].
      intros ->. by apply Hk.
Qed.

Lemma elem_of_keys s key :
  ordered_keys s ->
  key ∈ JS.keys (activeConnections s) (keyOrder s)
  <-> is_Some (activeConnections s !! key).
Proof.
  intros (Hnd & Hall & Hmap). rewrite Forall_forall in Hall.
  unfold JS.keys.
  rewrite elem_of_app, merge_sort_Permutation, list_elem_of_filter,
    list_elem_of_fmap.
  split.
  - intros [[_ ([k v] & -> & Hkv)] | Hin].
    + apply elem_of_map_to_list in Hkv. by eexists.
    + by destruct (Hall _ Hin).
  - intros [v Hv]. destruct (Hmap _ _ Hv) as [Hi | Hin]; [left | by right].
    split; [done|]. exists (key, v). split; [done|].
    by apply elem_of_map_to_list.
Qed.

Lemma NoDup_keys s :
  ordered_keys s -> NoDup (JS.keys (activeConnections s) (keyOrder s)).
Proof.
  intros (Hnd & Hall & Hmap). rewrite Forall_forall in Hall. unfold JS.keys.
  apply NoDup_app. split; [|split; [|done]].
  - rewrite merge_sort_Permutation.
    apply NoDup_filter, NoDup_fst_map_to_list.
  - intros x Hx Hin. rewrite merge_sort_Permutation in Hx.
    apply list_elem_of_filter in Hx as [Hi _].
    destruct (Hall _ Hin) as [Hn _]. congruence.
Qed.

(** *** [abort()] issues no delete and reports no error *)

Section Silent.

Variable s0 : Uploader.

Lemma silent_frame s s' :
  log s' = log s -> calls s' = calls s -> xhr s' = xhr s ->
  componentId s' = componentId s -> plan s' = plan s ->
  silent s0 s -> silent s0 s'.
Proof. unfold silent. by intros -> -> -> -> ->. Qed.

Lemma silent_emit e s :
  deletes [e] = [] -> errors [e] = [] -> silent s0 s -> silent s0 (emit e s).
Proof.
  intros Hd He (? & ? & ? & ? & ? & ?). unfold silent.
  change (log (emit e s)) with (log s ++ [e]).
  unfold deletes, errors in *. rewrite !omap_app, Hd, He, !app_nil_r.
  by repeat split.
Qed.

Create HintDb silent.

Ltac silent_frame :=
  match goal with
  | H : silent s0 ?s |- silent s0 _ =>
      apply (silent_frame s); [reflexivity.. | exact H]
  end.

Lemma silent_enqueue r s : silent s0 s -> silent s0 (enqueue r s).
Proof. intros. silent_frame. Qed.
Lemma silent_upd_conn i f s : silent s0 s -> silent s0 (upd_conn i f s).
Proof. intros. silent_frame. Qed.
Lemma silent_unregister k s : silent s0 s -> silent s0 (unregister k s).
Proof. intros. silent_frame. Qed.
Lemma silent_set_progressCache v s :
  silent s0 s -> silent s0 (set_progressCache v s).
Proof. intros. silent_frame. Qed.
Lemma silent_set_uploadedSize v s :
  silent s0 s -> silent s0 (set_uploadedSize v s).
Proof. intros. silent_frame. Qed.
Hint Resolve silent_emit silent_enqueue silent_upd_conn silent_unregister
  silent_set_progressCache silent_set_uploadedSize : silent.
Hint Extern 1 (deletes [_] = []) => reflexivity : silent.
Hint Extern 1 (errors [_] = []) => reflexivity : silent.

Ltac silent := descend ltac:(eauto 12 with silent).

Lemma silent_reject i e s : silent s0 s -> silent s0 (reject i e s).
Proof. intros. unfold reject. silent. Qed.
Hint Resolve silent_reject : silent.
Lemma silent_handleChunkProgress pn ty l s :
  silent s0 s -> silent s0 (handleChunkProgress pn ty l s).
Proof. intros. unfold handleChunkProgress, notify. silent. Qed.
Lemma silent_throwXHRError e i b s :
  silent s0 s -> silent s0 (throwXHRError e i b s).
Proof. intros. unfold throwXHRError. silent. Qed.
Hint Resolve silent_handleChunkProgress silent_throwXHRError : silent.
Lemma silent_xhr_abort i s : silent s0 s -> silent s0 (xhr_abort i s).
Proof. intros. unfold xhr_abort. silent. Qed.
Hint Resolve silent_xhr_abort : silent.
Lemma silent_abort_connection s k :
  silent s0 s -> silent s0 (abort_connection s k).
Proof. intros. unfold abort_connection. silent. Qed.

Lemma silent_abort_all l s :
  silent s0 s -> silent s0 (foldl abort_connection s l).
Proof.
  revert s. induction l as [|k l IH]; intros s H; cbn; [done|].
  by apply IH, silent_abort_connection.
Qed.

(** With no single request in flight, [abort()] as a whole is silent. *)
Lemma silent_abort s :
  single_live s = false -> silent s0 s -> silent s0 (abort s).
Proof.
  intros Hl H. unfold abort. apply silent_abort_all.
  unfold single_abort. unfold single_live in Hl.
  destruct (xhr s) as [x|] eqn:Hx; [|done].
  cbv zeta. change (xhr (emit SingleAbort s)) with (xhr s).
  rewrite Hx, Hl. silent.
Qed.

End Silent.

Lemma silent_refl s : silent s s.
Proof. by repeat split. Qed.

(** [abort()] on a session whose single request is not in flight: every
    request of the registry is cancelled. *)
Lemma abort_cancels_registry s key cid :
  registry_ok s ->
  single_live s = false ->
  activeConnections s !! key = Some cid ->
  cancelled cid (abort s).
Proof.
  intros Hs Hl Hreg. unfold abort.
  set (u := match xhr s with Some _ => single_abort s | None => s end).
  assert (activeConnections u = activeConnections s
          /\ registry_ok u) as [Ha Hu].
  { subst u. destruct (xhr s) as [x|] eqn:Hx; [|done].
    split; [|by apply rok_single_abort].
    unfold single_abort. cbv zeta.
    change (xhr (emit SingleAbort s)) with (xhr s). rewrite Hx.
    unfold single_live in Hl. rewrite Hx in Hl. by rewrite Hl. }
  apply (abort_all_cancels _ (NoDup_keys u (proj2 Hu)) u Hu key cid).
  - apply elem_of_keys; [apply Hu|]. rewrite Ha. by eexists.
  - by rewrite Ha.
Qed.

End AbortAll.


(** ** Where the parts are *)

Section Tally.

Context {A : Type} (w : A -> bool).

Lemma tally_app l1 l2 : tally w (l1 ++ l2) = (tally w l1 + tally w l2)%nat.
Proof. induction l1 as [|x l1 IH]; cbn; [done|]. rewrite IH. lia. Qed.

(** Changing one element so that its weight does not grow. *)
Lemma tally_alter_le f i l :
  (forall x, w (f x) = true -> w x = true) ->
  (tally w (alter f i l) <= tally w l)%nat.
Proof.
  intros Hf. revert i. induction l as [|x l IH]; intros [|i]; cbn; try lia.
  - specialize (Hf x).
    destruct (w (f x)), (w x); first [lia | by specialize (Hf eq_refl)].
  - specialize (IH i). lia.
Qed.

(** Changing one element to a weightless one gives its weight back. *)
Lemma tally_alter_drop f i l x :
  l !! i = Some x -> w (f x) = false ->
  (tally w (alter f i l) + (if w x then 1 else 0) = tally w l)%nat.
Proof.
  revert i. induction l as [|y l IH]; intros [|i] Hi Hf; simplify_eq/=.
  - rewrite Hf. lia.
  - specialize (IH i Hi Hf). lia.
Qed.

Lemma tally_insert_drop i l x y :
  l !! i = Some x -> w y = false ->
  (tally w (<[i := y]> l) + (if w x then 1 else 0) = tally w l)%nat.
Proof.
  revert i. induction l as [|z l IH]; intros [|i] Hi Hy; simplify_eq/=.
  - rewrite Hy. lia.
  - specialize (IH i Hi Hy). lia.
Qed.

End Tally.

Lemma tally_insert_part k x l :
  tally (recorded k) (insert_part x l)
  = ((if recorded k x then 1 else 0) + tally (recorded k) l)%nat.
Proof.
  induction l as [|y l IH]; cbn; [done|].
  destruct (uploaded_part_number x <=? uploaded_part_number y); cbn; [done|].
  rewrite IH. lia.
Qed.

(** Sorting moves the recorded parts, it neither adds nor drops one. *)
Lemma tally_sort_parts k l :
  tally (recorded k) (sort_parts l) = tally (recorded k) l.
Proof.
  unfold sort_parts. induction l as [|x l IH]; cbn; [done|].
  by rewrite tally_insert_part, IH.
Qed.

Section Tokens.

Variable k : Z.

(** *** Steps that leave the count alone *)

Lemma tokens_frame s s' :
  parts s' = parts s -> conns s' = conns s -> reactions s' = reactions s ->
  timers s' = timers s -> uploadedParts s' = uploadedParts s ->
  tokens k s' = tokens k s.
Proof. unfold tokens. by intros -> -> -> -> ->. Qed.

Lemma tokens_upd_conn_le i f s :
  (forall c, in_flight k (f c) = true -> in_flight k c = true) ->
  (tokens k (upd_conn i f s) <= tokens k s)%nat.
Proof.
  intros Hf. unfold tokens, upd_conn. cbn.
  pose proof (tally_alter_le (in_flight k) f i (conns s) Hf). lia.
Qed.

Lemma tokens_enqueue r s :
  tokens k (enqueue r s)
  = (tokens k s + (if in_queue k r then 1 else 0))%nat.
Proof. unfold tokens, enqueue. cbn. rewrite tally_app. cbn. lia. Qed.

Lemma tokens_handleChunkProgress pn ty l s :
  tokens k (handleChunkProgress pn ty l s) = tokens k s.
Proof. unfold handleChunkProgress, notify. by repeat case_match. Qed.

Lemma conns_handleChunkProgress pn ty l s :
  conns (handleChunkProgress pn ty l s) = conns s.
Proof. unfold handleChunkProgress, notify. by repeat case_match. Qed.

Lemma online_handleChunkProgress pn ty l s :
  online (handleChunkProgress pn ty l s) = online s.
Proof. unfold handleChunkProgress, notify. by repeat case_match. Qed.

(** *** The end of a request *)

(** When a request that can still send events is over, the part it carried
    is no longer in flight. *)
Lemma tokens_finished cid c s :
  live cid s = Some c ->
  (tokens k (upd_conn cid finished s) + (if holds k (c_part c) then 1 else 0)
   = tokens k s)%nat.
Proof.
  unfold live. intros Hl.
  destruct (conns s !! cid) as [c'|] eqn:Hc; [|done].
  destruct (c_done c') eqn:Hd; simplify_eq.
  unfold tokens, upd_conn. cbn.
  pose proof (tally_alter_drop (in_flight k) finished cid (conns s) c Hc
                eq_refl) as H.
  unfold in_flight at 2 in H. rewrite Hd in H. cbn in H. lia.
Qed.

(** A rejection queues the part of the request at most once. *)
Lemma tokens_reject cid e c s :
  conns s !! cid = Some c ->
  (tokens k (reject cid e s)
   <= tokens k s + (if holds k (c_part c) then 1 else 0))%nat
  /\ online (reject cid e s) = online s.
Proof.
  intros Hc. unfold reject. rewrite Hc.
  destruct (c_settled c); [split; [lia | done]|].
  rewrite tokens_enqueue. split; [|done].
  pose proof (tokens_upd_conn_le cid settled s ltac:(done)).
  unfold in_queue. lia.
Qed.

Lemma tokens_throwXHRError e cid b c s :
  conns s !! cid = Some c ->
  (tokens k (throwXHRError e cid b s)
   <= tokens k s + (if holds k (c_part c) then 1 else 0))%nat
  /\ online (throwXHRError e cid b s) = online s.
Proof.
  intros Hc. unfold throwXHRError. rewrite Hc.
  destruct (tokens_reject cid e c (unregister (part_number (c_part c) - 1) s) Hc)
    as [Ht Ho].
  change (tokens k (unregister (part_number (c_part c) - 1) s))
    with (tokens k s) in Ht.
  destruct b; [|done]. split; [|done].
  etrans; [apply tokens_upd_conn_le|]; done.
Qed.

(** *** The invariant, step by step *)

Lemma accounted_le n s s' :
  online s' = online s -> (tokens k s' <= tokens k s)%nat ->
  accounted k n s -> accounted k n s'.
Proof. unfold accounted. intros -> ? [? ?]. split; [done | lia]. Qed.

Lemma accounted_frame n s s' :
  online s' = online s ->
  parts s' = parts s -> conns s' = conns s -> reactions s' = reactions s ->
  timers s' = timers s -> uploadedParts s' = uploadedParts s ->
  accounted k n s -> accounted k n s'.
Proof.
  intros Ho ? ? ? ? ?. apply accounted_le; [done|].
  by rewrite (tokens_frame s s').
Qed.

Create HintDb acc.

Ltac acc_frame :=
  match goal with
  | H : accounted k ?n ?s |- accounted k ?n _ =>
      apply (accounted_frame n s); [reflexivity.. | exact H]
  end.

Lemma acc_emit n e s : accounted k n s -> accounted k n (emit e s).
Proof. intros. acc_frame. Qed.
Lemma acc_add_call n c s : accounted k n s -> accounted k n (add_call c s).
Proof. intros. acc_frame. Qed.
Lemma acc_set_xhr n v s : accounted k n s -> accounted k n (set_xhr v s).
Proof. intros. acc_frame. Qed.
Lemma acc_set_uploadId n v s :
  accounted k n s -> accounted k n (set_uploadId v s).
Proof. intros. acc_frame. Qed.
Lemma acc_set_uploadedSize n v s :
  accounted k n s -> accounted k n (set_uploadedSize v s).
Proof. intros. acc_frame. Qed.
Lemma acc_set_progressCache n v s :
  accounted k n s -> accounted k n (set_progressCache v s).
Proof. intros. acc_frame. Qed.
Lemma acc_set_calls n v s : accounted k n s -> accounted k n (set_calls v s).
Proof. intros. acc_frame. Qed.
Lemma acc_set_uuids n v s : accounted k n s -> accounted k n (set_uuids v s).
Proof. intros. acc_frame. Qed.
Lemma acc_register n key c s :
  accounted k n s -> accounted k n (register key c s).
Proof. intros. acc_frame. Qed.
Lemma acc_unregister n key s :
  accounted k n s -> accounted k n (unregister key s).
Proof. intros. acc_frame. Qed.

Lemma acc_upd_conn n i f s :
  accounted k n s ->
  (forall c, in_flight k (f c) = true -> in_flight k c = true) ->
  accounted k n (upd_conn i f s).
Proof.
  intros H Hf. revert H. apply accounted_le; [done|].
  by apply tokens_upd_conn_le.
Qed.

Lemma acc_enqueue n r s :
  accounted k n s -> in_queue k r = false -> accounted k n (enqueue r s).
Proof.
  intros H Hr. revert H. apply accounted_le; [done|].
  rewrite tokens_enqueue, Hr. lia.
Qed.

Hint Resolve acc_emit acc_add_call acc_set_xhr acc_set_uploadId
  acc_set_uploadedSize acc_set_progressCache acc_set_calls acc_set_uuids
  acc_register acc_unregister acc_upd_conn acc_enqueue : acc.
Hint Extern 1 (forall c, in_flight _ (_ c) = true -> in_flight _ c = true) =>
  (intros ?; unfold in_flight; cbn; intros ?; done) : acc.
Hint Extern 1 (in_queue _ _ = false) => reflexivity : acc.

Ltac acc := descend ltac:(eauto 12 with acc nocore).

Lemma acc_notify n b e s : accounted k n s -> accounted k n (notify b e s).
Proof. intros. unfold notify. acc. Qed.
Hint Resolve acc_notify : acc.
Lemma acc_handleChunkProgress n pn ty l s :
  accounted k n s -> accounted k n (handleChunkProgress pn ty l s).
Proof. intros. unfold handleChunkProgress. acc. Qed.
Lemma acc_handleSinglePartProgress n c l t s :
  accounted k n s -> accounted k n (handleSinglePartProgress c l t s).
Proof. intros. unfold handleSinglePartProgress. acc. Qed.
Lemma acc_cleanup n c s : accounted k n s -> accounted k n (cleanup c s).
Proof. intros. unfold cleanup. acc. Qed.
Lemma acc_completeUpload_resume n h s :
  accounted k n s -> accounted k n (completeUpload_resume h s).
Proof. intros. unfold completeUpload_resume. acc. Qed.
Lemma acc_single_settle n r s :
  accounted k n s -> in_queue k r = false ->
  accounted k n (single_settle r s).
Proof. intros. unfold single_settle. acc. Qed.
Hint Resolve acc_handleChunkProgress acc_handleSinglePartProgress acc_cleanup
  acc_completeUpload_resume acc_single_settle : acc.
Lemma acc_single_abort n s :
  accounted k n s -> accounted k n (single_abort s).
Proof. intros. unfold single_abort. acc. Qed.
Lemma acc_single_onload n st s :
  accounted k n s -> accounted k n (single_onload st s).
Proof. intros. unfold single_onload. acc. Qed.
Lemma acc_single_finish n s :
  accounted k n s -> accounted k n (single_finish s).
Proof. intros. unfold single_finish. acc. Qed.
Lemma acc_uploadPreflight n s :
  accounted k n s -> accounted k n (uploadPreflight s).
Proof. intros. unfold uploadPreflight. acc. Qed.
Hint Resolve acc_single_abort acc_single_onload acc_single_finish
  acc_uploadPreflight : acc.

(** The sort of [completeUpload] keeps every recorded part. *)
Lemma acc_completeUpload n c s :
  accounted k n s -> accounted k n (completeUpload c s).
Proof.
  intros H. unfold completeUpload. cbv zeta.
  apply acc_add_call, acc_emit, acc_set_uuids.
  destruct (uploadedParts s) eqn:E; [done|]. rewrite <- E.
  revert H. apply accounted_le; [done|].
  unfold tokens. cbn. rewrite tally_sort_parts. lia.
Qed.
Hint Resolve acc_completeUpload : acc.

(** A request fails: what left the air is what the rejection queues. *)
Lemma acc_failure n e cid b c s u :
  live cid s = Some c ->
  tokens k u = tokens k (upd_conn cid finished s) ->
  conns u = conns (upd_conn cid finished s) ->
  online u = online s ->
  accounted k n s -> accounted k n (throwXHRError e cid b u).
Proof.
  intros Hl Ht Hc Ho.
  pose proof (tokens_finished cid c s Hl) as Hf.
  assert (conns u !! cid = Some (finished c)) as Hu.
  { rewrite Hc. cbn. rewrite list_lookup_alter_eq.
    unfold live in Hl. destruct (conns s !! cid) as [c'|]; [|done].
    destruct (c_done c'); by simplify_eq. }
  destruct (tokens_throwXHRError e cid b _ u Hu) as [Hle Ho'].
  apply accounted_le; [congruence|]. cbn in Hle. lia.
Qed.

Lemma acc_xhr_abort n cid s :
  accounted k n s -> accounted k n (xhr_abort cid s).
Proof.
  intros H. unfold xhr_abort. cbv zeta.
  change (conns (emit (XhrAbort cid) s)) with (conns s).
  destruct (conns s !! cid) as [c|] eqn:Hc; [|by acc].
  destruct (c_done c) eqn:Hd; [by acc|].
  apply acc_handleChunkProgress.
  assert (live cid (emit (XhrAbort cid) s) = Some c) as Hl.
  { unfold live. cbn. by rewrite Hc, Hd. }
  apply (acc_failure n _ cid false c (emit (XhrAbort cid) s)); [done| | | |by acc].
  - apply tokens_handleChunkProgress.
  - apply conns_handleChunkProgress.
  - by rewrite online_handleChunkProgress.
Qed.
Hint Resolve acc_xhr_abort : acc.

Lemma acc_abort_connection n s id :
  accounted k n s -> accounted k n (abort_connection s id).
Proof. intros. unfold abort_connection. acc. Qed.

Lemma acc_abort_all n l s :
  accounted k n s -> accounted k n (foldl abort_connection s l).
Proof.
  revert s. induction l as [|key l IH]; intros s H; cbn; [done|].
  by apply IH, acc_abort_connection.
Qed.

Lemma acc_abort n s : accounted k n s -> accounted k n (abort s).
Proof. intros H. unfold abort. apply acc_abort_all. acc. Qed.
Hint Resolve acc_abort : acc.

(** A response: the part leaves the air and, on success, is recorded. *)
Lemma acc_response n cid status eTag c s :
  live cid s = Some c ->
  accounted k n s ->
  accounted k n (onreadystatechange cid status eTag (upd_conn cid finished s)).
Proof.
  intros Hl H.
  pose proof (tokens_finished cid c s Hl) as Hf.
  assert (accounted k n (upd_conn cid finished s)) as Hfin.
  { revert H. apply accounted_le; [done | lia]. }
  assert (conns (upd_conn cid finished s) !! cid = Some (finished c)) as Hu.
  { cbn. rewrite list_lookup_alter_eq.
    unfold live in Hl. destruct (conns s !! cid) as [c'|]; [|done].
    destruct (c_done c'); by simplify_eq. }
  unfold onreadystatechange. rewrite Hu.
  destruct (status =? 200) eqn:Hst; [|done].
  destruct eTag as [t|]; [|done].
  destruct (JS.truthy_string t); [|done]. cbv zeta.
  apply acc_upd_conn; [|intros ?; unfold in_flight; cbn; by intros ?].
  apply acc_unregister.
  set (s2 := set_uploadedParts _ _).
  assert (accounted k n s2) as H2.
  { revert H. apply accounted_le; [done|].
    subst s2. unfold tokens in *. cbn in *. rewrite tally_app. cbn.
    unfold holds, recorded in *. cbn. lia. }
  unfold resolve. destruct (conns s2 !! cid) as [c2|]; [|done].
  destruct (c_settled c2); [done|].
  apply acc_enqueue; [|cbn; by rewrite Hst].
  apply acc_upd_conn; [done|intros ?; unfold in_flight; cbn; by intros ?].
Qed.

(** The drive step moves parts from the backlog into the air. *)
Lemma acc_uploadNextChunk_on n backlog retry s :
  parts s = backlog ->
  accounted k n s -> accounted k n (uploadNextChunk_on backlog retry s).
Proof.
  revert retry s.
  induction backlog as [|part rest IH]; intros retry s Hp H; cbn.
  - acc.
  - destruct (maxConcurrentConnections (plan s) <=?
              Z.of_nat (size (activeConnections s))); [done|].
    destruct H as [Ho Ht]. rewrite Ho. cbn.
    apply acc_emit, acc_upd_conn;
      [|intros ?; unfold in_flight; cbn; by intros ?].
    apply acc_emit, IH; [done|].
    split; [done|]. revert Ht. unfold tokens. cbn.
    rewrite Hp, tally_app. cbn. unfold in_flight. cbn. lia.
Qed.

Lemma acc_uploadNextChunk n retry s :
  accounted k n s -> accounted k n (uploadNextChunk retry s).
Proof. intros. by apply acc_uploadNextChunk_on. Qed.
Hint Resolve acc_uploadNextChunk : acc.

(** The retry governor: the part goes behind a timer, or is given up. *)
Lemma tokens_onChunkFailure part retry e s :
  online s = true ->
  (tokens k (onChunkFailure part retry e s)
   <= tokens k s + (if holds k part then 1 else 0))%nat
  /\ online (onChunkFailure part retry e s) = true.
Proof.
  intros Ho. unfold onChunkFailure.
  destruct (retry <=? 6).
  - split; [|done]. unfold tokens. cbn. rewrite tally_app. cbn.
    unfold in_backoff. cbn. lia.
  - assert (accounted k (tokens k s)
              (cleanup (AfterCleanupFatal e)
                 (abort (emit (LoggerError (PartGivingUp (part_number part))) s))))
      as [? ?] by (apply acc_cleanup, acc_abort, acc_emit; by split).
    split; [lia | done].
Qed.

Lemma acc_onTimer n tid s : accounted k n s -> accounted k n (onTimer tid s).
Proof.
  intros H. unfold onTimer.
  destruct (timers s !! tid) as [t|] eqn:Ht; [|done].
  destruct (t_armed t) eqn:Ha; [|done]. cbv zeta.
  apply acc_uploadNextChunk. revert H. apply accounted_le; [done|].
  unfold tokens. cbn.
  pose proof (tally_insert_drop (in_backoff k) tid (timers s) t
                {| t_part := t_part t; t_retry := t_retry t;
                   t_delay := t_delay t; t_armed := false |} Ht eq_refl) as Hd.
  unfold in_backoff at 2 in Hd. rewrite Ha in Hd. cbn in Hd. lia.
Qed.
Hint Resolve acc_onTimer : acc.

Lemma acc_uploadFile n url headers s :
  accounted k n s -> accounted k n (uploadFile url headers s).
Proof.
  intros H. unfold uploadFile. apply acc_emit.
  assert (accounted k n
            (emit (SingleOpen url)
               (set_xhr (Some {| sx_sent := true; sx_done := false;
                                 sx_settled := false |}) s))) as H'
    by acc.
  revert H'.
  generalize (emit (SingleOpen url)
                (set_xhr (Some {| sx_sent := true; sx_done := false;
                                  sx_settled := false |}) s)).
  induction headers as [|kv l IH]; intros u Hu; cbn; [done|].
  apply IH. acc.
Qed.

Lemma acc_tick n s : accounted k n s -> accounted k n (tick s).
Proof.
  intros H. unfold tick.
  destruct (reactions s) as [|r queue] eqn:Hq; [done|]. cbv zeta.
  assert (online (set_reactions queue s) = true
          /\ (tokens k (set_reactions queue s) + (if in_queue k r then 1 else 0)
              <= n)%nat) as [Ho Ht].
  { destruct H as [? Ht]. split; [done|]. revert Ht. unfold tokens. cbn.
    rewrite Hq. cbn. lia. }
  destruct r as [part retry status | part retry e | | e].
  - destruct (status =? 200) eqn:Hst.
    + apply acc_uploadNextChunk. split; [done | lia].
    + split; [done|]. rewrite tokens_enqueue. unfold in_queue in *.
      rewrite Hst in Ht. cbn [negb andb] in Ht. lia.
  - destruct (tokens_onChunkFailure part retry e _ Ho) as [? ?].
    split; [done|]. unfold in_queue in Ht. lia.
  - apply acc_completeUpload. split; [done | lia].
  - apply acc_notify. split; [done | lia].
Qed.

Lemma acc_answer n i s c s' :
  answer i s = Some (c, s') -> accounted k n s -> accounted k n s'.
Proof.
  unfold answer. intros E H.
  repeat case_match; simplify_eq. acc_frame.
Qed.

Lemma acc_task n ev s :
  calm ev = true -> accounted k n s -> accounted k n (task ev s).
Proof.
  intros Hc H. destruct ev; cbn; try done; try (by acc).
  - destruct (answer call s) as [[c u]|] eqn:E; [|done].
    apply (acc_answer n) in E; [|done]. acc.
  - destruct (answer call s) as [[c u]|] eqn:E; [|done].
    apply (acc_answer n) in E; [|done]. acc.
  - destruct (answer call s) as [[c u]|] eqn:E; [|done].
    apply (acc_answer n) in E; [|done]. acc.
  - destruct (live conn s) as [c|] eqn:Hl; [|done].
    by apply (acc_response n conn status eTag c).
  - destruct (live conn s) as [c|] eqn:Hl; [|done]. cbv zeta.
    apply (acc_failure n _ conn true c s); [done| | | |done].
    + apply tokens_handleChunkProgress.
    + apply conns_handleChunkProgress.
    + by rewrite online_handleChunkProgress.
  - destruct (live conn s) as [c|] eqn:Hl; [|done].
    by apply (acc_failure n _ conn true c s).
  - destruct up; [|done]. destruct H as [? ?]. by split.
Qed.

Lemma acc_step n s ev :
  calm ev = true -> accounted k n s -> accounted k n (step s ev).
Proof.
  intros Hc H. unfold step.
  destruct ev; try (apply acc_tick; done);
    (destruct (reactions s); [by apply acc_task | done]).
Qed.

Lemma acc_run n evs s :
  forallb calm evs = true -> accounted k n s -> accounted k n (run s evs).
Proof.
  revert s. induction evs as [|ev evs IH]; intros s Hc H; cbn; [done|].
  cbn in Hc. apply andb_true_iff in Hc as [? ?].
  by apply IH, acc_step.
Qed.

End Tokens.


(** ** A request keeps its part and its attempt count *)

Section Carries.

Variables (cid0 : nat) (part0 : MultiPartUploadPart) (retry0 : Z).

Lemma carries_frame s s' :
  conns s' = conns s ->
  carries cid0 part0 retry0 s -> carries cid0 part0 retry0 s'.
Proof. unfold carries. by intros ->. Qed.

Create HintDb carry.

Ltac carry_frame :=
  match goal with
  | H : carries cid0 part0 retry0 ?s |- carries cid0 part0 retry0 _ =>
      apply (carries_frame s); [reflexivity | exact H]
  end.

Ltac carry := descend ltac:(eauto 12 with carry nocore).

Lemma carry_emit e s :
  carries cid0 part0 retry0 s -> carries cid0 part0 retry0 (emit e s).
Proof. intros. carry_frame. Qed.
Lemma carry_enqueue r s :
  carries cid0 part0 retry0 s -> carries cid0 part0 retry0 (enqueue r s).
Proof. intros. carry_frame. Qed.
Lemma carry_add_call k s :
  carries cid0 part0 retry0 s -> carries cid0 part0 retry0 (add_call k s).
Proof. intros. carry_frame. Qed.
Lemma carry_set_xhr v s :
  carries cid0 part0 retry0 s -> carries cid0 part0 retry0 (set_xhr v s).
Proof. intros. carry_frame. Qed.
Lemma carry_set_parts v s :
  carries cid0 part0 retry0 s -> carries cid0 part0 retry0 (set_parts v s).
Proof. intros. carry_frame. Qed.
Lemma carry_set_uploadedParts v s :
  carries cid0 part0 retry0 s -> carries cid0 part0 retry0 (set_uploadedParts v s).
Proof. intros. carry_frame. Qed.
Lemma carry_set_uploadId v s :
  carries cid0 part0 retry0 s -> carries cid0 part0 retry0 (set_uploadId v s).
Proof. intros. carry_frame. Qed.
Lemma carry_set_uploadedSize v s :
  carries cid0 part0 retry0 s -> carries cid0 part0 retry0 (set_uploadedSize v s).
Proof. intros. carry_frame. Qed.
Lemma carry_set_progressCache v s :
  carries cid0 part0 retry0 s -> carries cid0 part0 retry0 (set_progressCache v s).
Proof. intros. carry_frame. Qed.
Lemma carry_set_reactions v s :
  carries cid0 part0 retry0 s -> carries cid0 part0 retry0 (set_reactions v s).
Proof. intros. carry_frame. Qed.
Lemma carry_set_timers v s :
  carries cid0 part0 retry0 s -> carries cid0 part0 retry0 (set_timers v s).
Proof. intros. carry_frame. Qed.
Lemma carry_set_calls v s :
  carries cid0 part0 retry0 s -> carries cid0 part0 retry0 (set_calls v s).
Proof. intros. carry_frame. Qed.
Lemma carry_set_online v s :
  carries cid0 part0 retry0 s -> carries cid0 part0 retry0 (set_online v s).
Proof. intros. carry_frame. Qed.
Lemma carry_set_uuids v s :
  carries cid0 part0 retry0 s -> carries cid0 part0 retry0 (set_uuids v s).
Proof. intros. carry_frame. Qed.
Lemma carry_set_peak v s :
  carries cid0 part0 retry0 s -> carries cid0 part0 retry0 (set_peak v s).
Proof. intros. carry_frame. Qed.
Lemma carry_set_activeConnections v s :
  carries cid0 part0 retry0 s -> carries cid0 part0 retry0 (set_activeConnections v s).
Proof. intros. carry_frame. Qed.
Lemma carry_register k c s :
  carries cid0 part0 retry0 s -> carries cid0 part0 retry0 (register k c s).
Proof. intros. carry_frame. Qed.
Lemma carry_unregister k s :
  carries cid0 part0 retry0 s -> carries cid0 part0 retry0 (unregister k s).
Proof. intros. carry_frame. Qed.
Hint Resolve carry_emit carry_enqueue carry_add_call carry_set_xhr carry_set_parts
  carry_set_uploadedParts carry_set_uploadId carry_set_uploadedSize
  carry_set_progressCache carry_set_reactions carry_set_timers
  carry_set_calls carry_set_online carry_set_uuids carry_set_peak
  carry_set_activeConnections carry_register carry_unregister
  : carry.

Lemma carry_upd_conn i f s :
carries cid0 part0 retry0 s ->
(forall c, c_part (f c) = c_part c /\ c_retry (f c) = c_retry c) ->
carries cid0 part0 retry0 (upd_conn i f s).
Proof.
unfold carries, upd_conn. cbn. intros (c & Hc & <- & <-) Hf.
rewrite list_lookup_alter. destruct (decide (i = cid0)) as [->|]; [|eauto].
rewrite Hc. cbn. exists (f c). by destruct (Hf c) as [-> ->].
Qed.

Lemma carry_append l s :
carries cid0 part0 retry0 s ->
carries cid0 part0 retry0 (set_conns (conns s ++ l) s).
Proof.
unfold carries. cbn. intros (c & Hc & ? & ?). exists c.
by rewrite (lookup_app_l_Some _ _ _ _ Hc).
Qed.
Hint Resolve carry_upd_conn carry_append : carry.
Hint Extern 1 (forall c, c_part (_ c) = c_part c /\ c_retry (_ c) = c_retry c) =>
(intros ?; split; reflexivity) : carry.

Lemma carry_notify b e s :
  carries cid0 part0 retry0 s -> carries cid0 part0 retry0 (notify b e s).
Proof. intros. unfold notify. carry. Qed.
Hint Resolve carry_notify : carry.
Lemma carry_resolve cid st s :
  carries cid0 part0 retry0 s -> carries cid0 part0 retry0 (resolve cid st s).
Proof. intros. unfold resolve. carry. Qed.
Hint Resolve carry_resolve : carry.
Lemma carry_reject cid e s :
  carries cid0 part0 retry0 s -> carries cid0 part0 retry0 (reject cid e s).
Proof. intros. unfold reject. carry. Qed.
Hint Resolve carry_reject : carry.
Lemma carry_handleChunkProgress pn ty l s :
  carries cid0 part0 retry0 s -> carries cid0 part0 retry0 (handleChunkProgress pn ty l s).
Proof. intros. unfold handleChunkProgress. carry. Qed.
Hint Resolve carry_handleChunkProgress : carry.
Lemma carry_handleSinglePartProgress c l t s :
  carries cid0 part0 retry0 s -> carries cid0 part0 retry0 (handleSinglePartProgress c l t s).
Proof. intros. unfold handleSinglePartProgress. carry. Qed.
Hint Resolve carry_handleSinglePartProgress : carry.
Lemma carry_cleanup k s :
  carries cid0 part0 retry0 s -> carries cid0 part0 retry0 (cleanup k s).
Proof. intros. unfold cleanup. carry. Qed.
Hint Resolve carry_cleanup : carry.
Lemma carry_completeUpload c s :
  carries cid0 part0 retry0 s -> carries cid0 part0 retry0 (completeUpload c s).
Proof. intros. unfold completeUpload. carry. Qed.
Hint Resolve carry_completeUpload : carry.
Lemma carry_completeUpload_resume h s :
  carries cid0 part0 retry0 s -> carries cid0 part0 retry0 (completeUpload_resume h s).
Proof. intros. unfold completeUpload_resume. carry. Qed.
Hint Resolve carry_completeUpload_resume : carry.
Lemma carry_throwXHRError e cid b s :
  carries cid0 part0 retry0 s -> carries cid0 part0 retry0 (throwXHRError e cid b s).
Proof. intros. unfold throwXHRError. carry. Qed.
Hint Resolve carry_throwXHRError : carry.
Lemma carry_onreadystatechange cid st t s :
  carries cid0 part0 retry0 s -> carries cid0 part0 retry0 (onreadystatechange cid st t s).
Proof. intros. unfold onreadystatechange. carry. Qed.
Hint Resolve carry_onreadystatechange : carry.
Lemma carry_xhr_abort cid s :
  carries cid0 part0 retry0 s -> carries cid0 part0 retry0 (xhr_abort cid s).
Proof. intros. unfold xhr_abort. carry. Qed.
Hint Resolve carry_xhr_abort : carry.
Lemma carry_single_abort s :
  carries cid0 part0 retry0 s -> carries cid0 part0 retry0 (single_abort s).
Proof. intros. unfold single_abort. carry. Qed.
Hint Resolve carry_single_abort : carry.
Lemma carry_abort_connection s id :
  carries cid0 part0 retry0 s -> carries cid0 part0 retry0 (abort_connection s id).
Proof. intros. unfold abort_connection. carry. Qed.
Hint Resolve carry_abort_connection : carry.
Lemma carry_abort_all l s :
  carries cid0 part0 retry0 s -> carries cid0 part0 retry0 (foldl abort_connection s l).
Proof.
  revert s. induction l as [|k l IH]; intros s H; cbn; [done|].
  by apply IH, carry_abort_connection.
Qed.
Hint Resolve carry_abort_all : carry.
Lemma carry_abort s : carries cid0 part0 retry0 s -> carries cid0 part0 retry0 (abort s).
Proof. intros H. unfold abort. apply carry_abort_all. carry. Qed.
Hint Resolve carry_abort : carry.
Lemma carry_uploadNextChunk_on backlog retry s :
  carries cid0 part0 retry0 s ->
  carries cid0 part0 retry0 (uploadNextChunk_on backlog retry s).
Proof.
  revert retry s.
  induction backlog as [|part rest IH]; intros retry s H; cbn.
  - carry.
  - destruct (maxConcurrentConnections (plan s) <=?
              Z.of_nat (size (activeConnections s))); [done|].
    assert (carries cid0 part0 retry0
              (uploadNextChunk_on rest 0
                 (register (part_number part - 1) (length (conns s))
                    (set_conns
                       (conns s ++
                        [{| c_part := part; c_retry := retry;
                            c_settled := negb (online s); c_done := false;
                            c_listening := false |}])
                       (set_parts rest s))))) as H'.
    { apply IH, carry_register.
      apply (carry_append _ (set_parts rest s)). carry. }
    carry.
Qed.
Hint Resolve carry_uploadNextChunk_on : carry.
Lemma carry_uploadNextChunk retry s :
  carries cid0 part0 retry0 s -> carries cid0 part0 retry0 (uploadNextChunk retry s).
Proof. intros. unfold uploadNextChunk. carry. Qed.
Hint Resolve carry_uploadNextChunk : carry.
Lemma carry_onChunkFailure part retry e s :
  carries cid0 part0 retry0 s -> carries cid0 part0 retry0 (onChunkFailure part retry e s).
Proof. intros. unfold onChunkFailure. carry. Qed.
Hint Resolve carry_onChunkFailure : carry.
Lemma carry_onTimer tid s :
  carries cid0 part0 retry0 s -> carries cid0 part0 retry0 (onTimer tid s).
Proof. intros. unfold onTimer. carry. Qed.
Hint Resolve carry_onTimer : carry.
Lemma carry_single_settle r s :
  carries cid0 part0 retry0 s -> carries cid0 part0 retry0 (single_settle r s).
Proof. intros. unfold single_settle. carry. Qed.
Hint Resolve carry_single_settle : carry.
Lemma carry_uploadFile url headers s :
  carries cid0 part0 retry0 s -> carries cid0 part0 retry0 (uploadFile url headers s).
Proof.
  intros H. unfold uploadFile. apply carry_emit.
  assert (carries cid0 part0 retry0
            (emit (SingleOpen url)
               (set_xhr (Some {| sx_sent := true; sx_done := false;
                                 sx_settled := false |}) s))) as H'
    by carry.
  revert H'.
  generalize (emit (SingleOpen url)
                (set_xhr (Some {| sx_sent := true; sx_done := false;
                                  sx_settled := false |}) s)).
  induction headers as [|kv l IH]; intros u Hu; cbn; [done|].
  apply IH. carry.
Qed.
Hint Resolve carry_uploadFile : carry.
Lemma carry_start_resume m s :
  carries cid0 part0 retry0 s -> carries cid0 part0 retry0 (start_resume m s).
Proof. intros. unfold start_resume, singlePartUpload. carry. Qed.
Hint Resolve carry_start_resume : carry.
Lemma carry_uploadPreflight s :
  carries cid0 part0 retry0 s -> carries cid0 part0 retry0 (uploadPreflight s).
Proof. intros. unfold uploadPreflight. carry. Qed.
Hint Resolve carry_uploadPreflight : carry.
Lemma carry_single_onload st s :
  carries cid0 part0 retry0 s -> carries cid0 part0 retry0 (single_onload st s).
Proof. intros. unfold single_onload. carry. Qed.
Hint Resolve carry_single_onload : carry.
Lemma carry_single_finish s :
  carries cid0 part0 retry0 s -> carries cid0 part0 retry0 (single_finish s).
Proof. intros. unfold single_finish. carry. Qed.
Hint Resolve carry_single_finish : carry.
Lemma carry_tick s :
  carries cid0 part0 retry0 s -> carries cid0 part0 retry0 (tick s).
Proof. intros. unfold tick. carry. Qed.
Hint Resolve carry_tick : carry.
Lemma carry_answer i s k s' :
  answer i s = Some (k, s') -> carries cid0 part0 retry0 s -> carries cid0 part0 retry0 s'.
Proof.
  unfold answer. intros E H.
  repeat case_match; simplify_eq. carry.
Qed.

Lemma carry_task ev s : carries cid0 part0 retry0 s -> carries cid0 part0 retry0 (task ev s).
Proof.
  intros H. destruct ev; cbn; try (by carry).
  all: destruct (answer call s) as [[k u]|] eqn:E; [|done];
    apply carry_answer in E; [|done]; carry.
Qed.

Lemma carry_step s ev : carries cid0 part0 retry0 s -> carries cid0 part0 retry0 (step s ev).
Proof.
  intros H. unfold step.
  destruct ev; try (apply carry_tick; done);
    (destruct (reactions s); [by apply carry_task | done]).
Qed.

Lemma carry_run evs s : carries cid0 part0 retry0 s -> carries cid0 part0 retry0 (run s evs).
Proof.
  revert s. induction evs as [|ev evs IH]; intros s H; cbn; [done|].
  by apply IH, carry_step.
Qed.

End Carries.


(** ** A recorded part stays recorded *)

Lemma elem_of_insert_part x y l : x ∈ insert_part y l <-> x = y \/ x ∈ l.
Proof.
  induction l as [|z l IH]; cbn.
  - rewrite list_elem_of_singleton, elem_of_nil. tauto.
  - destruct (uploaded_part_number y <=? uploaded_part_number z).
    + rewrite !elem_of_cons. tauto.
    + rewrite !elem_of_cons, IH. tauto.
Qed.

Lemma elem_of_sort_parts x l : x ∈ sort_parts l <-> x ∈ l.
Proof.
  unfold sort_parts. induction l as [|y l IH]; cbn; [done|].
  rewrite elem_of_insert_part, IH, elem_of_cons. tauto.
Qed.

Section Kept.

Variable x0 : UploadedPart.

Lemma kept_frame s s' :
  uploadedParts s' = uploadedParts s -> kept x0 s -> kept x0 s'.
Proof. unfold kept. by intros ->. Qed.

Create HintDb keep.

Ltac keep_frame :=
  match goal with
  | H : kept x0 ?s |- kept x0 _ =>
      apply (kept_frame s); [reflexivity | exact H]
  end.

Ltac keep := descend ltac:(eauto 12 with keep nocore).

Lemma keep_emit e s :
  kept x0 s -> kept x0 (emit e s).
Proof. intros. keep_frame. Qed.
Lemma keep_enqueue r s :
  kept x0 s -> kept x0 (enqueue r s).
Proof. intros. keep_frame. Qed.
Lemma keep_add_call k s :
  kept x0 s -> kept x0 (add_call k s).
Proof. intros. keep_frame. Qed.
Lemma keep_upd_conn i f s :
  kept x0 s -> kept x0 (upd_conn i f s).
Proof. intros. keep_frame. Qed.
Lemma keep_set_xhr v s :
  kept x0 s -> kept x0 (set_xhr v s).
Proof. intros. keep_frame. Qed.
Lemma keep_set_parts v s :
  kept x0 s -> kept x0 (set_parts v s).
Proof. intros. keep_frame. Qed.
Lemma keep_set_uploadId v s :
  kept x0 s -> kept x0 (set_uploadId v s).
Proof. intros. keep_frame. Qed.
Lemma keep_set_uploadedSize v s :
  kept x0 s -> kept x0 (set_uploadedSize v s).
Proof. intros. keep_frame. Qed.
Lemma keep_set_progressCache v s :
  kept x0 s -> kept x0 (set_progressCache v s).
Proof. intros. keep_frame. Qed.
Lemma keep_set_conns v s :
  kept x0 s -> kept x0 (set_conns v s).
Proof. intros. keep_frame. Qed.
Lemma keep_set_reactions v s :
  kept x0 s -> kept x0 (set_reactions v s).
Proof. intros. keep_frame. Qed.
Lemma keep_set_timers v s :
  kept x0 s -> kept x0 (set_timers v s).
Proof. intros. keep_frame. Qed.
Lemma keep_set_calls v s :
  kept x0 s -> kept x0 (set_calls v s).
Proof. intros. keep_frame. Qed.
Lemma keep_set_online v s :
  kept x0 s -> kept x0 (set_online v s).
Proof. intros. keep_frame. Qed.
Lemma keep_set_uuids v s :
  kept x0 s -> kept x0 (set_uuids v s).
Proof. intros. keep_frame. Qed.
Lemma keep_set_peak v s :
  kept x0 s -> kept x0 (set_peak v s).
Proof. intros. keep_frame. Qed.
Lemma keep_set_activeConnections v s :
  kept x0 s -> kept x0 (set_activeConnections v s).
Proof. intros. keep_frame. Qed.
Lemma keep_register k c s :
  kept x0 s -> kept x0 (register k c s).
Proof. intros. keep_frame. Qed.
Lemma keep_unregister k s :
  kept x0 s -> kept x0 (unregister k s).
Proof. intros. keep_frame. Qed.
Hint Resolve keep_emit keep_enqueue keep_add_call keep_upd_conn keep_set_xhr
  keep_set_parts keep_set_uploadId keep_set_uploadedSize
  keep_set_progressCache keep_set_conns keep_set_reactions
  keep_set_timers keep_set_calls keep_set_online keep_set_uuids
  keep_set_peak keep_set_activeConnections keep_register
  keep_unregister
  : keep.

Lemma keep_append l s :
kept x0 s -> kept x0 (set_uploadedParts (uploadedParts s ++ l) s).
Proof. unfold kept. cbn. intros. apply elem_of_app. by left. Qed.

Lemma keep_sort s :
kept x0 s -> kept x0 (set_uploadedParts (sort_parts (uploadedParts s)) s).
Proof. unfold kept. cbn. by rewrite elem_of_sort_parts. Qed.
Hint Resolve keep_append keep_sort : keep.

Lemma keep_notify b e s :
  kept x0 s -> kept x0 (notify b e s).
Proof. intros. unfold notify. keep. Qed.
Hint Resolve keep_notify : keep.
Lemma keep_resolve cid st s :
  kept x0 s -> kept x0 (resolve cid st s).
Proof. intros. unfold resolve. keep. Qed.
Hint Resolve keep_resolve : keep.
Lemma keep_reject cid e s :
  kept x0 s -> kept x0 (reject cid e s).
Proof. intros. unfold reject. keep. Qed.
Hint Resolve keep_reject : keep.
Lemma keep_handleChunkProgress pn ty l s :
  kept x0 s -> kept x0 (handleChunkProgress pn ty l s).
Proof. intros. unfold handleChunkProgress. keep. Qed.
Hint Resolve keep_handleChunkProgress : keep.
Lemma keep_handleSinglePartProgress c l t s :
  kept x0 s -> kept x0 (handleSinglePartProgress c l t s).
Proof. intros. unfold handleSinglePartProgress. keep. Qed.
Hint Resolve keep_handleSinglePartProgress : keep.
Lemma keep_cleanup k s :
  kept x0 s -> kept x0 (cleanup k s).
Proof. intros. unfold cleanup. keep. Qed.
Hint Resolve keep_cleanup : keep.
Lemma keep_completeUpload c s :
  kept x0 s -> kept x0 (completeUpload c s).
Proof.
  intros H. unfold completeUpload. cbv zeta.
  apply keep_add_call, keep_emit, keep_set_uuids.
  destruct (uploadedParts s) eqn:E; [done|]. rewrite <- E.
  by apply keep_sort.
Qed.
Hint Resolve keep_completeUpload : keep.
Lemma keep_completeUpload_resume h s :
  kept x0 s -> kept x0 (completeUpload_resume h s).
Proof. intros. unfold completeUpload_resume. keep. Qed.
Hint Resolve keep_completeUpload_resume : keep.
Lemma keep_throwXHRError e cid b s :
  kept x0 s -> kept x0 (throwXHRError e cid b s).
Proof. intros. unfold throwXHRError. keep. Qed.
Hint Resolve keep_throwXHRError : keep.
Lemma keep_onreadystatechange cid st t s :
  kept x0 s -> kept x0 (onreadystatechange cid st t s).
Proof. intros. unfold onreadystatechange. keep. Qed.
Hint Resolve keep_onreadystatechange : keep.
Lemma keep_xhr_abort cid s :
  kept x0 s -> kept x0 (xhr_abort cid s).
Proof. intros. unfold xhr_abort. keep. Qed.
Hint Resolve keep_xhr_abort : keep.
Lemma keep_single_abort s :
  kept x0 s -> kept x0 (single_abort s).
Proof. intros. unfold single_abort. keep. Qed.
Hint Resolve keep_single_abort : keep.
Lemma keep_abort_connection s id :
  kept x0 s -> kept x0 (abort_connection s id).
Proof. intros. unfold abort_connection. keep. Qed.
Hint Resolve keep_abort_connection : keep.
Lemma keep_abort_all l s :
  kept x0 s -> kept x0 (foldl abort_connection s l).
Proof.
  revert s. induction l as [|k l IH]; intros s H; cbn; [done|].
  by apply IH, keep_abort_connection.
Qed.
Hint Resolve keep_abort_all : keep.
Lemma keep_abort s : kept x0 s -> kept x0 (abort s).
Proof. intros H. unfold abort. apply keep_abort_all. keep. Qed.
Hint Resolve keep_abort : keep.
Lemma keep_uploadNextChunk_on backlog retry s :
  kept x0 s -> kept x0 (uploadNextChunk_on backlog retry s).
Proof.
  revert retry s.
  induction backlog as [|part rest IH]; intros retry s H; cbn.
  - keep.
  - destruct (maxConcurrentConnections (plan s) <=?
              Z.of_nat (size (activeConnections s))); [done|].
    assert (kept x0
              (uploadNextChunk_on rest 0
                 (register (part_number part - 1) (length (conns s))
                    (set_conns
                       (conns s ++
                        [{| c_part := part; c_retry := retry;
                            c_settled := negb (online s); c_done := false;
                            c_listening := false |}])
                       (set_parts rest s))))) as H'
      by (apply IH; keep).
    keep.
Qed.
Hint Resolve keep_uploadNextChunk_on : keep.
Lemma keep_uploadNextChunk retry s :
  kept x0 s -> kept x0 (uploadNextChunk retry s).
Proof. intros. unfold uploadNextChunk. keep. Qed.
Hint Resolve keep_uploadNextChunk : keep.
Lemma keep_onChunkFailure part retry e s :
  kept x0 s -> kept x0 (onChunkFailure part retry e s).
Proof. intros. unfold onChunkFailure. keep. Qed.
Hint Resolve keep_onChunkFailure : keep.
Lemma keep_onTimer tid s :
  kept x0 s -> kept x0 (onTimer tid s).
Proof. intros. unfold onTimer. keep. Qed.
Hint Resolve keep_onTimer : keep.
Lemma keep_single_settle r s :
  kept x0 s -> kept x0 (single_settle r s).
Proof. intros. unfold single_settle. keep. Qed.
Hint Resolve keep_single_settle : keep.
Lemma keep_uploadFile url headers s :
  kept x0 s -> kept x0 (uploadFile url headers s).
Proof.
  intros H. unfold uploadFile. apply keep_emit.
  assert (kept x0
            (emit (SingleOpen url)
               (set_xhr (Some {| sx_sent := true; sx_done := false;
                                 sx_settled := false |}) s))) as H'
    by keep.
  revert H'.
  generalize (emit (SingleOpen url)
                (set_xhr (Some {| sx_sent := true; sx_done := false;
                                  sx_settled := false |}) s)).
  induction headers as [|kv l IH]; intros u Hu; cbn; [done|].
  apply IH. keep.
Qed.
Hint Resolve keep_uploadFile : keep.
Lemma keep_start_resume m s :
  kept x0 s -> kept x0 (start_resume m s).
Proof. intros. unfold start_resume, singlePartUpload. keep. Qed.
Hint Resolve keep_start_resume : keep.
Lemma keep_uploadPreflight s :
  kept x0 s -> kept x0 (uploadPreflight s).
Proof. intros. unfold uploadPreflight. keep. Qed.
Hint Resolve keep_uploadPreflight : keep.
Lemma keep_single_onload st s :
  kept x0 s -> kept x0 (single_onload st s).
Proof. intros. unfold single_onload. keep. Qed.
Hint Resolve keep_single_onload : keep.
Lemma keep_single_finish s :
  kept x0 s -> kept x0 (single_finish s).
Proof. intros. unfold single_finish. keep. Qed.
Hint Resolve keep_single_finish : keep.
Lemma keep_tick s :
  kept x0 s -> kept x0 (tick s).
Proof. intros. unfold tick. keep. Qed.
Hint Resolve keep_tick : keep.
Lemma keep_answer i s k s' :
  answer i s = Some (k, s') -> kept x0 s -> kept x0 s'.
Proof.
  unfold answer. intros E H.
  repeat case_match; simplify_eq. keep.
Qed.

Lemma keep_task ev s : kept x0 s -> kept x0 (task ev s).
Proof.
  intros H. destruct ev; cbn; try (by keep).
  all: destruct (answer call s) as [[k u]|] eqn:E; [|done];
    apply keep_answer in E; [|done]; keep.
Qed.

Lemma keep_step s ev : kept x0 s -> kept x0 (step s ev).
Proof.
  intros H. unfold step.
  destruct ev; try (apply keep_tick; done);
    (destruct (reactions s); [by apply keep_task | done]).
Qed.

Lemma keep_run evs s : kept x0 s -> kept x0 (run s evs).
Proof.
  revert s. induction evs as [|ev evs IH]; intros s H; cbn; [done|].
  by apply IH, keep_step.
Qed.

End Kept.


(** ** The retry governor and the drive step *)

Lemma run_app s evs1 evs2 : run s (evs1 ++ evs2) = run (run s evs1) evs2.
Proof. apply foldl_app. Qed.

Lemma tally_rev {A} (w : A -> bool) l : tally w (rev l) = tally w l.
Proof.
  induction l as [|x l IH]; cbn; [done|].
  rewrite tally_app, IH. cbn. lia.
Qed.

Lemma tally_zero {A} (w : A -> bool) l :
  Forall (fun x => w x = false) l -> tally w l = 0%nat.
Proof. induction 1 as [|x l Hx _ IH]; cbn; [done|]. by rewrite Hx, IH. Qed.

Lemma tally_elem {A} (w : A -> bool) x l :
  x ∈ l -> w x = true -> (1 <= tally w l)%nat.
Proof.
  induction 1 as [x l | x y l _ IH]; cbn; intros Hx; [rewrite Hx; lia|].
  specialize (IH Hx). lia.
Qed.

(** Distinct part numbers: each number is held by at most one part. *)
Lemma tally_holds_NoDup k urls :
  NoDup (part_number <$> urls) -> (tally (holds k) urls <= 1)%nat.
Proof.
  induction urls as [|p urls IH]; cbn; [lia|].
  intros [Hp Hn]%NoDup_cons. specialize (IH Hn).
  unfold holds at 1. destruct (Z.eqb_spec (part_number p) k) as [<-|]; [|lia].
  rewrite tally_zero; [lia|].
  apply Forall_forall. intros q Hq. unfold holds.
  apply Z.eqb_neq. intros Heq. apply Hp.
  apply list_elem_of_fmap. by exists q.
Qed.

(** With room in the registry, the drive step sends the part on top of the
    backlog on a new request that carries the attempt count it was called
    with. *)
Lemma drive_dispatches_top part rest retry s :
  parts s = part :: rest ->
  Z.of_nat (size (activeConnections s)) < maxConcurrentConnections (plan s) ->
  carries (length (conns s)) part retry (uploadNextChunk retry s)
  /\ length (conns s) ∈ sends (log (uploadNextChunk retry s)).
Proof.
  intros Hp Hroom. unfold uploadNextChunk. rewrite Hp. cbn.
  destruct (Z.leb_spec (maxConcurrentConnections (plan s))
              (Z.of_nat (size (activeConnections s)))); [lia|].
  set (new := {| c_part := part; c_retry := retry;
                 c_settled := negb (online s); c_done := false;
                 c_listening := false |}).
  set (s2 := register _ _ _).
  assert (carries (length (conns s)) part retry (uploadNextChunk_on rest 0 s2))
    as Hc.
  { apply carry_uploadNextChunk_on. exists new. subst s2. cbn.
    by rewrite lookup_app_r, Nat.sub_diag by lia. }
  split.
  - assert (carries (length (conns s)) part retry
              (emit (XhrSend (length (conns s))
                       ((part_number part - 1) * chunkSize (plan s))
                       ((part_number part - 1) * chunkSize (plan s)
                        + chunkSize (plan s)))
                 (upd_conn (length (conns s)) (listening true)
                    (emit (XhrOpen (length (conns s)) (signed_url part))
                       (uploadNextChunk_on rest 0 s2))))) as Hc'.
    { apply carry_emit, carry_upd_conn; [by apply carry_emit | by intros ?]. }
    destruct (negb (online s)); [by apply carry_enqueue | done].
  - assert (forall u : Uploader,
              length (conns s)
              ∈ sends (log (emit (XhrSend (length (conns s))
                                    ((part_number part - 1) * chunkSize (plan s))
                                    ((part_number part - 1) * chunkSize (plan s)
                                     + chunkSize (plan s))) u))) as Hs.
    { intros u. unfold emit, sends. cbn. rewrite omap_app.
      apply elem_of_app. right. cbn. by apply list_elem_of_singleton. }
    destruct (negb (online s)); [exact (Hs _) | exact (Hs _)].
Qed.

(** What the constructor leaves empty. *)
Lemma constructor_fresh m file options s0 :
  Uploader_constructor m file options = Some s0 ->
  online s0 = true /\ reactions s0 = [] /\ calls s0 = [] /\ parts s0 = []
  /\ conns s0 = [] /\ timers s0 = [] /\ uploadedParts s0 = []
  /\ activeConnections s0 = ∅.
Proof.
  unfold Uploader_constructor. intros E.
  repeat case_match; simplify_eq; by repeat split.
Qed.

(** [start()] followed by a multi-part answer of the preflight call. *)
Lemma start_multipart m file options s0 urls upload_id :
  Uploader_constructor m file options = Some s0 ->
  run s0 [Start; PreflightResponse 0 (Some (MultiPartMetadata urls upload_id))]
  = uploadNextChunk 0
      (set_uploadId upload_id
         (set_parts (rev urls)
            (set_calls [{| r_then := AfterPreflight; r_pending := false |}]
               (uploadPreflight s0)))).
Proof.
  intros (_ & Hq & Hc & _)%constructor_fresh.
  unfold run. cbn [foldl]. unfold step at 2. rewrite Hq. cbn [task].
  unfold step. cbn [reactions uploadPreflight add_call emit set_calls set_log].
  rewrite Hq. cbn [task]. unfold answer.
  cbn [calls uploadPreflight add_call emit set_calls set_log].
  rewrite Hc. reflexivity.
Qed.

Lemma start_accounted k m file options s0 urls upload_id :
  Uploader_constructor m file options = Some s0 ->
  NoDup (part_number <$> urls) ->
  accounted k 1
    (run s0 [Start; PreflightResponse 0 (Some (MultiPartMetadata urls upload_id))]).
Proof.
  intros E Hnd. rewrite (start_multipart _ _ _ _ _ _ E).
  apply constructor_fresh in E as (Ho & Hq & Hc & Hp & Hcs & Ht & Hu & _).
  apply acc_uploadNextChunk. split; [done|].
  unfold tokens. cbn. rewrite Hcs, Hq, Ht, Hu, tally_rev. cbn.
  pose proof (tally_holds_NoDup k urls Hnd). lia.
Qed.

(** ** What the per-part executor ignores, and what the commit holds *)

(** A response that is not a 200 with a non-empty [ETag] changes nothing:
    no part is recorded, and the promise is neither resolved nor
    rejected. *)
Lemma onreadystatechange_ignores cid status eTag s :
  status <> 200 \/ eTag = None \/ eTag = Some EmptyString ->
  onreadystatechange cid status eTag s = s.
Proof.
  intros H. unfold onreadystatechange.
  destruct (conns s !! cid); [|done].
  destruct (Z.eqb_spec status 200); [|done].
  destruct H as [? | [-> | ->]]; done.
Qed.

(** With connectivity down and room in the registry, the drive step rejects
    the promise of the part on top of the backlog and sends its request all
    the same. *)
Lemma offline_dispatch part rest retry s :
  online s = false ->
  parts s = part :: rest ->
  Z.of_nat (size (activeConnections s)) < maxConcurrentConnections (plan s) ->
  ChunkRejected part retry SystemIsOffline ∈ reactions (uploadNextChunk retry s)
  /\ carries (length (conns s)) part retry (uploadNextChunk retry s)
  /\ length (conns s) ∈ sends (log (uploadNextChunk retry s)).
Proof.
  intros Ho Hp Hroom. split; [|by apply (drive_dispatches_top part rest)].
  unfold uploadNextChunk. rewrite Hp. cbn.
  destruct (Z.leb_spec (maxConcurrentConnections (plan s))
              (Z.of_nat (size (activeConnections s)))); [lia|].
  rewrite Ho. cbn. apply elem_of_app. right. by apply list_elem_of_singleton.
Qed.

Lemma insert_part_sorted x l :
  Sorted Z.le (map uploaded_part_number l) ->
  Sorted Z.le (map uploaded_part_number (insert_part x l)).
Proof.
  induction l as [|y l IH]; cbn; intros Hs; [by repeat constructor|].
  destruct (Z.leb_spec (uploaded_part_number x) (uploaded_part_number y)).
  - cbn. constructor; [done|]. by constructor.
  - cbn. apply Sorted_inv in Hs as [Hs Hhd]. constructor; [by apply IH|].
    destruct l as [|z l]; cbn.
    + constructor. lia.
    + destruct (uploaded_part_number x <=? uploaded_part_number z); cbn;
        constructor; [lia|]. by apply HdRel_inv in Hhd.
Qed.

Lemma sort_parts_sorted l :
  Sorted Z.le (map uploaded_part_number (sort_parts l)).
Proof.
  unfold sort_parts. induction l as [|x l IH]; cbn; [constructor|].
  by apply insert_part_sorted.
Qed.

(** The commit of [completeUpload]: one call that holds the commit and the
    location record, with a manifest ascending by part number that lists
    what is recorded at that moment. *)
Lemma completeUpload_commit caught s :
  uploadedParts s <> [] ->
  exists manifest location_id,
    log (completeUpload caught s) =
      log s ++
      [SessionCall
         [CompleteMultipartUpload (uploadId s) manifest (componentId s);
          CreateComponentLocation location_id (componentId s)
            (componentId s) (SERVER_LOCATION_ID (imports s))]]
    /\ Sorted Z.le (map snd manifest)
    /\ forall x, x ∈ manifest <->
         exists p, p ∈ uploadedParts s
                   /\ x = (e_tag p, uploaded_part_number p).
Proof.
  intros Hne. unfold completeUpload.
  destruct (uploadedParts s) as [|p l] eqn:E; [done|]. rewrite <- E.
  eexists _, _. split; [reflexivity|]. split.
  - rewrite map_map. cbn. apply sort_parts_sorted.
  - intros x. rewrite list_elem_of_fmap. split.
    + intros (q & -> & Hq). exists q. by rewrite <- elem_of_sort_parts.
    + intros (q & Hq & ->). exists q. by rewrite elem_of_sort_parts.
Qed.


(** * The properties of the pipeline *)

(** ** Strategy selection (constructor) *)

(** C8. Let [S] be the declared size, [options.data.size] when it is a
    non-zero number and [file.size] otherwise, and [C(S)] the chunk size the
    policy gives for it, both below [2 ^ 53]. The constructor stores [S] and
    [C(S)], and computes the part count [Math.ceil(S / C(S))], which in
    doubles is the one integer [n] with [(n - 1) * C(S) < S <= n * C(S)]; it
    plans a single-part upload exactly when that count is at most 2 or the
    caller has supplied [options.xhr], and a multi-part upload of that many
    parts otherwise; with [options.xhr] it logs the deprecation warning, and
    nothing without it. *)
Theorem strategy_selection m file options s :
  let declared :=
    JS.or_number (data_size (default no_data (opt_data options)))
      (blob_size file) in
  let chunk := getChunkSize m declared in
  Uploader_constructor m file options = Some s ->
  0 <= declared < 2 ^ 53 ->
  0 < chunk < 2 ^ 53 ->
  fileSize (plan s) = declared
  /\ chunkSize (plan s) = chunk
  /\ exists part_count,
       (part_count - 1) * chunk < declared <= part_count * chunk
       /\ numParts (plan s) =
            (if opt_xhr options then None
             else if part_count <=? 2 then None
                  else Some (JS.number part_count))
       /\ (strategy (plan s) = Single <->
             opt_xhr options = true \/ part_count <= 2)
       /\ log s =
            (if opt_xhr options then [LoggerWarn XhrOptionDeprecated] else []).
Proof.
  intros declared chunk E Hd Hc.
  set (part_count := - ((- declared) `div` chunk)).
  assert ((part_count - 1) * chunk < declared <= part_count * chunk) as Hn.
  { pose proof (Z.div_mod (- declared) chunk ltac:(lia)).
    pose proof (Z.mod_pos_bound (- declared) chunk ltac:(lia)).
    subst part_count. nia. }
  assert (0 <= part_count < 2 ^ 53) as Hp by nia.
  unfold Uploader_constructor in E.
  fold declared in E. fold chunk in E.
  rewrite (ceil_div declared chunk Hd Hc) in E. fold part_count in E.
  rewrite (leb_number part_count Hp) in E.
  repeat case_match; simplify_eq; cbn;
    (split; [reflexivity|]); (split; [reflexivity|]);
    exists part_count; unfold strategy; cbn;
    repeat match goal with
      | H : (_ <=? _) = true |- _ => rewrite ?H; apply Z.leb_le in H
      | H : (_ <=? _) = false |- _ => rewrite ?H; apply Z.leb_gt in H
      end;
    repeat split; try done; try lia; intros; try lia;
    try (right; lia); try (left; done).
  all: try match goal with H : _ \/ _ |- _ => destruct H; [done | lia] end.
Qed.

(** ** Progress aggregator *)

(** C1, as the code has it. Let the declared size be positive and below
    [2 ^ 53], and let a progress callback be supplied. An event of type
    [progress], [error] or [abort] replaces the byte count of its part by
    [loaded]; an event of type [uploaded] moves the byte count of its part
    from the in-flight counts to the committed bytes; any other event
    changes neither. Every event then reports one percentage,
    [Math.round((sent / declaredSize) * 100)] as doubles compute it, where
    [sent = min(committed + sum of in-flight bytes, declaredSize)] is read
    after the update. For [sent] not negative the report is an integer [p]
    between 0 and 100, at most [1/2 + 2 ^ -45] away from
    [100 * sent / declaredSize]; for a declared size below [2 ^ 44] it is a
    nearest integer, and either of the two when [100 * sent / declaredSize]
    lies half-way. *)
Theorem reported_percentage partNumber type loaded s :
  let total := fileSize (plan s) in
  let counted := default 0 (progressCache s !! partNumber) in
  let bytes :=
    match type with
    | type_progress | type_error | type_abort =>
        uploadedSize s + (inProgress (progressCache s) - counted + loaded)
    | type_uploaded | type_loadend =>
        uploadedSize s + inProgress (progressCache s)
    end in
  let sent := Z.min bytes total in
  let s' := handleChunkProgress partNumber type loaded s in
  onProgress (plan s) = true ->
  0 < total < 2 ^ 53 ->
  0 <= sent ->
  uploadedSize s' =
    match type with
    | type_uploaded => uploadedSize s + counted
    | _ => uploadedSize s
    end
  /\ progressCache s' =
       match type with
       | type_progress | type_error | type_abort =>
           <[partNumber := loaded]> (progressCache s)
       | type_uploaded => delete partNumber (progressCache s)
       | type_loadend => progressCache s
       end
  /\ uploadedSize s' + inProgress (progressCache s') = bytes
  /\ exists p,
       log s' = log s ++ [OnProgress (JS.number p)]
       /\ JS.round
            (JS.mul (JS.div (JS.number sent) (JS.number total))
               (JS.number 100))
          = JS.number p
       /\ 0 <= p <= 100
       /\ (100 * inject_Z sent / inject_Z total - (1 # 2) - pow2 (-45)
             < inject_Z p
           /\ inject_Z p
                <= 100 * inject_Z sent / inject_Z total + (1 # 2)
                   + pow2 (-45))%Q
       /\ (total < 2 ^ 44 ->
           2 * total * p - total <= 200 * sent <= 2 * total * p + total).
Proof.
  intros total counted bytes sent s' Hcb Ht Hs.
  assert (s' =
          emit
            (OnProgress
               (percentage (uploadedSize s') (progressCache s') total))
            (set_progressCache (progressCache s')
               (set_uploadedSize (uploadedSize s') s))) as Hs'.
  { subst s'. unfold handleChunkProgress, notify.
    cbn [plan set_progressCache set_uploadedSize]. rewrite Hcb.
    by destruct type. }
  assert (uploadedSize s' + inProgress (progressCache s') = bytes) as Hb.
  { subst s' bytes counted. clear Hs'. unfold handleChunkProgress, notify.
    cbn [plan set_progressCache set_uploadedSize]. rewrite Hcb.
    destruct type; cbn [uploadedSize progressCache emit set_log
                        set_progressCache set_uploadedSize];
      rewrite ?inProgress_insert, ?inProgress_delete; lia. }
  split.
  { subst s'. unfold handleChunkProgress, notify.
    cbn [plan set_progressCache set_uploadedSize]. rewrite Hcb.
    by destruct type. }
  split.
  { subst s'. unfold handleChunkProgress, notify.
    cbn [plan set_progressCache set_uploadedSize]. rewrite Hcb.
    by destruct type. }
  split; [exact Hb|].
  destruct (round_percent sent total) as (p & Hp & Hr & Hq);
    [subst sent; lia | done |].
  exists p. split; [|split; [exact Hp|split; [exact Hr|split; [exact Hq|]]]].
  - rewrite Hs' at 1. unfold emit. cbn [log set_log set_progressCache
                                        set_uploadedSize].
    do 2 f_equal. rewrite <- Hp. unfold percentage. cbv zeta.
    by rewrite Hb.
  - intros Hsmall. apply nearest_percent; [lia | exact Hq].
Qed.

(** ** Concurrency ceiling *)

(** C4. In every state an uploader can reach from its construction, whatever
    the events and their order, the registry of active connections has at
    most 6 entries, and it never had more at any moment in between ([peak]
    is raised at every registration). *)
Theorem active_connections_within_ceiling m file options s0 evs :
  Uploader_constructor m file options = Some s0 ->
  maxConcurrentConnections (plan (run s0 evs)) = 6
  /\ (size (activeConnections (run s0 evs)) <= 6)%nat
  /\ (peak (run s0 evs) <= 6)%nat.
Proof.
  intros E.
  assert (within_ceiling 6 s0) as H0.
  { unfold Uploader_constructor in E.
    repeat case_match; simplify_eq;
      repeat split; cbn; rewrite ?map_size_empty; lia. }
  destruct (ceiling_run 6 evs s0 H0) as (? & ? & ?).
  repeat split; [done | lia | lia].
Qed.

(** ** Destination id *)

(** C10. The id the constructor chooses, [options.data.id] when it is a
    non-empty string and a fresh identifier otherwise, is the id the uploader
    holds in every state it can reach, and every effect that names a
    component names that id: the [FileComponent] id and the [component_id]
    of the preflight call, the [component_id] of the commit, the
    [component_id] and the [resource_identifier] of the location, the
    published event, the argument of [onComplete] and the key of the cleanup
    delete. *)
Theorem destination_id_is_stable m file options s0 evs :
  Uploader_constructor m file options = Some s0 ->
  let chosen :=
    JS.or_string (data_id (default no_data (opt_data options))) (uuidV4 m 0) in
  componentId s0 = chosen
  /\ componentId (run s0 evs) = chosen
  /\ Forall (effect_uses chosen) (log (run s0 evs)).
Proof.
  intros E chosen.
  assert (one_id chosen s0) as H0.
  { unfold Uploader_constructor in E. subst chosen.
    repeat case_match; simplify_eq; split; cbn; repeat constructor. }
  split; [apply H0|]. apply (ids_run chosen evs s0 H0).
Qed.


(** ** Per-part wire contract *)

(** C5, the code at the failing inputs. Request 0 is answered with status
    500 and request 1 with status 200 but no [ETag] header: neither attempt
    records a part, neither promise is settled (no reaction is queued, no
    retry timer armed, no error reported), and both requests stay in the
    registry although they are over. Request 2, answered with status 200 and
    a quoted fingerprint, records its part with the quotes removed. *)
Theorem unanswered_attempt_neither_succeeds_nor_fails :
  let s :=
    run demo
      (demo_start ++
       [ReadyStateDone 0 500 None; LoadEnd 0;
        ReadyStateDone 1 200 None; LoadEnd 1]) in
  let s' := run s [ReadyStateDone 2 200 (Some demo_etag)] in
  uploadedParts s = []
  /\ reactions s = []
  /\ timers s = []
  /\ errors (log s) = []
  /\ c_settled <$> conns s !! 0%nat = Some false
  /\ c_settled <$> conns s !! 1%nat = Some false
  /\ activeConnections s !! 3 = Some 0%nat
  /\ activeConnections s !! 2 = Some 1%nat
  /\ uploadedParts s' =
       [{| e_tag := "9b2cf535f27731c974343645a3985328";
           uploaded_part_number := 2 |}]
  /\ reactions s' = [ChunkFulfilled (demo_part 2) 0 200]
  /\ activeConnections s' !! 1 = None.
Proof. vm_compute. repeat split. Qed.

(** ** Offline check *)

(** C9, the code at the failing input. With connectivity down when the
    session starts, each of the four attempts rejects its promise with the
    offline error and then goes on: the request is made, registered, opened
    and sent. *)
Theorem offline_attempt_is_sent_anyway :
  let s := run demo (Connectivity false :: demo_start) in
  reactions s =
    [ChunkRejected (demo_part 1) 0 SystemIsOffline;
     ChunkRejected (demo_part 2) 0 SystemIsOffline;
     ChunkRejected (demo_part 3) 0 SystemIsOffline;
     ChunkRejected (demo_part 4) 0 SystemIsOffline]
  /\ length (conns s) = 4%nat
  /\ size (activeConnections s) = 4%nat
  /\ sends (log s) = [3; 2; 1; 0]%nat.
Proof. vm_compute. repeat split. Qed.

(** ** Cancellation *)

(** C6, the code at the failing input. In a multi-part session with four
    requests in flight, [abort()] does abort the four requests, but every
    aborted part is handled as a failed attempt with retries left: a retry
    timer is armed for each, no delete is issued, and neither [onAborted] nor
    [onError] is called. In a single-part session the same call aborts the
    request, calls [onAborted], issues the delete and, once the delete has
    answered, calls [onError] with the abort error, each once. *)
Theorem abort_of_multipart_session_retries :
  let s :=
    run demo
      (demo_start ++ [UploadProgress 0 1000; Abort; Tick; Tick; Tick; Tick]) in
  let u :=
    run small
      (small_start ++
       [SingleProgress true 524288 1048576; Abort; DeleteResponse 1; Tick]) in
  aborts (log s) = [3; 2; 1; 0]%nat
  /\ aborted_calls (log s) = 0%nat
  /\ errors (log s) = []
  /\ deletes (log s) = []
  /\ map (fun t => (part_number (t_part t), t_retry t, t_armed t)) (timers s) =
       [(1, 1, true); (2, 1, true); (3, 1, true); (4, 1, true)]
  /\ aborted_calls (log u) = 1%nat
  /\ deletes (log u) = [componentId small]
  /\ errors (log u) = [UploadAbortedByClient]
  /\ errorCode UploadAbortedByClient = Some "UPLOAD_ABORTED"%string.
Proof. vm_compute. repeat split. Qed.

(** ** Parts manifest *)

(** C7, the code at the failing input. Part 1 fails once with a network
    error and the three other parts succeed while its retry timer runs: the
    drive step finds the backlog and the registry empty and commits a
    manifest of three entries for a plan of four parts. When the timer fires
    part 1 is sent again, succeeds, and a second commit with four entries
    follows; [onComplete] is called after each. *)
Theorem commit_while_a_retry_is_pending :
  let premature :=
    demo_start ++
    [NetworkError 3 0; Tick; LoadEnd 3;
     ReadyStateDone 0 200 (Some demo_etag); Tick; LoadEnd 0;
     ReadyStateDone 1 200 (Some demo_etag); Tick; LoadEnd 1;
     ReadyStateDone 2 200 (Some demo_etag); Tick; LoadEnd 2] in
  let s := run demo premature in
  let s' :=
    run s
      [CompleteResponse 1 false; TimerFired 0;
       ReadyStateDone 4 200 (Some demo_etag); Tick; LoadEnd 4;
       CompleteResponse 2 false] in
  numParts (plan s) = Some (JS.number 4)
  /\ map (map snd) (manifests (log s)) = [[2; 3; 4]]
  /\ map (fun t => (part_number (t_part t), t_armed t)) (timers s) =
       [(1, true)]
  /\ map (map snd) (manifests (log s')) = [[2; 3; 4]; [1; 2; 3; 4]]
  /\ completions (log s') = [componentId demo; componentId demo].
Proof. vm_compute. repeat split. Qed.

(** ** Retry governor *)

(** C2, the code at the failing input. The session starts while the browser
    is offline, so the first attempt of each of the four parts fails, with
    the offline error; each failure arms a retry timer of [2 ^ 1 * 100]
    milliseconds, and nothing is recorded. But the request of a failed
    attempt has been sent all the same: the offline check rejects the
    promise and does not return. Connectivity returns; request
    3, the first attempt of part 1, is answered with status 200 and a
    fingerprint and records part 1; the timer of part 1 fires, part 1 goes
    out again on request 4, succeeds, and is recorded a second time: a part
    that has failed once before succeeding has two results. When the three
    other parts have gone the same way the session commits a manifest of
    eight entries for its four parts. *)
Theorem offline_failure_records_the_part_twice :
  let s :=
    run demo
      (Connectivity false :: demo_start
         ++ [Tick; Tick; Tick; Tick; Connectivity true]) in
  let s' :=
    run s
      [ReadyStateDone 3 200 (Some demo_etag); LoadEnd 3; TimerFired 0;
       ReadyStateDone 4 200 (Some demo_etag); Tick; LoadEnd 4] in
  let s'' :=
    run s'
      [ReadyStateDone 2 200 (Some demo_etag); LoadEnd 2;
       ReadyStateDone 1 200 (Some demo_etag); LoadEnd 1;
       ReadyStateDone 0 200 (Some demo_etag); LoadEnd 0;
       TimerFired 1; TimerFired 2; TimerFired 3;
       ReadyStateDone 5 200 (Some demo_etag); Tick; LoadEnd 5;
       ReadyStateDone 6 200 (Some demo_etag); Tick; LoadEnd 6;
       ReadyStateDone 7 200 (Some demo_etag); Tick; LoadEnd 7;
       CompleteResponse 1 false] in
  map (fun t => (part_number (t_part t), t_retry t, t_delay t, t_armed t))
      (timers s)
    = [(1, 1, 200, true); (2, 1, 200, true); (3, 1, 200, true);
       (4, 1, 200, true)]
  /\ sends (log s) = [3; 2; 1; 0]%nat
  /\ uploadedParts s = []
  /\ sends (log s') = [3; 2; 1; 0; 4]%nat
  /\ map uploaded_part_number (uploadedParts s') = [1; 1]
  /\ tally (recorded 1) (uploadedParts s') = 2%nat
  /\ errors (log s'') = []
  /\ map (map snd) (manifests (log s'')) = [[1; 1; 2; 2; 3; 3; 4; 4]]
  /\ completions (log s'') = [componentId demo].
Proof. vm_compute. repeat split. Qed.

(** ** Retry exhaustion *)

(** C3, the code at the failing inputs. Part 1 fails eight times in a row
    while the three other parts are in flight; its eighth failure is handled
    with attempt count 7. The code calls [abort()] on the three requests,
    issues the delete and, once the delete has answered, calls [onError]
    with the error of part 1. But the session has not ended: each aborted
    part has been handled as a failed attempt with retries left, and its
    retry timer is armed. When the timers fire parts 2, 3 and 4 are sent
    again, on requests 11 to 13, to a destination that has been deleted;
    when they succeed the code commits a manifest of three entries and
    calls [onComplete], after [onError].

    In the second session parts 1 and 2 have both failed seven times when
    part 1 fails again: the request of part 2 is among those aborted, its
    failure is handled with attempt count 7 as well, and the code issues
    two deletes and calls [onError] twice. *)
Theorem fatal_failure_leaves_the_session_running :
  let s :=
    run demo (demo_start ++ part_1_failing 7 ++ [NetworkError 10 0; Tick]) in
  let s' := run s [Tick; Tick; Tick; LoadEnd 10; DeleteResponse 1] in
  let s'' :=
    run s'
      [TimerFired 7; TimerFired 8; TimerFired 9;
       ReadyStateDone 11 200 (Some demo_etag); Tick; LoadEnd 11;
       ReadyStateDone 12 200 (Some demo_etag); Tick; LoadEnd 12;
       ReadyStateDone 13 200 (Some demo_etag); Tick; LoadEnd 13;
       CompleteResponse 2 false] in
  let twice :=
    run demo
      (demo_start ++ two_parts_failing 7 ++
       [NetworkError 16 0; Tick; Tick; Tick; Tick; LoadEnd 16;
        DeleteResponse 1; CallFailed 2]) in
  aborts (log s) = [2; 1; 0]%nat
  /\ deletes (log s) = [componentId demo]
  /\ errors (log s') = [UploadChunkError]
  /\ completions (log s') = []
  /\ sends (log s') = [3; 2; 1; 0; 4; 5; 6; 7; 8; 9; 10]%nat
  /\ map (fun t => (part_number (t_part t), t_retry t))
         (filter t_armed (timers s'))
       = [(2, 1); (3, 1); (4, 1)]
  /\ sends (log s'') =
       [3; 2; 1; 0; 4; 5; 6; 7; 8; 9; 10; 11; 12; 13]%nat
  /\ deletes (log s'') = [componentId demo]
  /\ errors (log s'') = [UploadChunkError]
  /\ map (map snd) (manifests (log s'')) = [[2; 3; 4]]
  /\ completions (log s'') = [componentId demo]
  /\ deletes (log twice) = [componentId demo; componentId demo]
  /\ errors (log twice) = [UploadChunkError; UploadCanceled].
Proof. vm_compute. repeat split. Qed.


(** ** One fatal failure, step by step *)

(** When the failure of a part is handled with an attempt count above 6 (in
    a multi-part session: no single request in flight), that one step calls
    [abort()] on every request of the registry, which leaves each of them
    over, issues exactly one delete, of the destination component, reports
    no error yet, and leaves one call pending. When that call is answered,
    by success or by failure, [onError] is called once with the error of the
    failed part, and nothing more comes of an answered call. All of this is
    per failure, and none of it stops the parts that have retries left. *)
Theorem fatal_failure_cleans_up_once s part retry e queue :
  reactions s = ChunkRejected part retry e :: queue ->
  6 < retry ->
  registry_ok s ->
  single_live s = false ->
  let s' := step s Tick in
  let pending := {| r_then := AfterCleanupFatal e; r_pending := true |} in
  let answered := {| r_then := AfterCleanupFatal e; r_pending := false |} in
  (forall key cid, activeConnections s !! key = Some cid -> cancelled cid s')
  /\ deletes (log s') = deletes (log s) ++ [componentId s]
  /\ errors (log s') = errors (log s)
  /\ calls s' = calls s ++ [pending]
  /\ (forall u i ev,
        calls u !! i = Some pending ->
        reactions u = [] ->
        onError (plan u) = true ->
        ev = DeleteResponse i \/ ev = CallFailed i ->
        log (step u ev) = log u ++ [OnError e]
        /\ calls (step u ev) = <[i := answered]> (calls u))
  /\ (forall u i ev,
        calls u !! i = Some answered ->
        ev = DeleteResponse i \/ ev = CallFailed i ->
        step u ev = u).
Proof.
  intros Hq Hr Hs Hl s' pending answered.
  assert (s' =
          cleanup (AfterCleanupFatal e)
            (abort (emit (LoggerError (PartGivingUp (part_number part)))
                      (set_reactions queue s)))) as ->.
  { subst s'. cbn. unfold tick. rewrite Hq. unfold onChunkFailure.
    by destruct (Z.leb_spec retry 6); [lia|]. }
  set (v := emit _ (set_reactions queue s)).
  assert (silent s (abort v)) as (Hd & He & Hc & _ & Hi & _).
  { apply silent_abort; [done|]. subst v.
    apply silent_emit; [done..|]. by repeat split. }
  split; [|split; [|split; [|split; [|split]]]].
  - intros key cid Hreg.
    assert (cancelled cid (abort v)) as [? ?].
    { apply (abort_cancels_registry v key cid); [|done..].
      by apply rok_emit, rok_set_reactions. }
    split; [|done]. unfold cleanup, add_call, emit, aborts. cbn.
    rewrite omap_app. apply elem_of_app. by left.
  - unfold cleanup, add_call, emit, deletes. cbn.
    rewrite omap_app. cbn. unfold deletes in Hd. by rewrite Hd, Hi.
  - unfold cleanup, add_call, emit, errors. cbn.
    rewrite omap_app. cbn. unfold errors in He. by rewrite He, app_nil_r.
  - unfold cleanup, add_call. cbn. by rewrite Hc.
  - intros u i ev Hu Hq' Hcb [-> | ->]; unfold step; rewrite Hq'; cbn;
      unfold answer; rewrite Hu; cbn; unfold notify; cbn; by rewrite Hcb.
  - intros u i ev Hu [-> | ->]; unfold step;
      destruct (reactions u); try done; cbn;
      unfold answer; by rewrite Hu.
Qed.


(** ** One retry, step by step *)

(** Let [retry] be the counter the handler of a failed attempt holds: the
    number of failures of the part that were handled before this one.

    - A failure handled with [retry <= 6] arms one timer, of
      [2 ^ (retry + 1) * 100] milliseconds (the counter is incremented
      before the delay is computed, so the n-th failure of a part waits
      [2 ^ n * 100] milliseconds), that holds the same part and the
      incremented counter; it records nothing and leaves backlog and
      registry alone.
    - When the timer fires, the same part is pushed onto the backlog and the
      drive step is resumed with the incremented counter; if the registry
      has room, the part goes out on a new request that carries that
      counter.
    - In a session that has started with distinct part numbers and sees
      connectivity up, no part number is ever recorded twice, however
      often its attempts have failed, and once an attempt of a part succeeds
      (status 200 with a fingerprint) the part is recorded exactly once, and
      stays so. *)
Theorem retry_governor :
  (forall s part retry e queue,
     reactions s = ChunkRejected part retry e :: queue ->
     retry <= 6 ->
     let s' := step s Tick in
     let delay := 2 ^ (retry + 1) * 100 in
     timers s' =
       timers s ++ [{| t_part := part; t_retry := retry + 1;
                       t_delay := delay; t_armed := true |}]
     /\ log s' =
          log s ++ [LoggerWarn (PartBackingOff (part_number part) delay);
                    SetTimeout delay]
     /\ reactions s' = queue
     /\ parts s' = parts s
     /\ uploadedParts s' = uploadedParts s
     /\ activeConnections s' = activeConnections s
     /\ conns s' = conns s)
  /\ (forall s tid t,
        reactions s = [] ->
        timers s !! tid = Some t ->
        t_armed t = true ->
        let disarmed :=
          {| t_part := t_part t; t_retry := t_retry t; t_delay := t_delay t;
             t_armed := false |} in
        let s' := step s (TimerFired tid) in
        s' =
          uploadNextChunk (t_retry t)
            (set_parts (t_part t :: parts s)
               (set_timers (<[tid := disarmed]> (timers s)) s))
        /\ (Z.of_nat (size (activeConnections s))
              < maxConcurrentConnections (plan s) ->
            carries (length (conns s)) (t_part t) (t_retry t) s'
            /\ length (conns s) ∈ sends (log s')))
  /\ (forall m file options s0 urls upload_id evs,
        Uploader_constructor m file options = Some s0 ->
        NoDup (part_number <$> urls) ->
        forallb calm evs = true ->
        let s :=
          run s0
            (Start
             :: PreflightResponse 0 (Some (MultiPartMetadata urls upload_id))
             :: evs) in
        (forall k, (tally (recorded k) (uploadedParts s) <= 1)%nat)
        /\ (forall cid c eTag later,
              reactions s = [] ->
              live cid s = Some c ->
              JS.truthy_string eTag = true ->
              forallb calm later = true ->
              tally (recorded (part_number (c_part c)))
                (uploadedParts
                   (run s (ReadyStateDone cid 200 (Some eTag) :: later)))
              = 1%nat)).
Proof.
  split; [|split].
  - intros s part retry e queue Hq Hr s' delay. subst s' delay.
    unfold step, tick. rewrite Hq. unfold onChunkFailure.
    destruct (Z.leb_spec retry 6); [|lia]. repeat split; try reflexivity.
    unfold emit. cbn [log set_log set_timers]. by rewrite <- app_assoc.
  - intros s tid t Hq Ht Ha disarmed s'.
    assert (s' =
            uploadNextChunk (t_retry t)
              (set_parts (t_part t :: parts s)
                 (set_timers (<[tid := disarmed]> (timers s)) s))) as ->.
    { subst s'. unfold step. rewrite Hq. cbn. unfold onTimer.
      by rewrite Ht, Ha. }
    split; [done|]. intros Hroom.
    exact (drive_dispatches_top (t_part t) (parts s) (t_retry t)
             (set_parts (t_part t :: parts s)
                (set_timers (<[tid := disarmed]> (timers s)) s))
             eq_refl Hroom).
  - intros m file options s0 urls upload_id evs E Hnd Hcalm s.
    assert (forall k later,
              forallb calm later = true ->
              accounted k 1 (run s later)) as Hacc.
    { intros k later Hl. apply acc_run; [done|]. subst s.
      change (Start :: PreflightResponse 0
                         (Some (MultiPartMetadata urls upload_id)) :: evs)
        with ([Start; PreflightResponse 0
                        (Some (MultiPartMetadata urls upload_id))] ++ evs).
      rewrite run_app. apply acc_run; [done|].
      by apply (start_accounted k m file options). }
    clearbody s. split.
    + intros k. destruct (Hacc k [] eq_refl) as [_ Ht].
      change (run s []) with s in Ht. unfold tokens in Ht. lia.
    + intros cid c eTag later Hq Hl Ht Hlater.
      assert (conns (upd_conn cid finished s) !! cid = Some (finished c))
        as Hu.
      { cbn. rewrite list_lookup_alter_eq.
        unfold live in Hl. destruct (conns s !! cid) as [c'|]; [|done].
        destruct (c_done c'); by simplify_eq. }
      set (x := {| uploaded_part_number := part_number (c_part c);
                   e_tag := JS.replaceAll_dquote eTag |}).
      assert (kept x (step s (ReadyStateDone cid 200 (Some eTag)))) as Hk.
      { unfold step. rewrite Hq. cbn [task]. rewrite Hl.
        unfold onreadystatechange. rewrite Hu.
        change (200 =? 200) with true. cbv iota. rewrite Ht. cbv zeta.
        apply keep_upd_conn, keep_unregister, keep_resolve.
        unfold kept. cbn. apply elem_of_app. right.
        by apply list_elem_of_singleton. }
      apply (keep_run x later) in Hk.
      destruct (Hacc (part_number (c_part c))
                  (ReadyStateDone cid 200 (Some eTag) :: later)) as [_ Hle];
        [done|].
      pose proof (tally_elem (recorded (part_number (c_part c))) x _ Hk
                    (Z.eqb_refl _)).
      change (run s (ReadyStateDone cid 200 (Some eTag) :: later))
        with (run (step s (ReadyStateDone cid 200 (Some eTag))) later) in *.
      unfold tokens in Hle. unfold kept in Hk. lia.
Qed.


(** * The properties at work on the example session *)

Lemma demo_constructed :
  Uploader_constructor demo_imports demo_file demo_options = Some demo.
Proof. reflexivity. Qed.

(** Scenario B of the specification: 20971520 bytes in chunks of 5242880
    make four parts, hence a multi-part plan. *)
Lemma strategy_selection_witness :
  let declared :=
    JS.or_number (data_size (default no_data (opt_data demo_options)))
      (blob_size demo_file) in
  let chunk := getChunkSize demo_imports declared in
  Uploader_constructor demo_imports demo_file demo_options = Some demo
  /\ 0 <= declared < 2 ^ 53
  /\ 0 < chunk < 2 ^ 53
  /\ fileSize (plan demo) = declared
  /\ chunkSize (plan demo) = chunk
  /\ exists part_count,
       (part_count - 1) * chunk < declared <= part_count * chunk
       /\ numParts (plan demo) =
            (if opt_xhr demo_options then None
             else if part_count <=? 2 then None
                  else Some (JS.number part_count))
       /\ (strategy (plan demo) = Single <->
             opt_xhr demo_options = true \/ part_count <= 2)
       /\ log demo =
            (if opt_xhr demo_options then [LoggerWarn XhrOptionDeprecated]
             else []).
Proof.
  intros declared chunk.
  split; [reflexivity|]. split; [by vm_compute|]. split; [by vm_compute|].
  apply (strategy_selection demo_imports demo_file demo_options demo);
    [reflexivity | by vm_compute | by vm_compute].
Defined.

(** The first progress event of the example session: request 3, of part
    1, has sent its whole chunk, a quarter of the file. *)
Lemma reported_percentage_witness :
  let s := run demo demo_start in
  let total := fileSize (plan s) in
  let counted := default 0 (progressCache s !! 3) in
  let bytes :=
    uploadedSize s + (inProgress (progressCache s) - counted + 5242880) in
  let sent := Z.min bytes total in
  let s' := handleChunkProgress 3 type_progress 5242880 s in
  onProgress (plan s) = true
  /\ 0 < total < 2 ^ 53
  /\ 0 <= sent
  /\ uploadedSize s' = uploadedSize s
  /\ progressCache s' = <[3 := 5242880]> (progressCache s)
  /\ uploadedSize s' + inProgress (progressCache s') = bytes
  /\ exists p,
       log s' = log s ++ [OnProgress (JS.number p)]
       /\ JS.round
            (JS.mul (JS.div (JS.number sent) (JS.number total))
               (JS.number 100))
          = JS.number p
       /\ 0 <= p <= 100
       /\ (100 * inject_Z sent / inject_Z total - (1 # 2) - pow2 (-45)
             < inject_Z p
           /\ inject_Z p
                <= 100 * inject_Z sent / inject_Z total + (1 # 2)
                   + pow2 (-45))%Q
       /\ (total < 2 ^ 44 ->
           2 * total * p - total <= 200 * sent <= 2 * total * p + total).
Proof.
  intros s total counted bytes sent s'.
  split; [reflexivity|]. split; [by vm_compute|]. split; [by vm_compute|].
  apply (reported_percentage 3 type_progress 5242880 s);
    [reflexivity | by vm_compute | by vm_compute].
Defined.

(** C1 as stated fails on the example session. After requests 0 and 1 have
    sent their chunk and request 2 has sent 3500000 bytes, [sent / total] is
    0.6669: the code reports 67, the floor is 66. Once every request has
    sent its chunk the code reports 100 although no part is recorded yet, and
    a network error on request 3 then takes the report back to 75. *)
Lemma progress_report_counterexample :
  let s1 :=
    run demo
      (demo_start ++
       [UploadProgress 0 5242880; UploadProgress 1 5242880;
        UploadProgress 2 3500000]) in
  let s2 := run s1 [UploadProgress 2 5242880; UploadProgress 3 5242880] in
  let s3 := run s2 [NetworkError 3 0] in
  let sent :=
    Z.min (uploadedSize s1 + inProgress (progressCache s1))
      (fileSize (plan s1)) in
  reports (log s1) = map JS.number [25; 50; 67]
  /\ sent = 13985760
  /\ JS.floor
       (JS.mul (JS.div (JS.number sent) (JS.number (fileSize (plan s1))))
          (JS.number 100))
     = JS.number 66
  /\ reports (log s2) = map JS.number [25; 50; 67; 75; 100]
  /\ uploadedParts s2 = []
  /\ reports (log s3) = map JS.number [25; 50; 67; 75; 100; 75].
Proof. vm_compute. repeat split. Qed.

(** The report is computed in doubles. With 12058624 of the 20971520 bytes
    sent the exact percentage is 57.5; the quotient is rounded to the double
    below [0.575], its product with 100 to the double below [57.5], and the
    code reports 57. *)
Lemma half_way_report_in_doubles :
  let s :=
    run demo
      (demo_start ++
       [UploadProgress 0 5242880; UploadProgress 1 5242880;
        UploadProgress 2 1572864]) in
  uploadedSize s + inProgress (progressCache s) = 12058624
  /\ 200 * 12058624 = 2 * 20971520 * 57 + 20971520
  /\ reports (log s) = map JS.number [25; 50; 57].
Proof. vm_compute. repeat split. Qed.

Lemma active_connections_within_ceiling_witness :
  Uploader_constructor demo_imports demo_file demo_options = Some demo
  /\ maxConcurrentConnections (plan (run demo demo_start)) = 6
  /\ (size (activeConnections (run demo demo_start)) <= 6)%nat
  /\ (peak (run demo demo_start) <= 6)%nat.
Proof.
  split; [reflexivity|].
  apply (active_connections_within_ceiling demo_imports demo_file
           demo_options demo demo_start).
  reflexivity.
Defined.

Lemma destination_id_is_stable_witness :
  Uploader_constructor demo_imports demo_file demo_options = Some demo
  /\ let chosen :=
       JS.or_string (data_id (default no_data (opt_data demo_options)))
         (uuidV4 demo_imports 0) in
     componentId demo = chosen
     /\ componentId (run demo demo_start) = chosen
     /\ Forall (effect_uses chosen) (log (run demo demo_start)).
Proof.
  split; [reflexivity|].
  apply (destination_id_is_stable demo_imports demo_file demo_options demo
           demo_start).
  reflexivity.
Defined.

(** The state in which the example session handles the eighth failure of
    part 1: parts 1 and 2 have failed seven times each and are in flight
    again, with attempt count 7, when request 16 of part 1 meets a network
    error. *)
Lemma fatal_failure_cleans_up_once_witness :
  let s := run demo (demo_start ++ two_parts_failing 7 ++ [NetworkError 16 0]) in
  let e := UploadChunkError in
  reactions s = [ChunkRejected (demo_part 1) 7 e]
  /\ 6 < 7
  /\ registry_ok s
  /\ single_live s = false
  /\ let s' := step s Tick in
     let pending := {| r_then := AfterCleanupFatal e; r_pending := true |} in
     let answered := {| r_then := AfterCleanupFatal e; r_pending := false |} in
     (forall key cid, activeConnections s !! key = Some cid -> cancelled cid s')
     /\ deletes (log s') = deletes (log s) ++ [componentId s]
     /\ errors (log s') = errors (log s)
     /\ calls s' = calls s ++ [pending]
     /\ (forall u i ev,
           calls u !! i = Some pending ->
           reactions u = [] ->
           onError (plan u) = true ->
           ev = DeleteResponse i \/ ev = CallFailed i ->
           log (step u ev) = log u ++ [OnError e]
           /\ calls (step u ev) = <[i := answered]> (calls u))
     /\ (forall u i ev,
           calls u !! i = Some answered ->
           ev = DeleteResponse i \/ ev = CallFailed i ->
           step u ev = u).
Proof.
  intros s e.
  assert (reactions s = [ChunkRejected (demo_part 1) 7 e]) as Hq
    by (vm_compute; reflexivity).
  assert (registry_ok s) as Hs
    by (apply (bool_decide_unpack _); vm_compute; exact I).
  assert (single_live s = false) as Hl by (vm_compute; reflexivity).
  split; [exact Hq|]. split; [lia|]. split; [exact Hs|]. split; [exact Hl|].
  apply (fatal_failure_cleans_up_once s (demo_part 1) 7 e [] Hq ltac:(lia) Hs Hl).
Defined.

(** The retry governor on the example session: the first failure of part 1
    arms a timer of 200 milliseconds; when it fires, part 1 goes out again on
    request 4 with attempt count 1; and after six failures in a row the
    success of request 9 records part 1 exactly once. *)
Lemma retry_governor_witness :
  let s_a := run demo (demo_start ++ [NetworkError 3 0]) in
  let s_b := run demo (demo_start ++ [NetworkError 3 0; Tick; LoadEnd 3]) in
  let first_timer :=
    {| t_part := demo_part 1; t_retry := 1; t_delay := 200; t_armed := true |} in
  let s_c := run demo (demo_start ++ part_1_failing 6) in
  (reactions s_a = [ChunkRejected (demo_part 1) 0 UploadChunkError]
   /\ timers (step s_a Tick) = [first_timer]
   /\ uploadedParts (step s_a Tick) = uploadedParts s_a)
  /\ (timers s_b !! 0%nat = Some first_timer
      /\ carries 4 (demo_part 1) 1 (step s_b (TimerFired 0))
      /\ 4%nat ∈ sends (log (step s_b (TimerFired 0))))
  /\ (live 9 s_c =
        Some {| c_part := demo_part 1; c_retry := 6; c_settled := false;
                c_done := false; c_listening := true |}
      /\ tally (recorded 1)
           (uploadedParts
              (run s_c [ReadyStateDone 9 200 (Some demo_etag); Tick; LoadEnd 9]))
         = 1%nat).
Proof.
  intros s_a s_b first_timer s_c.
  destruct retry_governor as (Ha & Hb & Hc).
  split; [|split].
  - assert (reactions s_a = [ChunkRejected (demo_part 1) 0 UploadChunkError])
      as Hq by (vm_compute; reflexivity).
    destruct (Ha s_a (demo_part 1) 0 UploadChunkError [] Hq ltac:(lia))
      as (Ht & _ & _ & _ & Hu & _).
    split; [exact Hq|]. split; [|exact Hu].
    rewrite Ht. vm_compute. reflexivity.
  - assert (timers s_b !! 0%nat = Some first_timer) as Ht
      by (vm_compute; reflexivity).
    assert (reactions s_b = []) as Hq by (vm_compute; reflexivity).
    destruct (Hb s_b 0%nat first_timer Hq Ht eq_refl) as [_ Hd].
    split; [exact Ht|]. apply Hd. vm_compute. reflexivity.
  - set (c := {| c_part := demo_part 1; c_retry := 6; c_settled := false;
                 c_done := false; c_listening := true |}).
    assert (live 9 s_c = Some c) as Hl by (vm_compute; reflexivity).
    split; [exact Hl|].
    assert (NoDup (part_number <$> demo_urls)) as Hnd
      by (apply (bool_decide_unpack _); vm_compute; exact I).
    destruct (Hc demo_imports demo_file demo_options demo demo_urls
                "upload-id"%string (part_1_failing 6) eq_refl Hnd eq_refl)
      as [_ Hone].
    apply (Hone 9%nat c demo_etag [Tick; LoadEnd 9]);
      [vm_compute; reflexivity | exact Hl | reflexivity | reflexivity].
Defined.

